(** * Effector propagation kernel: id generators, priority queue, interpreter, driver

    A shallow embedding of [src/effector/stdlib/refcount.js] (the two id
    generators) and of the propagation kernel that follows it in the same
    file (the skew heap, the five buckets, [deleteMin], [pushHeap], [exec],
    [launch], [tryRun]), with the properties the specification states
    about them.

    JavaScript objects that the kernel mutates in place (queue items, stack
    frames, ref cells) live in explicit stores indexed by addresses; heap
    nodes, which are uniquely owned, are an inductive tree. *)

From Stdlib Require Import ZArith NArith Lia Ascii String.
From stdpp Require Import functions gmap strings list.

Local Open Scope string_scope.
Local Open Scope list_scope.
Local Open Scope nat_scope.
Local Set Warnings "-register-all".

(* ===================================================================== *)
(** * Part I. Definitions                                                  *)
(* ===================================================================== *)

(** ** refcount.js *)

Module Refcount.

(** Digit [d] (below 36) of [Number.prototype.toString(36)]:
    [0-9] then lower-case [a-z]. *)
Definition digit36 (d : N) : ascii :=
  if (d <? 10)%N then ascii_of_N (48 + d) else ascii_of_N (87 + d).

(** Inverse of [digit36] on characters. *)
Definition digit_val (c : ascii) : option N :=
  let x := N_of_ascii c in
  if ((48 <=? x) && (x <=? 57))%N then Some (x - 48)%N
  else if ((97 <=? x) && (x <=? 122))%N then Some (x - 87)%N
  else None.

(** [n.toString(36)] for a non-negative integer [n]: most significant
    digit first, no leading zero.  The recursion peels the last digit;
    [fuel] bounds the number of digits. *)
Fixpoint toString36_aux (fuel : nat) (n : N) (acc : string) : string :=
  match fuel with
  | O => acc
  | S f =>
      let acc' := String (digit36 (n mod 36)) acc in
      if (n / 36 =? 0)%N then acc' else toString36_aux f (n / 36) acc'
  end.

Definition toString36 (n : N) : string :=
  toString36_aux (S (N.to_nat n)) n "".

(** Reading a base-36 numeral back, left to right. *)
Fixpoint value36_from (a : N) (s : string) : option N :=
  match s with
  | EmptyString => Some a
  | String c s' =>
      match digit_val c with
      | Some d => value36_from (36 * a + d) s'
      | None => None
      end
  end.

Definition value36 (s : string) : option N := value36_from 0 s.

(** [stringRefcount] returns a closure over a private counter [id],
    initially [0]; the closure's state is that counter.  The counter is
    a JavaScript number that only ever holds the integers 0, 1, 2, ...,
    which a number represents exactly up to 2^53, a count no run comes
    near; it is taken here as a natural number. *)
Definition stringRefcount : N := 0%N.

(** One call of the closure: [(++id).toString(36)]. *)
Definition stringRefcount_call (id : N) : string * N :=
  let id' := N.succ id in (toString36 id', id').

(** The module creates two closures, hence two counters. *)
Record Generators := { unit_counter : N; step_counter : N }.

Definition generators_init : Generators :=
  {| unit_counter := stringRefcount; step_counter := stringRefcount |}.

Definition nextUnitID (g : Generators) : string * Generators :=
  let '(r, c) := stringRefcount_call (unit_counter g) in
  (r, {| unit_counter := c; step_counter := step_counter g |}).

Definition nextStepID (g : Generators) : string * Generators :=
  let '(r, c) := stringRefcount_call (step_counter g) in
  (r, {| unit_counter := unit_counter g; step_counter := c |}).

(** A client program is a sequence of calls to the two generators. *)
Inductive Gen := UnitGen | StepGen.

Global Instance Gen_eq_dec : EqDecision Gen.
Proof. solve_decision. Defined.

Definition call (k : Gen) (g : Generators) : string * Generators :=
  match k with UnitGen => nextUnitID g | StepGen => nextStepID g end.

(** The counter of generator [k]. *)
Definition counter (k : Gen) (g : Generators) : N :=
  match k with UnitGen => unit_counter g | StepGen => step_counter g end.

(** The ids returned by a sequence of calls, in call order. *)
Fixpoint run_calls (ks : list Gen) (g : Generators) : list string :=
  match ks with
  | [] => []
  | k :: ks' => let '(r, g') := call k g in r :: run_calls ks' g'
  end.

(** The ids that the calls to generator [k] returned, in order, among the
    ids [ids] returned by the calls [ks]. *)
Definition ids_of (k : Gen) (ks : list Gen) (ids : list string) : list string :=
  (filter (λ p, p.1 = k) (zip ks ids)).*2.

(** How many of the calls [ks] were made to generator [k]. *)
Definition calls_to (k : Gen) (ks : list Gen) : nat :=
  length (filter (λ k', k' = k) ks).

End Refcount.

(** ** Values *)

(** JavaScript values as far as the kernel looks at them.  Objects are
    opaque and compared by identity, which [ref] stands for; an array
    also carries its elements, read by [payload[i]] in [launch]. *)
Inductive Value :=
| VUndefined
| VNull
| VBool (b : bool)
| VNum (n : Z)
| VStr (s : string)
| VObj (ref : nat)
| VArr (ref : nat) (elems : list Value).

(** [x === y] *)
Definition strict_eq (x y : Value) : bool :=
  match x, y with
  | VUndefined, VUndefined => true
  | VNull, VNull => true
  | VBool a, VBool b => bool_decide (a = b)
  | VNum a, VNum b => bool_decide (a = b)
  | VStr a, VStr b => bool_decide (a = b)
  | VObj a, VObj b => bool_decide (a = b)
  | VArr a _, VArr b _ => bool_decide (a = b)
  | _, _ => false
  end.

(** Truthiness, as used by [!x] and [if (x)]. *)
Definition truthy (x : Value) : bool :=
  match x with
  | VUndefined | VNull => false
  | VBool b => b
  | VNum n => negb (bool_decide (n = 0%Z))
  | VStr s => negb (bool_decide (s = ""))
  | VObj _ | VArr _ _ => true
  end.

(** The error value of an engine-level [TypeError] (a property read on
    [null] or [undefined]). *)
Definition TypeError : Value := VStr "TypeError".

(** ** Types of the kernel *)

(** [type PriorityTag = 'child' | 'pure' | 'barrier' | 'sampler' | 'effect'] *)
Inductive PriorityTag := child | pure | barrier | sampler | effect.

Global Instance PriorityTag_eq_dec : EqDecision PriorityTag.
Proof. solve_decision. Defined.

(** Addresses of the objects held in stores. *)
Abbreviation StackRef := nat (only parsing).
Abbreviation ItemRef := nat (only parsing).
Abbreviation CellRef := nat (only parsing).
Abbreviation GraphRef := nat (only parsing).
Abbreviation Unit := nat (only parsing).

(** [type Layer = {| idx, stack, type, id |}] *)
Record Layer := {
  layer_idx : nat;
  layer_stack : StackRef;
  layer_type : PriorityTag;
  layer_id : Z;
}.

Global Instance Layer_eq_dec : EqDecision Layer.
Proof. solve_decision. Defined.

(** [type Stack = { value, a, b, parent, node }] *)
Record Stack := {
  stack_value : Value;
  stack_a : Value;
  stack_b : Value;
  stack_parent : option StackRef;
  stack_node : GraphRef;
}.

(** [type QueueItem = { right, value }] *)
Record QueueItem := {
  item_right : option ItemRef;
  item_value : Layer;
}.

(** [type QueueBucket = { first, last, size }] *)
Record QueueBucket := {
  bucket_first : option ItemRef;
  bucket_last : option ItemRef;
  bucket_size : nat;
}.

(** [type Heap = { v, l, r }], with [HNull] for [null] (and for the [0]
    that [pushHeap] stores in the children of a new node). *)
Inductive Heap :=
| HNull
| HNode (v : Layer) (l r : Heap).

(** [type Local = { skip, fail, ref, scope }] *)
Record Local := {
  local_skip : bool;
  local_fail : bool;
  local_ref : string;
  local_scope : Value;
}.

(** What [launch] accepts as its first argument: a unit, an array of
    units, or a descriptor [{target, params, defer}]. *)
Inductive Target :=
| TUnit (u : Unit)
| TArray (us : list Unit).

Inductive Graphite :=
| GTarget (t : Target)
| GDescriptor (target : Target) (params : Value) (defer : bool).

(** A user function, called as [fn(stack.value, local.scope, stack)].  What
    the kernel can observe of a call is a sequence of re-entrant [launch]
    calls followed by a returned value or a thrown error; the functions
    of the model act on the state of the kernel through these calls
    only. *)
Inductive FnBody :=
| FnReturn (v : Value)
| FnThrow (err : Value)
| FnLaunch (unit : Graphite) (payload : Value) (upsert : bool) (k : FnBody).

Definition UserFn : Type := Value → Value → Stack → FnBody.

(** Steps of a graph: [{type, data}] as a tagged variant. *)
Inductive MovFrom :=
| from_stack | from_a | from_b
| from_value (store : Value)
| from_store (id : string).

Inductive MovTo :=
| to_stack | to_a | to_b
| to_store (id : string).

Inductive CheckType :=
| check_defined
| check_changed (id : string).

Inductive Step :=
| step_barrier (barrierID : Z) (priority : PriorityTag)
| step_mov (from : MovFrom) (to : MovTo)
| step_check (ty : CheckType)
| step_filter (fn : UserFn)
| step_run (fn : UserFn)
| step_compute (fn : UserFn).

(** [Graph]: [seq], [next], [reg] (store id to ref cell), [scope]. *)
Record Graph := {
  graph_seq : list Step;
  graph_next : list GraphRef;
  graph_reg : gmap string CellRef;
  graph_scope : Value;
}.

(** History of the queue, kept for stating temporal properties: one event
    per [pushHeap] call and per layer returned by [deleteMin], newest
    first.  No function of the kernel reads it. *)
Inductive Event :=
| EvPush (l : Layer)
| EvPop (l : Layer).

(** ** The state of the module *)

(** The module-level variables [heap], [queue], [barriers],
    [alreadyStarted], together with the stores of the objects they point
    to (with the next free address, for the two kinds of objects that the
    kernel allocates), the output of [console.error] and the history
    [trace]. *)
Record State := {
  heap : Heap;
  queue : list QueueBucket;
  items : gmap ItemRef QueueItem;
  next_item : ItemRef;
  stacks : gmap StackRef Stack;
  next_stack : StackRef;
  cells : gmap CellRef Value;
  barriers : gset Z;
  alreadyStarted : bool;
  console : list Value;
  trace : list Event;
}.

Definition set_heap (h : Heap) (s : State) : State :=
  {| heap := h; queue := queue s; items := items s; next_item := next_item s;
     stacks := stacks s; next_stack := next_stack s; cells := cells s;
     barriers := barriers s; alreadyStarted := alreadyStarted s;
     console := console s; trace := trace s |}.

Definition set_queue (q : list QueueBucket) (s : State) : State :=
  {| heap := heap s; queue := q; items := items s; next_item := next_item s;
     stacks := stacks s; next_stack := next_stack s; cells := cells s;
     barriers := barriers s; alreadyStarted := alreadyStarted s;
     console := console s; trace := trace s |}.

Definition set_items (m : gmap ItemRef QueueItem) (n : ItemRef) (s : State) : State :=
  {| heap := heap s; queue := queue s; items := m; next_item := n;
     stacks := stacks s; next_stack := next_stack s; cells := cells s;
     barriers := barriers s; alreadyStarted := alreadyStarted s;
     console := console s; trace := trace s |}.

Definition set_stacks (m : gmap StackRef Stack) (n : StackRef) (s : State) : State :=
  {| heap := heap s; queue := queue s; items := items s; next_item := next_item s;
     stacks := m; next_stack := n; cells := cells s;
     barriers := barriers s; alreadyStarted := alreadyStarted s;
     console := console s; trace := trace s |}.

Definition set_cells (m : gmap CellRef Value) (s : State) : State :=
  {| heap := heap s; queue := queue s; items := items s; next_item := next_item s;
     stacks := stacks s; next_stack := next_stack s; cells := m;
     barriers := barriers s; alreadyStarted := alreadyStarted s;
     console := console s; trace := trace s |}.

Definition set_barriers (b : gset Z) (s : State) : State :=
  {| heap := heap s; queue := queue s; items := items s; next_item := next_item s;
     stacks := stacks s; next_stack := next_stack s; cells := cells s;
     barriers := b; alreadyStarted := alreadyStarted s;
     console := console s; trace := trace s |}.

Definition set_alreadyStarted (b : bool) (s : State) : State :=
  {| heap := heap s; queue := queue s; items := items s; next_item := next_item s;
     stacks := stacks s; next_stack := next_stack s; cells := cells s;
     barriers := barriers s; alreadyStarted := b;
     console := console s; trace := trace s |}.

Definition set_console (c : list Value) (s : State) : State :=
  {| heap := heap s; queue := queue s; items := items s; next_item := next_item s;
     stacks := stacks s; next_stack := next_stack s; cells := cells s;
     barriers := barriers s; alreadyStarted := alreadyStarted s;
     console := c; trace := trace s |}.

Definition set_trace (t : list Event) (s : State) : State :=
  {| heap := heap s; queue := queue s; items := items s; next_item := next_item s;
     stacks := stacks s; next_stack := next_stack s; cells := cells s;
     barriers := barriers s; alreadyStarted := alreadyStarted s;
     console := console s; trace := t |}.

(** The state when the module has been loaded: [heap = null], five empty
    buckets, no barrier in flight, not started. *)
Definition empty_bucket : QueueBucket :=
  {| bucket_first := None; bucket_last := None; bucket_size := 0 |}.

Definition init_state : State :=
  {| heap := HNull; queue := replicate 5 empty_bucket;
     items := ∅; next_item := 0; stacks := ∅; next_stack := 0; cells := ∅;
     barriers := ∅; alreadyStarted := false; console := []; trace := [] |}.

(** ** Computations over the state *)

(** The result of running a piece of the kernel: a value, an exception
    that is propagating, or (for the drain loop only) no result within
    the allotted number of iterations.  The state is kept in both of the
    first two cases. *)
Inductive Res (A : Type) :=
| Val (a : A) (s : State)
| Exn (err : Value) (s : State)
| OutOfFuel.

Arguments Val {A} a s.
Arguments Exn {A} err s.
Arguments OutOfFuel {A}.

Definition M (A : Type) : Type := State → Res A.

Definition ret {A} (a : A) : M A := λ s, Val a s.

Definition bind {A B} (m : M A) (k : A → M B) : M B :=
  λ s, match m s with
       | Val a s' => k a s'
       | Exn e s' => Exn e s'
       | OutOfFuel => OutOfFuel
       end.

Definition throw {A} (e : Value) : M A := λ s, Exn e s.

(** [try { m } catch (err) { h err }] *)
Definition try_catch {A} (m : M A) (h : Value → M A) : M A :=
  λ s, match m s with
       | Exn err s' => h err s'
       | r => r
       end.

Definition gets {A} (f : State → A) : M A := λ s, Val (f s) s.

Definition modify (f : State → State) : M unit := λ s, Val tt (f s).

Notation "x <- m ; k" := (bind m (λ x, k))
  (at level 20, m at level 100, k at level 200, only parsing).
Notation "' pat <- m ; k" := (bind m (λ x, match x with pat => k end))
  (at level 20, pat pattern, m at level 100, k at level 200, only parsing).

(** ** The priority queue *)

(** [getPriority]; the [default: return -1] branch is for strings that
    are not priority tags. *)
Definition getPriority (t : PriorityTag) : nat :=
  match t with
  | child => 0
  | pure => 1
  | barrier => 2
  | sampler => 3
  | effect => 4
  end.

Fixpoint heap_size (h : Heap) : nat :=
  match h with
  | HNull => 0
  | HNode _ l r => S (heap_size l + heap_size r)
  end.

(** [merge(a, b)].  The JavaScript function recurses on [(a.r, b)] after
    possibly swapping [a] and [b], so neither argument decreases alone;
    [n] bounds the depth of the recursion.  The nodes of the two heaps
    are owned by them alone, so the update in place of [a.r] and [a.l]
    is the construction of a new node. *)
Fixpoint merge_fuel (n : nat) (a b : Heap) : Heap :=
  match n with
  | 0 => HNull
  | S n' =>
      match a, b with
      | HNull, _ => b
      | _, HNull => a
      | HNode av al ar, HNode bv bl br =>
          let isSameType := bool_decide (layer_type av = layer_type bv) in
          if (isSameType && (layer_id bv <? layer_id av)%Z)
             || (negb isSameType && bool_decide (layer_type av = sampler))
          then HNode bv (merge_fuel n' br a) bl
          else HNode av (merge_fuel n' ar b) al
      end
  end.

Definition merge (a b : Heap) : Heap :=
  merge_fuel (S (heap_size a + heap_size b)) a b.

Arguments merge : simpl never.

(** [queue[i]]; reading a field of a bucket that does not exist throws. *)
Definition get_bucket (i : nat) : M QueueBucket :=
  λ s, match queue s !! i with
       | Some b => Val b s
       | None => Exn TypeError s
       end.

(** Assignments to fields of [queue[i]] update the bucket in place. *)
Definition set_bucket (i : nat) (b : QueueBucket) : M unit :=
  modify (λ s, set_queue (<[i := b]> (queue s)) s).

(** Reading the fields of the queue item at address [a]. *)
Definition get_item (a : ItemRef) : M QueueItem :=
  λ s, match items s !! a with
       | Some it => Val it s
       | None => Exn TypeError s
       end.

Definition log_event (e : Event) : M unit :=
  modify (λ s, set_trace (e :: trace s) s).

(** The heap branch of [deleteMin]:
    [list.size -= 1; value = heap.v; heap = merge(heap.l, heap.r)]. *)
Definition deleteMin_heap (i : nat) (list : QueueBucket) : M Layer :=
  _ <- set_bucket i {| bucket_first := bucket_first list;
                       bucket_last := bucket_last list;
                       bucket_size := bucket_size list - 1 |} ;
  h <- gets heap ;
  match h with
  | HNull => throw TypeError
  | HNode v l r => _ <- modify (set_heap (merge l r)) ; ret v
  end.

(** The linked-list branch of [deleteMin]:
    [if (list.size === 1) list.last = null;
     item = list.first; list.first = item.right; list.size -= 1]. *)
Definition deleteMin_list (i : nat) (list : QueueBucket) : M Layer :=
  let last' := if bucket_size list =? 1 then None else bucket_last list in
  _ <- set_bucket i {| bucket_first := bucket_first list;
                       bucket_last := last';
                       bucket_size := bucket_size list |} ;
  match bucket_first list with
  | None => throw TypeError
  | Some a =>
      item <- get_item a ;
      _ <- set_bucket i {| bucket_first := item_right item;
                           bucket_last := last';
                           bucket_size := bucket_size list - 1 |} ;
      ret (item_value item)
  end.

(** The [for (let i = 0; i < 5; i++)] loop of [deleteMin], with [n]
    iterations left; [None] is the [undefined] returned when every
    bucket is empty. *)
Fixpoint deleteMin_from (n i : nat) : M (option Layer) :=
  match n with
  | 0 => ret None
  | S n' =>
      list <- get_bucket i ;
      if 0 <? bucket_size list then
        value <- (if (i =? 2) || (i =? 3)
                  then deleteMin_heap i list
                  else deleteMin_list i list) ;
        _ <- log_event (EvPop value) ;
        ret (Some value)
      else deleteMin_from n' (S i)
  end.

Definition deleteMin : M (option Layer) := deleteMin_from 5 0.

(** The linked-list branch of [pushHeap]: a new item
    [{right: null, value}] is allocated, linked after [bucket.last]
    (or made [bucket.first] when the bucket is empty) and becomes
    [bucket.last]. *)
Definition pushHeap_list (priority : nat) (bucket : QueueBucket) (value : Layer)
  : M QueueBucket :=
  a <- gets next_item ;
  _ <- modify (λ s, set_items (<[a := {| item_right := None; item_value := value |}]>
                                 (items s)) (S a) s) ;
  if bucket_size bucket =? 0 then
    ret {| bucket_first := Some a; bucket_last := Some a;
           bucket_size := bucket_size bucket |}
  else
    match bucket_last bucket with
    | None => throw TypeError
    | Some l =>
        it <- get_item l ;
        _ <- modify (λ s, set_items (<[l := {| item_right := Some a;
                                               item_value := item_value it |}]>
                                       (items s)) (next_item s) s) ;
        ret {| bucket_first := bucket_first bucket; bucket_last := Some a;
               bucket_size := bucket_size bucket |}
    end.

(** [pushHeap(idx, stack, type, id = 0)] *)
Definition pushHeap (idx : nat) (stack : StackRef) (type : PriorityTag) (id : Z)
  : M unit :=
  let priority := getPriority type in
  bucket <- get_bucket priority ;
  let value := {| layer_idx := idx; layer_stack := stack;
                  layer_type := type; layer_id := id |} in
  _ <- log_event (EvPush value) ;
  bucket' <- (if (priority =? 2) || (priority =? 3) then
                _ <- modify (λ s, set_heap (merge (heap s) (HNode value HNull HNull)) s) ;
                ret bucket
              else pushHeap_list priority bucket value) ;
  set_bucket priority {| bucket_first := bucket_first bucket';
                         bucket_last := bucket_last bucket';
                         bucket_size := bucket_size bucket' + 1 |}.

(** [pushFirstHeapItem(type, node, parent, value)]: a new stack frame
    [{a: null, b: null, node, parent, value}] is allocated and pushed at
    index [0] with the default [id]. *)
Definition pushFirstHeapItem (type : PriorityTag) (node : GraphRef)
    (parent : option StackRef) (value : Value) : M unit :=
  a <- gets next_stack ;
  _ <- modify (λ s, set_stacks
                 (<[a := {| stack_value := value; stack_a := VNull; stack_b := VNull;
                            stack_parent := parent; stack_node := node |}]> (stacks s))
                 (S a) s) ;
  pushHeap 0 a type 0.

(** ** Stack frames, ref cells, console *)

(** Reading the fields of the stack frame at address [stack]. *)
Definition read_stack (stack : StackRef) : M Stack :=
  λ s, match stacks s !! stack with
       | Some fr => Val fr s
       | None => Exn TypeError s
       end.

Definition with_value (v : Value) (fr : Stack) : Stack :=
  {| stack_value := v; stack_a := stack_a fr; stack_b := stack_b fr;
     stack_parent := stack_parent fr; stack_node := stack_node fr |}.

Definition with_a (v : Value) (fr : Stack) : Stack :=
  {| stack_value := stack_value fr; stack_a := v; stack_b := stack_b fr;
     stack_parent := stack_parent fr; stack_node := stack_node fr |}.

Definition with_b (v : Value) (fr : Stack) : Stack :=
  {| stack_value := stack_value fr; stack_a := stack_a fr; stack_b := v;
     stack_parent := stack_parent fr; stack_node := stack_node fr |}.

(** An assignment to a field of the stack frame at address [stack]. *)
Definition write_stack (stack : StackRef) (f : Stack → Stack) : M unit :=
  modify (λ s, set_stacks (alter f stack (stacks s)) (next_stack s) s).

(** Modelled from the spec: [readRef(cell)] returns the cell's [current]
    value ([readRef] is imported from [./stdlib], which is not part of the
    sources at hand). *)
Definition readRef (cell : CellRef) : M Value :=
  gets (λ s, default VUndefined (cells s !! cell)).

(** [graph.reg[id]]; the callers read [current] of the result, which
    throws when the register has no such entry. *)
Definition reg_lookup (graph : Graph) (id : string) : M CellRef :=
  match graph_reg graph !! id with
  | Some c => ret c
  | None => throw TypeError
  end.

(** [console.error(err)] *)
Definition console_error (err : Value) : M unit :=
  modify (λ s, set_console (err :: console s) s).

Definition set_skip (b : bool) (l : Local) : Local :=
  {| local_skip := b; local_fail := local_fail l;
     local_ref := local_ref l; local_scope := local_scope l |}.

Definition set_fail (b : bool) (l : Local) : Local :=
  {| local_skip := local_skip l; local_fail := b;
     local_ref := local_ref l; local_scope := local_scope l |}.

(** [payload[i]] *)
Definition js_index (payload : Value) (i : nat) : M Value :=
  match payload with
  | VUndefined | VNull => throw TypeError
  | VArr _ elems => ret (default VUndefined (elems !! i))
  | VStr s =>
      ret (match String.get i s with
           | Some c => VStr (String c EmptyString)
           | None => VUndefined
           end)
  | VBool _ | VNum _ | VObj _ => ret VUndefined
  end.

(** ** The interpreter and the driver *)

Section Kernel.

(** The graphs, which do not change during propagation, are read through
    their addresses.  [getGraph] is imported from [./stdlib]; it maps a
    unit to its graph. *)
Variable graph_at : GraphRef → Graph.
Variable getGraph : Unit → GraphRef.

Section Interpreter.

(** What a call of [launch] from inside a user function does. *)
Variable launch_rec : Graphite → Value → bool → M unit.

(** Running the body of a user function. *)
Fixpoint run_fn (b : FnBody) : M Value :=
  match b with
  | FnReturn v => ret v
  | FnThrow err => throw err
  | FnLaunch unit payload upsert k =>
      _ <- launch_rec unit payload upsert ; run_fn k
  end.

(** [tryRun(local, {fn}, stack)]: the result of [fn], or, when [fn]
    throws, [console.error(err); local.fail = true] and no [return]: the
    call evaluates to [undefined].  The updated [local] is returned with
    the result. *)
Definition tryRun (local : Local) (fn : UserFn) (stack : StackRef)
  : M (Value * Local) :=
  fr <- read_stack stack ;
  try_catch
    (v <- run_fn (fn (stack_value fr) (local_scope local) fr) ; ret (v, local))
    (λ err, _ <- console_error err ; ret (VUndefined, set_fail true local)).

(** The source of a [mov] step. *)
Definition mov_from (graph : Graph) (stack : StackRef) (from : MovFrom) : M Value :=
  match from with
  | from_stack => fr <- read_stack stack ; ret (stack_value fr)
  | from_a => fr <- read_stack stack ; ret (stack_a fr)
  | from_b => fr <- read_stack stack ; ret (stack_b fr)
  | from_value store => ret store
  | from_store id => c <- reg_lookup graph id ; readRef c
  end.

(** The destination of a [mov] step. *)
Definition mov_to (graph : Graph) (stack : StackRef) (to : MovTo) (value : Value)
  : M unit :=
  match to with
  | to_stack => write_stack stack (with_value value)
  | to_a => write_stack stack (with_a value)
  | to_b => write_stack stack (with_b value)
  | to_store id =>
      c <- reg_lookup graph id ;
      modify (λ s, set_cells (<[c := value]> (cells s)) s)
  end.

(** How one step of the [switch] ends: by [break], with the flags of
    [local] as they are then, or by [continue mem]. *)
Inductive StepOutcome :=
| Break (local : Local)
| ContinueMem.

(** The [compute] case: [stack.value = tryRun(local, data, stack)]. *)
Definition exec_compute (stack : StackRef) (fn : UserFn) (local : Local)
  : M StepOutcome :=
  ' (r, local') <- tryRun local fn stack ;
  _ <- write_stack stack (with_value r) ;
  ret (Break local').

(** One step of the layer [{idx, stack, type}] of graph [graph], at
    position [stepn]. *)
Definition exec_step (idx : nat) (stack : StackRef) (type : PriorityTag)
    (graph : Graph) (stepn : nat) (step : Step) (local : Local) : M StepOutcome :=
  match step with
  | step_barrier id priority =>
      if negb (stepn =? idx) || negb (bool_decide (type = priority)) then
        registered <- gets (λ s, bool_decide (id ∈ barriers s)) ;
        _ <- (if registered then ret tt
              else
                _ <- modify (λ s, set_barriers ({[id]} ∪ barriers s) s) ;
                pushHeap stepn stack priority id) ;
        ret ContinueMem
      else
        _ <- modify (λ s, set_barriers (barriers s ∖ {[id]}) s) ;
        ret (Break local)
  | step_mov from to =>
      value <- mov_from graph stack from ;
      _ <- mov_to graph stack to value ;
      ret (Break local)
  | step_check check_defined =>
      fr <- read_stack stack ;
      ret (Break (set_skip (strict_eq (stack_value fr) VUndefined) local))
  | step_check (check_changed id) =>
      fr <- read_stack stack ;
      c <- reg_lookup graph id ;
      v <- readRef c ;
      ret (Break (set_skip (strict_eq (stack_value fr) v) local))
  | step_filter fn =>
      ' (r, local') <- tryRun local fn stack ;
      ret (Break (set_skip (negb (truthy r)) local'))
  | step_run fn =>
      if negb (stepn =? idx) || negb (bool_decide (type = effect)) then
        _ <- pushHeap stepn stack effect 0 ;
        ret ContinueMem
      else exec_compute stack fn local
  | step_compute fn => exec_compute stack fn local
  end.

(** How the [for] loop over the steps ends: by [continue mem], or by its
    condition, with the value [meta.stop] has then. *)
Inductive LoopOutcome :=
| Requeued
| Finished (stop : bool).

(** The loop
    [for (stepn = idx; stepn < graph.seq.length && !meta.stop; stepn++)],
    from position [stepn] on; [steps] are the steps from there. *)
Fixpoint run_steps (idx : nat) (stack : StackRef) (type : PriorityTag)
    (graph : Graph) (steps : list Step) (stepn : nat) (local : Local) (stop : bool)
  : M LoopOutcome :=
  match steps with
  | [] => ret (Finished stop)
  | step :: rest =>
      if stop then ret (Finished stop)
      else
        o <- exec_step idx stack type graph stepn step local ;
        match o with
        | ContinueMem => ret Requeued
        | Break local' =>
            run_steps idx stack type graph rest (S stepn) local'
                      (local_fail local' || local_skip local')
        end
  end.

(** The loop over [graph.next]:
    [pushFirstHeapItem('child', graph.next[stepn], stack, stack.value)]. *)
Fixpoint fan_out (children : list GraphRef) (stack : StackRef) : M unit :=
  match children with
  | [] => ret tt
  | node :: rest =>
      fr <- read_stack stack ;
      _ <- pushFirstHeapItem child node (Some stack) (stack_value fr) ;
      fan_out rest stack
  end.

(** The body of the [mem: while] loop for the dequeued layer [value]. *)
Definition exec_layer (value : Layer) : M unit :=
  let idx := layer_idx value in
  let stack := layer_stack value in
  let type := layer_type value in
  fr <- read_stack stack ;
  let graph := graph_at (stack_node fr) in
  let local := {| local_skip := false; local_fail := false;
                  local_ref := ""; local_scope := graph_scope graph |} in
  o <- run_steps idx stack type graph (drop idx (graph_seq graph)) idx local false ;
  match o with
  | Requeued => ret tt
  | Finished stop =>
      if stop then ret tt else fan_out (graph_next graph) stack
  end.

(** The loop [mem: while ((value = deleteMin()))], given [n] iterations. *)
Fixpoint drain (n : nat) : M unit :=
  match n with
  | 0 => λ _, OutOfFuel
  | S n' =>
      value <- deleteMin ;
      match value with
      | None => ret tt
      | Some layer => _ <- exec_layer layer ; drain n'
      end
  end.

End Interpreter.

(** The first part of [launch]: a descriptor is unpacked. *)
Definition unpack (u : Graphite) (payload : Value) (upsert : bool)
  : Target * Value * bool :=
  match u with
  | GDescriptor target params defer => (target, params, defer)
  | GTarget t => (t, payload, upsert)
  end.

(** The loop of [launch] over an array of units, from index [i] on. *)
Fixpoint seed_array (units : list Unit) (i : nat) (payload : Value) : M unit :=
  match units with
  | [] => ret tt
  | u :: rest =>
      v <- js_index payload i ;
      _ <- pushFirstHeapItem pure (getGraph u) None v ;
      seed_array rest (S i) payload
  end.

(** The second part of [launch]: the layers are seeded. *)
Definition seed (target : Target) (payload : Value) : M unit :=
  match target with
  | TArray units => seed_array units 0 payload
  | TUnit u => pushFirstHeapItem pure (getGraph u) None payload
  end.

(** [launch(unit, payload, upsert)], with [exec] as a parameter. *)
Definition launch_with (exec : M unit) (u : Graphite) (payload : Value)
    (upsert : bool) : M unit :=
  let '(target, payload', upsert') := unpack u payload upsert in
  _ <- seed target payload' ;
  started <- gets alreadyStarted ;
  if upsert' && started then ret tt else exec.

(** [exec()].  The drain need not end (a user function may launch its own
    node again, for one); [fuel] bounds the iterations of the loop and the
    depth of the re-entrant calls. *)
Fixpoint exec (fuel : nat) : M unit :=
  match fuel with
  | 0 => λ _, OutOfFuel
  | S n =>
      lastStartedState <- gets alreadyStarted ;
      _ <- modify (set_alreadyStarted true) ;
      _ <- drain (launch_with (exec n)) n ;
      modify (set_alreadyStarted lastStartedState)
  end.

Definition launch (fuel : nat) : Graphite → Value → bool → M unit :=
  launch_with (exec fuel).

End Kernel.

(** ** Observing the queue *)

(** The layers held in a heap, root first. *)
Fixpoint heap_layers (h : Heap) : list Layer :=
  match h with
  | HNull => []
  | HNode v l r => v :: heap_layers l ++ heap_layers r
  end.

(** The layers of the first [n] items of the linked list that starts at
    [p], following [right]. *)
Fixpoint walk (m : gmap ItemRef QueueItem) (p : option ItemRef) (n : nat)
  : list Layer :=
  match n, p with
  | S n', Some a =>
      match m !! a with
      | Some it => item_value it :: walk m (item_right it) n'
      | None => []
      end
  | _, _ => []
  end.

(** The layers held in the linked list of bucket [i], oldest first. *)
Definition bucket_layers (s : State) (i : nat) : list Layer :=
  match queue s !! i with
  | Some b => walk (items s) (bucket_first b) (bucket_size b)
  | None => []
  end.

(** All the layers that are queued. *)
Definition queue_layers (s : State) : list Layer :=
  bucket_layers s 0 ++ bucket_layers s 1 ++ heap_layers (heap s)
  ++ bucket_layers s 4.

(** A client of the queue: a sequence of [pushHeap] and [deleteMin]
    calls. *)
Inductive QueueOp :=
| OpPush (idx : nat) (stack : StackRef) (type : PriorityTag) (id : Z)
| OpPop.

(** Runs the calls in order and collects the layers that the [deleteMin]
    calls return, in the order they are returned. *)
Fixpoint run_ops (ops : list QueueOp) : M (list Layer) :=
  match ops with
  | [] => ret []
  | OpPush idx stack type id :: rest =>
      _ <- pushHeap idx stack type id ; run_ops rest
  | OpPop :: rest =>
      value <- deleteMin ;
      popped <- run_ops rest ;
      ret (match value with Some l => l :: popped | None => popped end)
  end.


(** The order of the shared heap: layers of the same type by [id],
    [barrier] before [sampler]. *)
Definition heap_before (a b : Layer) : Prop :=
  (layer_type a = layer_type b ∧ (layer_id a < layer_id b)%Z)
  ∨ (layer_type a = barrier ∧ layer_type b = sampler).

(** ** Invariants of the queue *)

(** Only [barrier] and [sampler] layers go to the shared heap. *)
Definition heap_type (t : PriorityTag) : Prop := t = barrier ∨ t = sampler.

(** [a] is not after [b] in the order of the heap. *)
Definition layer_le (a b : Layer) : Prop :=
  (layer_type a = layer_type b ∧ (layer_id a ≤ layer_id b)%Z)
  ∨ (layer_type a = barrier ∧ layer_type b = sampler).

(** Every node is not after the nodes below it. *)
Fixpoint heap_ordered (h : Heap) : Prop :=
  match h with
  | HNull => True
  | HNode v l r =>
      Forall (layer_le v) (heap_layers l) ∧ Forall (layer_le v) (heap_layers r)
      ∧ heap_ordered l ∧ heap_ordered r
  end.

(** The linked list that starts at [p] consists of the items at the
    addresses [cs.*1], in this order, which hold the layers [cs.*2], and
    ends with [null]. *)
Fixpoint chain (m : gmap ItemRef QueueItem) (p : option ItemRef)
    (cs : list (ItemRef * Layer)) : Prop :=
  match cs with
  | [] => p = None
  | c :: rest =>
      p = Some c.1
      ∧ ∃ r, m !! c.1 = Some {| item_right := r; item_value := c.2 |}
             ∧ chain m r rest
  end.

(** The buckets that are linked lists. *)
Definition fifo_index (i : nat) : Prop := i = 0 ∨ i = 1 ∨ i = 4.

(** The representation invariant of the queue: bucket [i] of the three
    linked-list buckets is the list [f i] of items, [last] points to its
    last item and [size] is its length; the lists hold layers of their
    own priority at distinct addresses already allocated; the heap is
    ordered, holds [barrier] and [sampler] layers only, and the sizes of
    buckets 2 and 3 count them. *)
Record queue_rep (s : State) (f : nat → list (ItemRef * Layer)) : Prop := {
  rep_fifo : ∀ i, fifo_index i →
    ∃ b, queue s !! i = Some b
         ∧ bucket_size b = length (f i)
         ∧ chain (items s) (bucket_first b) (f i)
         ∧ bucket_last b = list.last ((f i).*1);
  rep_prio : ∀ i c, fifo_index i → c ∈ f i →
    getPriority (layer_type c.2) = i ∧ c.1 < next_item s;
  rep_nodup : ∀ i, fifo_index i → NoDup ((f i).*1);
  rep_disj : ∀ i j a, fifo_index i → fifo_index j → i ≠ j →
    a ∈ (f i).*1 → a ∉ (f j).*1;
  rep_heap_types : Forall (λ l, heap_type (layer_type l)) (heap_layers (heap s));
  rep_heap_ordered : heap_ordered (heap s);
  rep_barriers : ∃ b, queue s !! 2 = Some b
    ∧ bucket_size b
      = length (filter (λ l, layer_type l = barrier) (heap_layers (heap s)));
  rep_samplers : ∃ b, queue s !! 3 = Some b
    ∧ bucket_size b
      = length (filter (λ l, layer_type l = sampler) (heap_layers (heap s)));
}.

(** What [pushHeap] and [deleteMin] leave alone. *)
Definition same_outside_queue (s s' : State) : Prop :=
  stacks s' = stacks s ∧ next_stack s' = next_stack s ∧ cells s' = cells s
  ∧ barriers s' = barriers s ∧ alreadyStarted s' = alreadyStarted s
  ∧ console s' = console s.

(** The test of [merge] that decides whether [a] and [b] are swapped. *)
Definition merge_swaps (av bv : Layer) : bool :=
  let isSameType := bool_decide (layer_type av = layer_type bv) in
  (isSameType && (layer_id bv <? layer_id av)%Z)
  || (negb isSameType && bool_decide (layer_type av = sampler)).

(** [L1] is dequeued before [L2] whenever both are queued: its priority
    class comes first, or both are in the heap with the same type and
    [L1] has the smaller id. *)
Definition dequeues_first (L1 L2 : Layer) : Prop :=
  getPriority (layer_type L1) < getPriority (layer_type L2)
  ∨ (heap_type (layer_type L1) ∧ layer_type L1 = layer_type L2
     ∧ (layer_id L1 < layer_id L2)%Z).

(** ** Invariants of the state and reasoning about computations *)

(** The queue is well formed. *)
Definition queue_ok (s : State) : Prop := ∃ f, queue_rep s f.

(** The addresses from [next_stack] on are free. *)
Definition stacks_ok (s : State) : Prop :=
  ∀ a, next_stack s ≤ a → stacks s !! a = None.

(** [m], run in a state that satisfies [P], returns a value and a state
    that satisfy [Q], or throws in a state that satisfies [E]. *)
Definition triple {A} (P : State → Prop) (m : M A) (Q : A → State → Prop)
    (E : State → Prop) : Prop :=
  ∀ s, P s → match m s with
             | Val a s' => Q a s'
             | Exn _ s' => E s'
             | OutOfFuel => True
             end.

(** The stack frame that [pushFirstHeapItem] allocates. *)
Definition first_frame (node : GraphRef) (parent : option StackRef) (value : Value)
  : Stack :=
  {| stack_value := value; stack_a := VNull; stack_b := VNull;
     stack_parent := parent; stack_node := node |}.

(** The layer that [pushFirstHeapItem] pushes for the frame at [a]. *)
Definition first_layer (type : PriorityTag) (a : StackRef) : Layer :=
  {| layer_idx := 0; layer_stack := a; layer_type := type; layer_id := 0 |}.

(** Computations that keep an invariant, whether they return or throw. *)
Definition preserves {A} (I : State → Prop) (m : M A) : Prop :=
  triple I m (λ _, I) I.

(** [pushHeap] and everything built from it never writes [alreadyStarted]. *)
Definition keeps_started {A} (b : bool) (m : M A) : Prop :=
  preserves (λ s, alreadyStarted s = b) m.

(** ** Barriers in flight *)

(** A layer carries the barrier id [b] when it is a layer of the shared
    heap with that id: such layers are pushed by barrier steps only. *)
Definition carries (b : Z) (l : Layer) : bool :=
  match layer_type l with
  | barrier | sampler => (layer_id l =? b)%Z
  | _ => false
  end.


(** Whether, at the end of the history, a layer that carries [b] has
    been pushed and not yet dequeued. *)
Fixpoint pending (b : Z) (t : list Event) : bool :=
  match t with
  | [] => false
  | EvPush l :: t' => carries b l || pending b t'
  | EvPop l :: t' => negb (carries b l) && pending b t'
  end.

(** Every push of a layer that carries [b] happened when no such layer
    was pending. *)
Fixpoint pushed_when_free (b : Z) (t : list Event) : Prop :=
  match t with
  | [] => True
  | EvPush l :: t' => (carries b l = true → pending b t' = false) ∧ pushed_when_free b t'
  | EvPop _ :: t' => pushed_when_free b t'
  end.

(** The ids of the layers in the shared heap. *)
Definition heap_ids (s : State) : list Z := layer_id <$> heap_layers (heap s).

Section KernelInvariant.

Variable graph_at : GraphRef → Graph.

(** The frame at address [st] belongs to the graph at [g]. *)
Definition frame_node (s : State) (st : StackRef) (g : GraphRef) : Prop :=
  ∃ fr, stacks s !! st = Some fr ∧ stack_node fr = g.

(** The layer [l] resumes its graph at the barrier step that pushed it. *)
Definition barrier_layer (s : State) (l : Layer) : Prop :=
  ∃ g, frame_node s (layer_stack l) g
       ∧ graph_seq (graph_at g) !! layer_idx l
         = Some (step_barrier (layer_id l) (layer_type l)).

(** The invariant of the kernel between two steps.  [inflight] is the id
    of the heap layer that has just been dequeued and whose barrier step
    has not yet removed it from the registry, if any. *)
Record kernel_inv (inflight : option Z) (s : State) : Prop := {
  inv_queue : queue_ok s;
  inv_stacks : stacks_ok s;
  inv_layers : ∀ l, l ∈ heap_layers (heap s) → barrier_layer s l;
  inv_nodup : NoDup (heap_ids s);
  inv_registry : ∀ b, b ∈ barriers s ↔ (b ∈ heap_ids s ∨ inflight = Some b);
  inv_inflight : ∀ b, inflight = Some b → b ∉ heap_ids s;
  inv_trace : ∀ b, pushed_when_free b (trace s)
                   ∧ (pending b (trace s) = true ↔ b ∈ heap_ids s);
}.

(** The invariant together with a set [F] of frames known to exist. *)
Definition kernel_ok (F : StackRef → GraphRef → Prop) (s : State) : Prop :=
  kernel_inv None s ∧ ∀ st g, F st g → frame_node s st g.

(** What holds of the state in which a dequeued layer starts to run. *)
Definition layer_ready (F : StackRef → GraphRef → Prop) (v : Layer) (s : State) : Prop :=
  (∀ st g, F st g → frame_node s st g)
  ∧ ((¬ heap_type (layer_type v) ∧ kernel_inv None s)
     ∨ (heap_type (layer_type v) ∧ kernel_inv (Some (layer_id v)) s
        ∧ barrier_layer s v)).

(** Barrier steps name the [barrier] or the [sampler] class. *)
Definition barriers_to_heap : Prop :=
  ∀ g i b p, graph_seq (graph_at g) !! i = Some (step_barrier b p) → heap_type p.

End KernelInvariant.

(** A sequence of [launch] calls made from outside any drain; a call
    that throws is abandoned and the next one is made. *)
Fixpoint run_launches (graph_at : GraphRef → Graph) (getGraph : Unit → GraphRef)
    (fuel : nat) (calls : list (Graphite * Value * bool)) (s : State) : option State :=
  match calls with
  | [] => Some s
  | (u, payload, upsert) :: rest =>
      match launch graph_at getGraph fuel u payload upsert s with
      | Val _ s' | Exn _ s' => run_launches graph_at getGraph fuel rest s'
      | OutOfFuel => None
      end
  end.

(** ** Example graphs *)

Module Examples.

(** Units are taken to be their own graphs. *)
Definition getGraph (u : Unit) : GraphRef := u.

(** [x => x + 1] *)
Definition fn_incr : UserFn :=
  λ v _ _, FnReturn (match v with VNum n => VNum (n + 1) | _ => VNum 1 end).

(** [() => { throw 'boom' }] *)
Definition fn_throw : UserFn := λ _ _ _, FnThrow (VStr "boom").

(** [x => { launch(unit3, x, upsert); return x }] *)
Definition fn_launch (upsert : bool) : UserFn :=
  λ v _ _, FnLaunch (GTarget (TUnit 3)) v upsert (FnReturn v).

Definition empty_graph : Graph :=
  {| graph_seq := []; graph_next := []; graph_reg := ∅; graph_scope := VNull |}.

(** Graph 0: a combine-style node: a barrier, then a counter of its own
    firings kept in the ref cell ["n"].
    Graph 1: a sample-style node, a barrier of [sampler] priority, with
    graph 0 as its child.
    Graph 2: a [compute] that throws, with graph 3 as its child.
    Graph 3: a [compute].
    Graphs 4 and 5: a [compute] that launches unit 3, without and with
    [upsert]. *)
Definition graph_at (r : GraphRef) : Graph :=
  match r with
  | 0 => {| graph_seq := [step_barrier 1 barrier;
                          step_mov (from_store "n") to_stack;
                          step_compute fn_incr;
                          step_mov from_stack (to_store "n")];
            graph_next := []; graph_reg := {["n" := 0]}; graph_scope := VNull |}
  | 1 => {| graph_seq := [step_barrier 2 sampler];
            graph_next := [0]; graph_reg := ∅; graph_scope := VNull |}
  | 2 => {| graph_seq := [step_compute fn_throw];
            graph_next := [3]; graph_reg := ∅; graph_scope := VNull |}
  | 3 => {| graph_seq := [step_compute fn_incr];
            graph_next := []; graph_reg := ∅; graph_scope := VNull |}
  | 4 => {| graph_seq := [step_compute (fn_launch false)];
            graph_next := []; graph_reg := ∅; graph_scope := VNull |}
  | 5 => {| graph_seq := [step_compute (fn_launch true)];
            graph_next := []; graph_reg := ∅; graph_scope := VNull |}
  | _ => empty_graph
  end.

(** The state in which the [compute] function of graph 4 is called when
    [launch(unit4, 1)] runs on the loaded module: the layer is seeded,
    [alreadyStarted] is set and the layer is dequeued. *)
Definition mid_drain : State :=
  match bind (seed getGraph (TUnit 4) (VNum 1))
             (λ _, bind (modify (set_alreadyStarted true)) (λ _, deleteMin))
             init_state
  with
  | Val _ s => s
  | _ => init_state
  end.

End Examples.

(** ** The queue as a collection of layers *)

(** All the layers that the calls push, in order. *)
Definition all_pushed (ops : list QueueOp) : list Layer :=
  omap (λ o, match o with
             | OpPush idx stack type id =>
                 Some {| layer_idx := idx; layer_stack := stack;
                         layer_type := type; layer_id := id |}
             | OpPop => None
             end) ops.

(** [a] may be dequeued before [b]: its class comes first, or both are of
    the same class and, in the heap, the id of [a] is not the greater. *)
Definition dequeue_le (a b : Layer) : Prop :=
  getPriority (layer_type a) < getPriority (layer_type b)
  ∨ (layer_type a = layer_type b
     ∧ (heap_type (layer_type a) → (layer_id a ≤ layer_id b)%Z)).

(** ** Well-formed states and graphs *)

(** Every queued layer has its stack frame. *)
Definition frames_ok (s : State) : Prop :=
  ∀ l, l ∈ queue_layers s → is_Some (stacks s !! layer_stack l).

(** The state of the kernel is well formed; [F] is a set of frames known
    to exist. *)
Definition sound (F : StackRef → Prop) (s : State) : Prop :=
  queue_ok s ∧ stacks_ok s ∧ frames_ok s ∧ ∀ st, F st → is_Some (stacks s !! st).

(** The ref cells that a step names are in the register of its graph. *)
Definition step_regs (graph : Graph) (step : Step) : Prop :=
  match step with
  | step_mov from to =>
      match from with
      | from_store id => is_Some (graph_reg graph !! id)
      | _ => True
      end
      ∧ match to with
        | to_store id => is_Some (graph_reg graph !! id)
        | _ => True
        end
  | step_check (check_changed id) => is_Some (graph_reg graph !! id)
  | _ => True
  end.

(** Every graph has in its register the ref cells that its steps name. *)
Definition regs_ok (graph_at : GraphRef → Graph) : Prop :=
  ∀ g, Forall (step_regs (graph_at g)) (graph_seq (graph_at g)).

(** The step sets [local.skip], for the frame [fr] and the register of
    [graph] in state [s]: a [check] that finds [stack.value] undefined or
    unchanged, or a [filter] whose function returns a falsy value. *)
Definition skips (graph : Graph) (scope : Value) (fr : Stack) (s : State)
    (step : Step) : Prop :=
  match step with
  | step_check check_defined => stack_value fr = VUndefined
  | step_check (check_changed id) =>
      ∃ c, graph_reg graph !! id = Some c
           ∧ strict_eq (stack_value fr) (default VUndefined (cells s !! c)) = true
  | step_filter fn =>
      ∃ v, fn (stack_value fr) scope fr = FnReturn v ∧ truthy v = false
  | _ => False
  end.

(** ** The bound on the iterations *)

(** [m'] gives the result of [m] wherever [m] gives one within its bound. *)
Definition extends {A} (m m' : M A) : Prop :=
  ∀ s, m s = OutOfFuel ∨ m' s = m s.

(** ** Graphs with faults *)

Module Faults.

(** Graph 0 reads a ref cell that is not in its register.
    Graph 1 stores the value it receives in the cell of ["n"], cell 0. *)
Definition graph_at (r : GraphRef) : Graph :=
  match r with
  | 0 => {| graph_seq := [step_mov (from_store "x") to_stack];
            graph_next := []; graph_reg := ∅; graph_scope := VNull |}
  | 1 => {| graph_seq := [step_mov from_stack (to_store "n")];
            graph_next := []; graph_reg := {["n" := 0]}; graph_scope := VNull |}
  | _ => Examples.empty_graph
  end.

End Faults.

(** ** Termination *)

(** [m], run in a state that satisfies [P], returns a value and a state
    that satisfy [Q] or throws; it does so within its bound. *)
Definition total {A} (P : State → Prop) (m : M A) (Q : A → State → Prop) : Prop :=
  ∀ s, P s → match m s with
             | Val a s' => Q a s'
             | Exn _ _ => True
             | OutOfFuel => False
             end.

(** The function of a step that calls one. *)
Definition step_fn (step : Step) : option UserFn :=
  match step with
  | step_filter fn | step_run fn | step_compute fn => Some fn
  | _ => None
  end.

(** A run of a user function that does not call [launch]. *)
Definition no_launch (b : FnBody) : Prop :=
  match b with
  | FnLaunch _ _ _ _ => False
  | _ => True
  end.

(** No function of any graph calls [launch]. *)
Definition pure_fns (graph_at : GraphRef → Graph) : Prop :=
  ∀ g step fn v scope fr,
    step ∈ graph_seq (graph_at g) → step_fn step = Some fn →
    no_launch (fn v scope fr).

(** The graphs form no cycle through [next]: [rank] decreases from a
    graph to its children. *)
Definition acyclic (graph_at : GraphRef → Graph) (rank : GraphRef → nat) : Prop :=
  ∀ g c, c ∈ graph_next (graph_at g) → rank c < rank g.

(** Whether a layer of type [t] that starts at the step [idx] is stopped
    there and queued again: at a [barrier] step of another class, at a
    [run] step when it is not an [effect] layer. *)
Definition gate (graph : Graph) (idx : nat) (t : PriorityTag) : nat :=
  match graph_seq graph !! idx with
  | Some (step_barrier _ p) => if bool_decide (t = p) then 0 else 1
  | Some (step_run _) => if bool_decide (t = effect) then 0 else 1
  | _ => 0
  end.

Section Potential.

Variable graph_at : GraphRef → Graph.
Variable rank : GraphRef → nat.

(** A bound on the iterations of the drain loop that a new layer of
    graph [g] causes, for graphs of rank below [k]. *)
Fixpoint cost (k : nat) (g : GraphRef) : nat :=
  match k with
  | 0 => 0
  | S k' =>
      2 * length (graph_seq (graph_at g)) + 2
      + sum_list_with (cost k') (graph_next (graph_at g))
  end.

(** The same for a layer of type [t] that starts at step [idx] of [g]. *)
Definition layer_weight (g : GraphRef) (idx : nat) (t : PriorityTag) : nat :=
  2 * (length (graph_seq (graph_at g)) - idx) + gate (graph_at g) idx t + 1
  + sum_list_with (cost (rank g)) (graph_next (graph_at g)).

(** The weight of a queued layer, through the graph of its frame. *)
Definition weight (s : State) (l : Layer) : nat :=
  match stacks s !! layer_stack l with
  | Some fr => layer_weight (stack_node fr) (layer_idx l) (layer_type l)
  | None => 0
  end.

(** The weights of the queued layers. *)
Definition potential (s : State) : nat :=
  sum_list_with (weight s) (queue_layers s).

(** A well-formed state of potential at most [k], with a set [N] of
    frames known to exist and to belong to their graphs. *)
Definition measured (N : StackRef → GraphRef → Prop) (k : nat) (s : State) : Prop :=
  sound (λ st, ∃ g, N st g) s
  ∧ (∀ st g, N st g → frame_node s st g)
  ∧ potential s ≤ k.

(** What a layer of graph [g] that is queued again at step [stepn] or
    later weighs at most, when it is queued again while the layer of
    type [type] that started at [idx] runs. *)
Definition requeue_bound (g : GraphRef) (idx : nat) (type : PriorityTag) (stepn : nat)
  : nat :=
  2 * (length (graph_seq (graph_at g)) - stepn)
  + (if decide (stepn = idx) then gate (graph_at g) idx type else 1)
  + sum_list_with (cost (rank g)) (graph_next (graph_at g)).

End Potential.

(** ** A tree of graphs *)

Module Tree.

(** [x => x] *)
Definition fn_id : UserFn := λ v _ _, FnReturn v.

(** Graph 0 computes and delivers to graphs 1 and 2; graph 1 waits at a
    barrier, graph 2 filters and then runs an effect that throws; both
    deliver to graph 3, which checks that its value is defined. *)
Definition graph_at (r : GraphRef) : Graph :=
  match r with
  | 0 => {| graph_seq := [step_compute Examples.fn_incr];
            graph_next := [1; 2]; graph_reg := ∅; graph_scope := VNull |}
  | 1 => {| graph_seq := [step_barrier 1 barrier; step_compute Examples.fn_incr];
            graph_next := [3]; graph_reg := ∅; graph_scope := VNull |}
  | 2 => {| graph_seq := [step_filter fn_id; step_run Examples.fn_throw];
            graph_next := [3]; graph_reg := ∅; graph_scope := VNull |}
  | 3 => {| graph_seq := [step_check check_defined];
            graph_next := []; graph_reg := ∅; graph_scope := VNull |}
  | _ => Examples.empty_graph
  end.

Definition rank (r : GraphRef) : nat := 3 - r.

End Tree.

(* ===================================================================== *)
(** * Part II. Properties                                                  *)
(* ===================================================================== *)

(** ** The id generators *)

Module RefcountFacts.
Import Refcount.

Lemma digit_val_digit36 (d : N) : (d < 36)%N → digit_val (digit36 d) = Some d.
Proof.
  intros Hd. unfold digit_val, digit36.
  destruct (N.ltb_spec d 10) as [Hlt | Hge].
  - rewrite N_ascii_embedding by lia.
    replace ((48 <=? 48 + d)%N) with true by (symmetry; apply N.leb_le; lia).
    replace ((48 + d <=? 57)%N) with true by (symmetry; apply N.leb_le; lia).
    simpl. f_equal. lia.
  - rewrite N_ascii_embedding by lia.
    replace ((87 + d <=? 57)%N) with false by (symmetry; apply N.leb_gt; lia).
    rewrite andb_false_r.
    replace ((97 <=? 87 + d)%N) with true by (symmetry; apply N.leb_le; lia).
    replace ((87 + d <=? 122)%N) with true by (symmetry; apply N.leb_le; lia).
    simpl. f_equal. lia.
Qed.

(** Reading the numeral of [n], written in front of [rest], leaves [n] in
    the accumulator. *)
Lemma value36_toString36_aux (fuel : nat) :
  ∀ (n : N) (rest : string),
    N.to_nat n < fuel →
    value36_from 0 (toString36_aux fuel n rest) = value36_from n rest.
Proof.
  induction fuel as [| fuel IH]; intros n rest Hfuel; [lia |].
  cbn [toString36_aux].
  assert (Hmod : (n mod 36 < 36)%N) by (apply N.mod_lt; lia).
  pose proof (N.div_mod n 36 ltac:(lia)) as Hdm.
  destruct (N.eqb_spec (n / 36) 0) as [Hz | Hnz].
  - cbn [value36_from]. rewrite digit_val_digit36 by exact Hmod.
    f_equal. lia.
  - rewrite IH.
    + cbn [value36_from]. rewrite digit_val_digit36 by exact Hmod.
      f_equal. lia.
    + assert (n ≠ 0%N) by (intros ->; apply Hnz; reflexivity).
      assert (n / 36 < n)%N by (apply N.div_lt; lia). lia.
Qed.

Lemma value36_toString36 (n : N) : value36 (toString36 n) = Some n.
Proof.
  unfold value36, toString36. rewrite value36_toString36_aux by lia. reflexivity.
Qed.

Lemma toString36_inj (m n : N) : toString36 m = toString36 n → m = n.
Proof.
  intros H. apply (f_equal value36) in H.
  rewrite !value36_toString36 in H. congruence.
Qed.

Lemma counter_call_same (k : Gen) (g : Generators) :
  call k g = (toString36 (N.succ (counter k g)), (call k g).2)
  ∧ counter k (call k g).2 = N.succ (counter k g).
Proof. destruct k; split; reflexivity. Qed.

Lemma counter_call_other (k k' : Gen) (g : Generators) :
  k ≠ k' → counter k (call k' g).2 = counter k g.
Proof. destruct k, k'; intros H; try reflexivity; congruence. Qed.

Lemma calls_to_cons (k k' : Gen) (ks : list Gen) :
  calls_to k (k' :: ks) = (if decide (k' = k) then 1 else 0) + calls_to k ks.
Proof.
  unfold calls_to. rewrite filter_cons. destruct (decide (k' = k)); reflexivity.
Qed.

(** The [i]-th call, when it is to generator [k], returns the numeral of
    that generator's counter plus the number of calls to [k] so far. *)
Lemma run_calls_lookup (ks : list Gen) :
  ∀ (g : Generators) (i : nat) (k : Gen),
    ks !! i = Some k →
    run_calls ks g !! i
    = Some (toString36 (counter k g + N.of_nat (calls_to k (take (S i) ks)))).
Proof.
  induction ks as [| k' ks IH]; intros g i k Hi; [discriminate |].
  cbn [run_calls]. destruct (call k' g) as [r g'] eqn:Hcall.
  destruct i as [| i].
  - simpl in Hi. injection Hi as ->.
    destruct (counter_call_same k g) as [Hr _]. rewrite Hcall in Hr.
    injection Hr as Hr. simpl. rewrite Hr. do 2 f_equal.
    rewrite take_0, calls_to_cons. rewrite decide_True by reflexivity.
    unfold calls_to. simpl. lia.
  - simpl in Hi.
    change ((r :: run_calls ks g') !! S i) with (run_calls ks g' !! i).
    rewrite (IH g' i k Hi). do 2 f_equal.
    replace (take (S (S i)) (k' :: ks)) with (k' :: take (S i) ks) by reflexivity.
    rewrite calls_to_cons.
    destruct (decide (k' = k)) as [-> | Hne].
    + destruct (counter_call_same k g) as [_ Hc]. rewrite Hcall in Hc.
      simpl in Hc. rewrite Hc. lia.
    + pose proof (counter_call_other k k' g ltac:(congruence)) as Hc.
      rewrite Hcall in Hc. simpl in Hc. rewrite Hc. lia.
Qed.

Lemma calls_to_take_lt (ks : list Gen) (k : Gen) (i j : nat) :
  j < i → ks !! i = Some k →
  calls_to k (take (S j) ks) < calls_to k (take (S i) ks).
Proof.
  intros Hji Hi.
  assert (Hsplit : take (S i) ks = take (S j) ks ++ drop (S j) (take (S i) ks)).
  { rewrite <- (take_drop (S j) (take (S i) ks)) at 1.
    rewrite take_take. f_equal. f_equal. lia. }
  rewrite Hsplit. unfold calls_to. rewrite filter_app, length_app.
  assert (Hin : k ∈ drop (S j) (take (S i) ks)).
  { apply list_elem_of_lookup. exists (i - S j).
    rewrite lookup_drop, lookup_take_lt by lia.
    replace (S j + (i - S j)) with i by lia. exact Hi. }
  assert (Hf : k ∈ filter (λ k', k' = k) (drop (S j) (take (S i) ks))).
  { apply list_elem_of_filter. split; [reflexivity | exact Hin]. }
  destruct (filter (λ k', k' = k) (drop (S j) (take (S i) ks))) as [| x l] eqn:E.
  - inversion Hf.
  - simpl. lia.
Qed.

(** What generator [k] returns does not depend on the calls made to the
    other generator: its ids are those of a run in which only the calls
    to [k] are made, from any state with the same counter for [k]. *)
Lemma run_calls_only (k : Gen) (ks : list Gen) :
  ∀ g g', counter k g = counter k g' →
          ids_of k ks (run_calls ks g) = run_calls (filter (λ k', k' = k) ks) g'.
Proof.
  induction ks as [| k' ks IH]; intros g g' Hc; [reflexivity |].
  cbn [run_calls]. destruct (call k' g) as [r g1] eqn:Hcall.
  unfold ids_of. cbn [zip zip_with]. rewrite !filter_cons. cbn [fst].
  destruct (decide (k' = k)) as [-> | Hne].
  - cbn [run_calls fmap list_fmap snd]. destruct (call k g') as [r' g1'] eqn:Hcall'.
    destruct (counter_call_same k g) as [Hr Hc1]. rewrite Hcall in Hr, Hc1.
    destruct (counter_call_same k g') as [Hr' Hc1']. rewrite Hcall' in Hr', Hc1'.
    injection Hr as ->. injection Hr' as ->. simpl in Hc1, Hc1'.
    rewrite Hc. f_equal. apply IH. congruence.
  - apply IH. pose proof (counter_call_other k k' g ltac:(congruence)) as Hc1.
    rewrite Hcall in Hc1. simpl in Hc1. congruence.
Qed.

(** C9. [nextUnitID] and [nextStepID] are two independent generators: in
    any interleaving of calls started from the loaded module, the call at
    position [i], if it is the [n]-th call to its generator, returns the
    base-36 numeral of [n] (a numeral that reads back as [n]); it differs
    from every id the same generator returned before; and the ids of a
    generator are the ones it returns when no call is made to the other
    one. *)
Theorem generators_independent_fresh (ks : list Gen) (i : nat) (k : Gen) :
  ks !! i = Some k →
  let n := N.of_nat (calls_to k (take (S i) ks)) in
  let ids := run_calls ks generators_init in
  ids !! i = Some (toString36 n)
  ∧ value36 (toString36 n) = Some n
  ∧ (∀ j, j < i → ks !! j = Some k → ids !! j ≠ ids !! i)
  ∧ ids_of k ks ids = run_calls (filter (λ k', k' = k) ks) generators_init.
Proof.
  intros Hi n ids. subst n ids. split; [| split; [| split]].
  - rewrite (run_calls_lookup ks generators_init i k Hi).
    destruct k; reflexivity.
  - apply value36_toString36.
  - intros j Hji Hj.
    rewrite (run_calls_lookup ks generators_init i k Hi).
    rewrite (run_calls_lookup ks generators_init j k Hj).
    intros Heq. injection Heq as Heq. apply toString36_inj in Heq.
    pose proof (calls_to_take_lt ks k i j Hji Hi). lia.
  - apply run_calls_only. reflexivity.
Qed.

(** Five interleaved calls: the third call to [nextUnitID] returns ["3"]
    although two calls to [nextStepID] came in between. *)
Lemma generators_independent_fresh_witness :
  let ks := [UnitGen; StepGen; UnitGen; StepGen; UnitGen] in
  ks !! 4 = Some UnitGen
  ∧ run_calls ks generators_init !! 4 = Some "3"
  ∧ value36 "3" = Some 3%N
  ∧ (∀ j, j < 4 → ks !! j = Some UnitGen →
          run_calls ks generators_init !! j ≠ run_calls ks generators_init !! 4)
  ∧ ids_of UnitGen ks (run_calls ks generators_init) = ["1"; "2"; "3"].
Proof.
  split; [reflexivity |].
  exact (generators_independent_fresh
           [UnitGen; StepGen; UnitGen; StepGen; UnitGen] 4 UnitGen eq_refl).
Defined.

End RefcountFacts.

(** ** The skew heap *)

Lemma layer_le_refl (a : Layer) : layer_le a a.
Proof. left. split; [reflexivity | lia]. Qed.

Lemma layer_le_trans (a b c : Layer) : layer_le a b → layer_le b c → layer_le a c.
Proof.
  unfold layer_le. intros [[Hab Hid] | [Ha Hb]] [[Hbc Hid'] | [Hb' Hc]].
  - left. split; [congruence | lia].
  - right. split; congruence.
  - right. split; congruence.
  - congruence.
Qed.

Lemma merge_swaps_false (av bv : Layer) :
  heap_type (layer_type av) → heap_type (layer_type bv) →
  merge_swaps av bv = false → layer_le av bv.
Proof.
  unfold merge_swaps, heap_type, layer_le. intros Ha Hb H.
  apply orb_false_iff in H as [H1 H2].
  destruct (decide (layer_type av = layer_type bv)) as [E | E].
  - rewrite bool_decide_eq_true_2 in H1 by exact E. simpl in H1.
    apply Z.ltb_ge in H1. left. split; [exact E | lia].
  - rewrite bool_decide_eq_false_2 in H2 by exact E. simpl in H2.
    apply bool_decide_eq_false in H2. right.
    destruct Ha as [Ha | Ha], Hb as [Hb | Hb]; try congruence; split; assumption.
Qed.

Lemma merge_swaps_true (av bv : Layer) :
  heap_type (layer_type av) → heap_type (layer_type bv) →
  merge_swaps av bv = true → layer_le bv av.
Proof.
  unfold merge_swaps, heap_type, layer_le. intros Ha Hb H.
  apply orb_true_iff in H as [H | H]; apply andb_true_iff in H as [H1 H2].
  - apply bool_decide_eq_true in H1. apply Z.ltb_lt in H2.
    left. split; [congruence | lia].
  - apply negb_true_iff, bool_decide_eq_false in H1.
    apply bool_decide_eq_true in H2. right.
    destruct Hb as [Hb | Hb]; [split; assumption | congruence].
Qed.

Lemma merge_fuel_unfold (n : nat) (av : Layer) (al ar : Heap) (bv : Layer) (bl br : Heap) :
  merge_fuel (S n) (HNode av al ar) (HNode bv bl br)
  = if merge_swaps av bv
    then HNode bv (merge_fuel n br (HNode av al ar)) bl
    else HNode av (merge_fuel n ar (HNode bv bl br)) al.
Proof. reflexivity. Qed.

(** Fuel beyond the sizes of the two heaps makes no difference. *)
Lemma merge_fuel_enough (n : nat) :
  ∀ m a b, heap_size a + heap_size b < n → heap_size a + heap_size b < m →
           merge_fuel n a b = merge_fuel m a b.
Proof.
  induction n as [| n IH]; intros m a b Hn Hm; [lia |].
  destruct m as [| m]; [lia |].
  destruct a as [| av al ar]; [reflexivity |].
  destruct b as [| bv bl br]; [reflexivity |].
  rewrite !merge_fuel_unfold. destruct (merge_swaps av bv).
  - f_equal. apply IH; simpl in *; lia.
  - f_equal. apply IH; simpl in *; lia.
Qed.

(** [merge] satisfies the recursive equation of the JavaScript function. *)
Lemma merge_eq (av : Layer) (al ar : Heap) (bv : Layer) (bl br : Heap) :
  merge (HNode av al ar) (HNode bv bl br)
  = if merge_swaps av bv
    then HNode bv (merge br (HNode av al ar)) bl
    else HNode av (merge ar (HNode bv bl br)) al.
Proof.
  unfold merge at 1. rewrite merge_fuel_unfold. destruct (merge_swaps av bv).
  - f_equal. unfold merge. apply merge_fuel_enough; simpl; lia.
  - f_equal. unfold merge. apply merge_fuel_enough; simpl; lia.
Qed.

(** With enough fuel, [merge_fuel] keeps exactly the layers of its two
    arguments. *)
Lemma merge_fuel_layers (n : nat) :
  ∀ a b, heap_size a + heap_size b < n →
         heap_layers (merge_fuel n a b) ≡ₚ heap_layers a ++ heap_layers b.
Proof.
  induction n as [| n IH]; intros a b Hn; [lia |].
  destruct a as [| av al ar]; [reflexivity |].
  destruct b as [| bv bl br].
  { simpl. rewrite app_nil_r. reflexivity. }
  rewrite merge_fuel_unfold. destruct (merge_swaps av bv).
  - cbn [heap_layers]. rewrite IH by (simpl in *; lia).
    cbn [heap_layers]. solve_Permutation.
  - cbn [heap_layers]. rewrite IH by (simpl in *; lia).
    cbn [heap_layers]. solve_Permutation.
Qed.

Lemma merge_layers (a b : Heap) :
  heap_layers (merge a b) ≡ₚ heap_layers a ++ heap_layers b.
Proof. apply merge_fuel_layers. lia. Qed.

Lemma heap_ordered_root (v : Layer) (l r : Heap) :
  heap_ordered (HNode v l r) → Forall (layer_le v) (heap_layers (HNode v l r)).
Proof.
  intros (Hl & Hr & _ & _). cbn [heap_layers].
  apply Forall_cons. split; [apply layer_le_refl |].
  apply Forall_app. split; assumption.
Qed.

(** With enough fuel, [merge_fuel] of two ordered heaps is ordered. *)
Lemma merge_fuel_ordered (n : nat) :
  ∀ a b, heap_size a + heap_size b < n →
         Forall (λ l, heap_type (layer_type l)) (heap_layers a) →
         Forall (λ l, heap_type (layer_type l)) (heap_layers b) →
         heap_ordered a → heap_ordered b →
         heap_ordered (merge_fuel n a b).
Proof.
  induction n as [| n IH]; intros a b Hn Hta Htb Ha Hb; [lia |].
  destruct a as [| av al ar]; [exact Hb |].
  destruct b as [| bv bl br]; [exact Ha |].
  rewrite merge_fuel_unfold.
  pose proof (heap_ordered_root _ _ _ Ha) as Hra.
  pose proof (heap_ordered_root _ _ _ Hb) as Hrb.
  assert (Htav : heap_type (layer_type av)) by (inversion Hta; assumption).
  assert (Htbv : heap_type (layer_type bv)) by (inversion Htb; assumption).
  destruct Ha as (Hal & Har & Hol & Hor). destruct Hb as (Hbl & Hbr & Hobl & Hobr).
  cbn [heap_layers] in Hta, Htb.
  apply Forall_cons in Hta as [_ Hta]. apply Forall_app in Hta as [Htal Htar].
  apply Forall_cons in Htb as [_ Htb]. apply Forall_app in Htb as [Htbl Htbr].
  destruct (merge_swaps av bv) eqn:Hsw.
  - apply merge_swaps_true in Hsw; [| assumption ..].
    cbn [heap_ordered]. split; [| split; [| split]].
    + rewrite merge_fuel_layers by (simpl in *; lia).
      apply Forall_app. split; [assumption |].
      eapply Forall_impl; [exact Hra |]. intros x Hx.
      eapply layer_le_trans; eassumption.
    + assumption.
    + apply IH; try assumption.
      * simpl in *. lia.
      * cbn [heap_layers]. apply Forall_cons. split; [assumption |].
        apply Forall_app. split; assumption.
      * cbn [heap_ordered]. auto.
    + assumption.
  - apply merge_swaps_false in Hsw; [| assumption ..].
    cbn [heap_ordered]. split; [| split; [| split]].
    + rewrite merge_fuel_layers by (simpl in *; lia).
      apply Forall_app. split; [assumption |].
      eapply Forall_impl; [exact Hrb |]. intros x Hx.
      eapply layer_le_trans; eassumption.
    + assumption.
    + apply IH; try assumption.
      * simpl in *. lia.
      * cbn [heap_layers]. apply Forall_cons. split; [assumption |].
        apply Forall_app. split; assumption.
      * cbn [heap_ordered]. auto.
    + assumption.
Qed.

Lemma merge_ordered (a b : Heap) :
  Forall (λ l, heap_type (layer_type l)) (heap_layers a) →
  Forall (λ l, heap_type (layer_type l)) (heap_layers b) →
  heap_ordered a → heap_ordered b → heap_ordered (merge a b).
Proof. apply merge_fuel_ordered. lia. Qed.

(** Melding with the empty heap returns the other heap, on either side. *)
Lemma merge_null_l (b : Heap) : merge HNull b = b.
Proof. reflexivity. Qed.

Lemma merge_null_r (a : Heap) : merge a HNull = a.
Proof. destruct a; reflexivity. Qed.

(** In an ordered heap of [barrier] and [sampler] layers, the root is a
    [barrier] as soon as the heap holds one. *)
Lemma heap_root_barrier (v : Layer) (l r : Heap) (x : Layer) :
  heap_ordered (HNode v l r) →
  x ∈ heap_layers (HNode v l r) → layer_type x = barrier →
  heap_type (layer_type v) → layer_type v = barrier.
Proof.
  intros Ho Hx Hxb Hv.
  pose proof (heap_ordered_root _ _ _ Ho) as Hr.
  rewrite Forall_forall in Hr. destruct (Hr x Hx) as [[E _] | [E _]]; congruence.
Qed.

(** ** The linked lists *)

Lemma chain_frame (m : gmap ItemRef QueueItem) (a : ItemRef) (x : QueueItem)
    (cs : list (ItemRef * Layer)) :
  ∀ p, a ∉ cs.*1 → chain m p cs → chain (<[a := x]> m) p cs.
Proof.
  induction cs as [| c rest IH]; intros p Ha Hc; [exact Hc |].
  rewrite fmap_cons in Ha. apply not_elem_of_cons in Ha as [Hne Ha].
  destruct Hc as (-> & r & Hm & Hrest).
  split; [reflexivity |]. exists r. split; [| apply IH; assumption].
  rewrite lookup_insert_ne by congruence. exact Hm.
Qed.

(** Linking a new last item: the item at the old last address [l] gets
    [right = a], and the list is one item longer. *)
Lemma chain_snoc (m : gmap ItemRef QueueItem) (a : ItemRef) (v : Layer)
    (cs : list (ItemRef * Layer)) :
  ∀ p l it,
    chain m p cs → NoDup (cs.*1) → a ∉ cs.*1 →
    list.last (cs.*1) = Some l → m !! l = Some it →
    m !! a = Some {| item_right := None; item_value := v |} →
    chain (<[l := {| item_right := Some a; item_value := item_value it |}]> m)
          p (cs ++ [(a, v)]).
Proof.
  induction cs as [| c rest IH]; intros p l it Hc Hnd Ha Hl Hit Hma.
  { discriminate. }
  rewrite fmap_cons in Hnd, Ha, Hl.
  apply NoDup_cons in Hnd as [Hc1 Hnd].
  apply not_elem_of_cons in Ha as [Hne Ha].
  destruct Hc as (-> & r & Hm & Hrest).
  destruct rest as [| c' rest'].
  - simpl in Hl. injection Hl as <-. simpl in Hrest. subst r.
    rewrite Hm in Hit. injection Hit as <-. simpl.
    split; [reflexivity |]. exists (Some a). split.
    + rewrite lookup_insert_eq. reflexivity.
    + split; [reflexivity |]. exists None. split; [| reflexivity].
      rewrite lookup_insert_ne by congruence. exact Hma.
  - rewrite fmap_cons, last_cons_cons in Hl. rewrite <- fmap_cons in Hl.
    assert (Hlin : l ∈ (c' :: rest').*1).
    { apply last_Some in Hl as [l' ->]. apply elem_of_app. right. left. }
    assert (Hlc : l ≠ c.1) by (intros ->; contradiction).
    change ((c :: c' :: rest') ++ [(a, v)]) with (c :: ((c' :: rest') ++ [(a, v)])).
    split; [reflexivity |]. exists r. split.
    + rewrite lookup_insert_ne by congruence. exact Hm.
    + eapply IH; eassumption.
Qed.

Lemma walk_chain (m : gmap ItemRef QueueItem) (cs : list (ItemRef * Layer)) :
  ∀ p, chain m p cs → walk m p (length cs) = cs.*2.
Proof.
  induction cs as [| c rest IH]; intros p Hc; [reflexivity |].
  destruct Hc as (-> & r & Hm & Hrest).
  simpl. rewrite Hm. simpl. f_equal. apply IH. exact Hrest.
Qed.

(** ** The representation invariant *)

Lemma same_outside_queue_refl (s : State) : same_outside_queue s s.
Proof. repeat split. Qed.

Lemma same_outside_queue_trans (s1 s2 s3 : State) :
  same_outside_queue s1 s2 → same_outside_queue s2 s3 → same_outside_queue s1 s3.
Proof.
  unfold same_outside_queue. intros (?&?&?&?&?&?) (?&?&?&?&?&?).
  repeat split; congruence.
Qed.

Lemma queue_rep_init : queue_rep init_state (λ _, []).
Proof.
  split.
  - intros i [-> | [-> | ->]]; eexists; (split; [reflexivity |]);
      repeat split.
  - intros i c _ Hc. inversion Hc.
  - intros i _. constructor.
  - intros i j a _ _ _ Ha. inversion Ha.
  - constructor.
  - exact I.
  - eexists. split; reflexivity.
  - eexists. split; reflexivity.
Qed.

Lemma queue_rep_bucket_layers (s : State) (f : nat → list (ItemRef * Layer)) (i : nat) :
  queue_rep s f → fifo_index i → bucket_layers s i = (f i).*2.
Proof.
  intros Hrep Hi. destruct (rep_fifo _ _ Hrep i Hi) as (b & Hb & Hsz & Hch & _).
  unfold bucket_layers. rewrite Hb, Hsz. apply walk_chain. exact Hch.
Qed.

Lemma queue_rep_layers (s : State) (f : nat → list (ItemRef * Layer)) :
  queue_rep s f →
  queue_layers s = (f 0).*2 ++ (f 1).*2 ++ heap_layers (heap s) ++ (f 4).*2.
Proof.
  intros Hrep. unfold queue_layers.
  rewrite !(queue_rep_bucket_layers s f) by (assumption || (unfold fifo_index; auto)).
  reflexivity.
Qed.

Lemma fifo_index_cases (t : PriorityTag) :
  fifo_index (getPriority t) ∨ heap_type t.
Proof. destruct t; unfold fifo_index, heap_type; simpl; auto. Qed.

Lemma fifo_index_not_heap (t : PriorityTag) :
  fifo_index (getPriority t) → ¬ heap_type t.
Proof. destruct t; unfold fifo_index, heap_type; simpl; intros H [?|?]; try congruence; lia. Qed.

Lemma getPriority_inj (t t' : PriorityTag) : getPriority t = getPriority t' → t = t'.
Proof. destruct t, t'; simpl; congruence. Qed.

Lemma filter_type_snoc (t t' : PriorityTag) (ls : list Layer) (L : Layer) :
  layer_type L = t' →
  length (filter (λ l, layer_type l = t) (ls ++ [L]))
  = length (filter (λ l, layer_type l = t) ls) + (if decide (t' = t) then 1 else 0).
Proof.
  intros <-. rewrite filter_app, length_app. f_equal.
  rewrite filter_cons, filter_nil. destruct (decide (layer_type L = t)); reflexivity.
Qed.

Lemma pushHeap_heap (s : State) (f : nat → list (ItemRef * Layer))
    (idx : nat) (stack : StackRef) (t : PriorityTag) (id : Z) :
  queue_rep s f → heap_type t →
  let L := {| layer_idx := idx; layer_stack := stack; layer_type := t; layer_id := id |} in
  ∃ s', pushHeap idx stack t id s = Val tt s'
        ∧ same_outside_queue s s'
        ∧ trace s' = EvPush L :: trace s
        ∧ heap s' = merge (heap s) (HNode L HNull HNull)
        ∧ queue_rep s' f.
Proof.
  intros Hrep Ht L. subst L.
  destruct (rep_barriers _ _ Hrep) as (b2 & Hb2 & Hs2).
  destruct (rep_samplers _ _ Hrep) as (b3 & Hb3 & Hs3).
  assert (Hlayers : heap_layers (merge (heap s) (HNode {| layer_idx := idx; layer_stack := stack; layer_type := t; layer_id := id |} HNull HNull))
                    ≡ₚ heap_layers (heap s) ++ [{| layer_idx := idx; layer_stack := stack; layer_type := t; layer_id := id |}]).
  { rewrite merge_layers. reflexivity. }
  assert (Hord : heap_ordered (merge (heap s) (HNode {| layer_idx := idx; layer_stack := stack; layer_type := t; layer_id := id |} HNull HNull))).
  { apply merge_ordered.
    - apply (rep_heap_types _ _ Hrep).
    - apply Forall_singleton. exact Ht.
    - apply (rep_heap_ordered _ _ Hrep).
    - simpl. repeat split; constructor. }
  assert (Htypes : Forall (λ l, heap_type (layer_type l))
                     (heap_layers (merge (heap s) (HNode {| layer_idx := idx; layer_stack := stack; layer_type := t; layer_id := id |} HNull HNull)))).
  { rewrite Hlayers. apply Forall_app. split; [apply (rep_heap_types _ _ Hrep) |].
    apply Forall_singleton. exact Ht. }
  destruct Ht as [-> | ->].
  - unfold pushHeap, bind, get_bucket. simpl. rewrite Hb2. simpl.
    eexists. split; [reflexivity |]. split; [repeat split |].
    split; [reflexivity |]. split; [reflexivity |].
    split; simpl.
    + intros i Hi. destruct (rep_fifo _ _ Hrep i Hi) as (b & Hb & Hrest).
      exists b. split; [| exact Hrest].
      rewrite list_lookup_insert_ne by (destruct Hi as [-> | [-> | ->]]; lia). exact Hb.
    + apply (rep_prio _ _ Hrep).
    + apply (rep_nodup _ _ Hrep).
    + apply (rep_disj _ _ Hrep).
    + exact Htypes.
    + exact Hord.
    + eexists. split.
      * apply list_lookup_insert_eq. eapply lookup_lt_Some. exact Hb2.
      * simpl. rewrite Hlayers, (filter_type_snoc barrier barrier) by reflexivity.
        rewrite decide_True by reflexivity. lia.
    + exists b3. split.
      * rewrite list_lookup_insert_ne by lia. exact Hb3.
      * rewrite Hlayers, (filter_type_snoc sampler barrier) by reflexivity.
        rewrite decide_False by discriminate. lia.
  - unfold pushHeap, bind, get_bucket. simpl. rewrite Hb3. simpl.
    eexists. split; [reflexivity |]. split; [repeat split |].
    split; [reflexivity |]. split; [reflexivity |].
    split; simpl.
    + intros i Hi. destruct (rep_fifo _ _ Hrep i Hi) as (b & Hb & Hrest).
      exists b. split; [| exact Hrest].
      rewrite list_lookup_insert_ne by (destruct Hi as [-> | [-> | ->]]; lia). exact Hb.
    + apply (rep_prio _ _ Hrep).
    + apply (rep_nodup _ _ Hrep).
    + apply (rep_disj _ _ Hrep).
    + exact Htypes.
    + exact Hord.
    + exists b2. split.
      * rewrite list_lookup_insert_ne by lia. exact Hb2.
      * rewrite Hlayers, (filter_type_snoc barrier sampler) by reflexivity.
        rewrite decide_False by discriminate. lia.
    + eexists. split.
      * apply list_lookup_insert_eq. eapply lookup_lt_Some. exact Hb3.
      * simpl. rewrite Hlayers, (filter_type_snoc sampler sampler) by reflexivity.
        rewrite decide_True by reflexivity. lia.
Qed.

Lemma rep_chain_addr_lt (s : State) (f : nat → list (ItemRef * Layer)) (i : nat) :
  queue_rep s f → fifo_index i → next_item s ∉ (f i).*1.
Proof.
  intros Hrep Hi Hin. apply list_elem_of_fmap in Hin as (c & Hc1 & Hc).
  destruct (rep_prio _ _ Hrep i c Hi Hc) as [_ Hlt]. lia.
Qed.

(** The linked-list branch of [pushHeap] appends the new item to the list
    of its bucket and leaves the other lists as they are. *)
Lemma pushHeap_list_spec (s : State) (f : nat → list (ItemRef * Layer))
    (p : nat) (b : QueueBucket) (L : Layer) :
  queue_rep s f → fifo_index p → queue s !! p = Some b →
  ∃ b' m',
    pushHeap_list p b L s = Val b' (set_items m' (S (next_item s)) s)
    ∧ bucket_size b' = bucket_size b
    ∧ bucket_last b' = Some (next_item s)
    ∧ chain m' (bucket_first b') (f p ++ [(next_item s, L)])
    ∧ ∀ j bj, fifo_index j → j ≠ p → queue s !! j = Some bj →
              chain m' (bucket_first bj) (f j).
Proof.
  intros Hrep Hp Hb.
  destruct (rep_fifo _ _ Hrep p Hp) as (b0 & Hb0 & Hsz & Hch & Hlast).
  rewrite Hb in Hb0. injection Hb0 as <-.
  pose proof (rep_chain_addr_lt s f p Hrep Hp) as Hfresh.
  assert (Hothers : ∀ j bj, fifo_index j → queue s !! j = Some bj →
                            chain (items s) (bucket_first bj) (f j)).
  { intros j bj Hj Hbj. destruct (rep_fifo _ _ Hrep j Hj) as (b1 & Hb1 & _ & Hc & _).
    rewrite Hbj in Hb1. injection Hb1 as <-. exact Hc. }
  unfold pushHeap_list, bind, gets, modify. simpl.
  destruct (decide (f p = [])) as [Hfp | Hfp].
  - rewrite Hfp in *. simpl in Hsz. rewrite Hsz. simpl.
    eexists _, _. split; [reflexivity |]. simpl.
    split; [reflexivity |]. split; [reflexivity |]. split.
    + split; [reflexivity |]. exists None. split; [| reflexivity].
      apply lookup_insert_eq.
    + intros j bj Hj Hne Hbj. apply chain_frame.
      * apply (rep_chain_addr_lt s f j Hrep Hj).
      * apply Hothers; assumption.
  - assert (Hnz : (bucket_size b =? 0) = false).
    { apply Nat.eqb_neq. rewrite Hsz. destruct (f p); [congruence | simpl; lia]. }
    rewrite Hnz.
    assert (Hl : ∃ l, list.last ((f p).*1) = Some l).
    { destruct (list.last ((f p).*1)) eqn:E; [eauto |].
      apply last_None, fmap_nil_inv in E. contradiction. }
    destruct Hl as [l Hl]. rewrite Hlast, Hl.
    assert (Hlin : l ∈ (f p).*1).
    { apply last_Some in Hl as [l' ->]. apply elem_of_app. right. left. }
    assert (Hla : l ≠ next_item s) by (intros ->; contradiction).
    assert (Hit : ∃ it, items s !! l = Some it).
    { clear -Hch Hlin. revert Hch Hlin. generalize (bucket_first b).
      induction (f p) as [| c' cs' IH]; intros q Hch Hlin; [inversion Hlin |].
      destruct Hch as (-> & r & Hm & Hrest). rewrite fmap_cons in Hlin.
      apply elem_of_cons in Hlin as [-> | Hlin]; [eauto |]. eapply IH; eassumption. }
    destruct Hit as [it Hit].
    unfold get_item. simpl. rewrite lookup_insert_ne by congruence. rewrite Hit.
    eexists _, _. split; [reflexivity |]. simpl.
    split; [reflexivity |]. split; [reflexivity |]. split.
    + eapply chain_snoc.
      * apply chain_frame; [exact Hfresh | exact Hch].
      * apply (rep_nodup _ _ Hrep p Hp).
      * exact Hfresh.
      * exact Hl.
      * rewrite lookup_insert_ne by congruence. exact Hit.
      * apply lookup_insert_eq.
    + intros j bj Hj Hne Hbj. apply chain_frame.
      * apply (rep_disj _ _ Hrep p j l Hp Hj); [congruence | exact Hlin].
      * apply chain_frame; [apply (rep_chain_addr_lt s f j Hrep Hj) |].
        apply Hothers; assumption.
Qed.

Lemma pushHeap_fifo (s : State) (f : nat → list (ItemRef * Layer))
    (idx : nat) (stack : StackRef) (t : PriorityTag) (id : Z) :
  queue_rep s f → fifo_index (getPriority t) →
  let L := {| layer_idx := idx; layer_stack := stack; layer_type := t; layer_id := id |} in
  ∃ s', pushHeap idx stack t id s = Val tt s'
        ∧ same_outside_queue s s'
        ∧ trace s' = EvPush L :: trace s
        ∧ heap s' = heap s
        ∧ queue_rep s' (<[getPriority t := f (getPriority t) ++ [(next_item s, L)]]> f).
Proof.
  intros Hrep Hp L.
  destruct (rep_fifo _ _ Hrep _ Hp) as (b & Hb & Hsz & Hch & Hlast).
  assert (Hrep0 : queue_rep (set_trace (EvPush L :: trace s) s) f).
  { destruct Hrep. split; assumption. }
  destruct (pushHeap_list_spec _ f _ b L Hrep0 Hp Hb)
    as (b' & m' & Hrun & Hsz' & Hlast' & Hch' & Hoth).
  assert (Hcond : ((getPriority t =? 2) || (getPriority t =? 3)) = false).
  { destruct Hp as [-> | [-> | ->]]; reflexivity. }
  unfold pushHeap, bind, get_bucket, log_event, modify. rewrite Hb.
  cbn beta iota. rewrite Hcond. fold L. rewrite Hrun.
  unfold set_bucket, modify.
  eexists. split; [reflexivity |]. split; [repeat split |].
  split; [reflexivity |]. split; [reflexivity |].
  split; simpl.
  - intros i Hi. destruct (decide (i = getPriority t)) as [-> | Hne].
    + rewrite fn_lookup_insert. eexists. split.
      * apply list_lookup_insert_eq. eapply lookup_lt_Some. exact Hb.
      * simpl. split; [rewrite length_app, Hsz', Hsz; simpl; lia |].
        split; [exact Hch' |].
        rewrite fmap_app. cbn [fmap list_fmap fst]. rewrite last_snoc. exact Hlast'.
    + rewrite fn_lookup_insert_ne by congruence.
      destruct (rep_fifo _ _ Hrep i Hi) as (bi & Hbi & Hszi & Hchi & Hlasti).
      exists bi. split; [rewrite list_lookup_insert_ne by congruence; exact Hbi |].
      split; [exact Hszi |]. split; [| exact Hlasti].
      apply Hoth; assumption.
  - intros i c Hi Hc. destruct (decide (i = getPriority t)) as [-> | Hne].
    + rewrite fn_lookup_insert in Hc. apply elem_of_app in Hc as [Hc | Hc].
      * destruct (rep_prio _ _ Hrep _ c Hi Hc). split; [assumption | lia].
      * apply list_elem_of_singleton in Hc as ->. simpl. split; [reflexivity | lia].
    + rewrite fn_lookup_insert_ne in Hc by congruence.
      destruct (rep_prio _ _ Hrep _ c Hi Hc). split; [assumption | lia].
  - intros i Hi. destruct (decide (i = getPriority t)) as [-> | Hne].
    + rewrite fn_lookup_insert, fmap_app. apply NoDup_app. split; [| split].
      * apply (rep_nodup _ _ Hrep _ Hi).
      * intros a Ha Ha'. apply list_elem_of_singleton in Ha'. subst a.
        exact (rep_chain_addr_lt s f _ Hrep Hi Ha).
      * apply NoDup_singleton.
    + rewrite fn_lookup_insert_ne by congruence. apply (rep_nodup _ _ Hrep _ Hi).
  - intros i j a Hi Hj Hij Ha Ha'.
    destruct (decide (i = getPriority t)) as [-> | Hne];
      destruct (decide (j = getPriority t)) as [-> | Hne'].
    + congruence.
    + rewrite fn_lookup_insert in Ha. rewrite fn_lookup_insert_ne in Ha' by congruence.
      rewrite fmap_app in Ha. apply elem_of_app in Ha as [Ha | Ha].
      * exact (rep_disj _ _ Hrep _ j a Hi Hj Hij Ha Ha').
      * apply list_elem_of_singleton in Ha. subst a.
        exact (rep_chain_addr_lt s f _ Hrep Hj Ha').
    + rewrite fn_lookup_insert in Ha'. rewrite fn_lookup_insert_ne in Ha by congruence.
      rewrite fmap_app in Ha'. apply elem_of_app in Ha' as [Ha' | Ha'].
      * exact (rep_disj _ _ Hrep i _ a Hi Hj Hij Ha Ha').
      * apply list_elem_of_singleton in Ha'. subst a.
        exact (rep_chain_addr_lt s f _ Hrep Hi Ha).
    + rewrite fn_lookup_insert_ne in Ha, Ha' by congruence.
      exact (rep_disj _ _ Hrep i j a Hi Hj Hij Ha Ha').
  - apply (rep_heap_types _ _ Hrep).
  - apply (rep_heap_ordered _ _ Hrep).
  - destruct (rep_barriers _ _ Hrep) as (b2 & Hb2 & Hs2). exists b2.
    split; [| exact Hs2]. rewrite list_lookup_insert_ne; [exact Hb2 |].
    destruct Hp as [-> | [-> | ->]]; lia.
  - destruct (rep_samplers _ _ Hrep) as (b3 & Hb3 & Hs3). exists b3.
    split; [| exact Hs3]. rewrite list_lookup_insert_ne; [exact Hb3 |].
    destruct Hp as [-> | [-> | ->]]; lia.
Qed.

Lemma deleteMin_from_skip (n i : nat) (s : State) (b : QueueBucket) :
  queue s !! i = Some b → bucket_size b = 0 →
  deleteMin_from (S n) i s = deleteMin_from n (S i) s.
Proof.
  intros Hb Hz. cbn [deleteMin_from]. unfold bind at 1, get_bucket.
  rewrite Hb, Hz. reflexivity.
Qed.

(** [deleteMin] at a linked-list bucket that is not empty: the first item
    is unlinked and its layer returned. *)
Lemma deleteMin_from_list (n i : nat) (s : State) (f : nat → list (ItemRef * Layer))
    (c : ItemRef * Layer) (rest : list (ItemRef * Layer)) :
  queue_rep s f → fifo_index i → f i = c :: rest →
  ∃ s', deleteMin_from (S n) i s = Val (Some c.2) s'
        ∧ same_outside_queue s s'
        ∧ trace s' = EvPop c.2 :: trace s
        ∧ heap s' = heap s
        ∧ queue_rep s' (<[i := rest]> f).
Proof.
  intros Hrep Hi Hfi.
  destruct (rep_fifo _ _ Hrep i Hi) as (b & Hb & Hsz & Hch & Hlast).
  rewrite Hfi in Hsz, Hch, Hlast. destruct Hch as (Hfirst & r & Hm & Hrest).
  assert (Hcond : ((i =? 2) || (i =? 3)) = false).
  { destruct Hi as [-> | [-> | ->]]; reflexivity. }
  cbn [deleteMin_from]. unfold bind at 1, get_bucket. rewrite Hb.
  replace (0 <? bucket_size b) with true by (symmetry; apply Nat.ltb_lt; simpl in Hsz; lia).
  rewrite Hcond. unfold deleteMin_list, bind, set_bucket, modify, get_item, log_event, modify.
  rewrite Hfirst. simpl. rewrite Hm. simpl.
  eexists. split; [reflexivity |]. split; [repeat split |].
  split; [reflexivity |]. split; [reflexivity |].
  split; simpl.
  - intros j Hj. destruct (decide (j = i)) as [-> | Hne].
    + rewrite fn_lookup_insert. eexists. split.
      * rewrite list_lookup_insert_eq; [reflexivity |].
        rewrite length_insert. eapply lookup_lt_Some. exact Hb.
      * simpl. split; [simpl in Hsz; lia |]. split; [exact Hrest |].
        simpl in Hsz. destruct rest as [| c' rest'].
        -- simpl in Hsz. rewrite Hsz. reflexivity.
        -- replace (bucket_size b =? 1) with false
             by (symmetry; apply Nat.eqb_neq; simpl in Hsz; lia).
           rewrite Hlast. rewrite !fmap_cons. apply last_cons_cons.
    + rewrite fn_lookup_insert_ne by congruence.
      destruct (rep_fifo _ _ Hrep j Hj) as (bj & Hbj & Hrestj).
      exists bj. split; [| exact Hrestj].
      rewrite !list_lookup_insert_ne by congruence. exact Hbj.
  - intros j c' Hj Hc'. destruct (decide (j = i)) as [-> | Hne].
    + rewrite fn_lookup_insert in Hc'. apply (rep_prio _ _ Hrep i c' Hi).
      rewrite Hfi. right. exact Hc'.
    + rewrite fn_lookup_insert_ne in Hc' by congruence.
      apply (rep_prio _ _ Hrep j c' Hj Hc').
  - intros j Hj. destruct (decide (j = i)) as [-> | Hne].
    + rewrite fn_lookup_insert. pose proof (rep_nodup _ _ Hrep i Hi) as Hnd.
      rewrite Hfi, fmap_cons in Hnd. apply NoDup_cons in Hnd as [_ Hnd]. exact Hnd.
    + rewrite fn_lookup_insert_ne by congruence. apply (rep_nodup _ _ Hrep j Hj).
  - intros j k a Hj Hk Hjk Ha Ha'.
    assert (Hsub : ∀ x, x ∈ rest.*1 → x ∈ (f i).*1).
    { intros x Hx. rewrite Hfi, fmap_cons. right. exact Hx. }
    destruct (decide (j = i)) as [-> | Hne]; destruct (decide (k = i)) as [-> | Hne'].
    + congruence.
    + rewrite fn_lookup_insert in Ha. rewrite fn_lookup_insert_ne in Ha' by congruence.
      exact (rep_disj _ _ Hrep i k a Hi Hk Hjk (Hsub _ Ha) Ha').
    + rewrite fn_lookup_insert in Ha'. rewrite fn_lookup_insert_ne in Ha by congruence.
      exact (rep_disj _ _ Hrep j i a Hj Hi Hjk Ha (Hsub _ Ha')).
    + rewrite fn_lookup_insert_ne in Ha, Ha' by congruence.
      exact (rep_disj _ _ Hrep j k a Hj Hk Hjk Ha Ha').
  - apply (rep_heap_types _ _ Hrep).
  - apply (rep_heap_ordered _ _ Hrep).
  - destruct (rep_barriers _ _ Hrep) as (b2 & Hb2 & Hs2). exists b2.
    split; [| exact Hs2]. rewrite !list_lookup_insert_ne; [exact Hb2 | |];
      destruct Hi as [-> | [-> | ->]]; lia.
  - destruct (rep_samplers _ _ Hrep) as (b3 & Hb3 & Hs3). exists b3.
    split; [| exact Hs3]. rewrite !list_lookup_insert_ne; [exact Hb3 | |];
      destruct Hi as [-> | [-> | ->]]; lia.
Qed.

Lemma filter_type_length_cons (t : PriorityTag) (v : Layer) (ls : list Layer) :
  length (filter (λ l, layer_type l = t) (v :: ls))
  = (if decide (layer_type v = t) then 1 else 0)
    + length (filter (λ l, layer_type l = t) ls).
Proof. rewrite filter_cons. destruct (decide (layer_type v = t)); reflexivity. Qed.

Lemma filter_type_nonempty (t : PriorityTag) (ls : list Layer) :
  0 < length (filter (λ l, layer_type l = t) ls) →
  ∃ x, x ∈ ls ∧ layer_type x = t.
Proof.
  intros H. destruct (filter (λ l, layer_type l = t) ls) as [| x xs] eqn:E;
    [simpl in H; lia |].
  assert (Hx : x ∈ filter (λ l, layer_type l = t) ls) by (rewrite E; left).
  apply list_elem_of_filter in Hx as [Hx1 Hx2]. eauto.
Qed.

Lemma filter_type_empty (t : PriorityTag) (ls : list Layer) (x : Layer) :
  length (filter (λ l, layer_type l = t) ls) = 0 → x ∈ ls → layer_type x ≠ t.
Proof.
  intros H Hx Ht. apply length_zero_iff_nil in H.
  assert (Hin : x ∈ filter (λ l, layer_type l = t) ls)
    by (apply list_elem_of_filter; split; assumption).
  rewrite H in Hin. inversion Hin.
Qed.

(** [deleteMin] at one of the two heap buckets: the root of the heap is
    returned, its type is the one of the bucket, and the heap becomes the
    meld of its two children. *)
Lemma deleteMin_from_heap (n i : nat) (s : State) (f : nat → list (ItemRef * Layer))
    (t : PriorityTag) (b : QueueBucket) :
  queue_rep s f → heap_type t → i = getPriority t →
  queue s !! i = Some b → 0 < bucket_size b →
  (t = sampler → ∀ x, x ∈ heap_layers (heap s) → layer_type x ≠ barrier) →
  ∃ v l r s', heap s = HNode v l r
        ∧ layer_type v = t
        ∧ deleteMin_from (S n) i s = Val (Some v) s'
        ∧ same_outside_queue s s'
        ∧ trace s' = EvPop v :: trace s
        ∧ heap s' = merge l r
        ∧ queue_rep s' f.
Proof.
  intros Hrep Ht -> Hb Hpos Hnob.
  destruct (rep_barriers _ _ Hrep) as (b2 & Hb2 & Hs2).
  destruct (rep_samplers _ _ Hrep) as (b3 & Hb3 & Hs3).
  pose proof (rep_heap_types _ _ Hrep) as Htypes.
  pose proof (rep_heap_ordered _ _ Hrep) as Hord.
  assert (Hex : ∃ x, x ∈ heap_layers (heap s) ∧ layer_type x = t).
  { destruct Ht as [-> | ->]; simpl in Hb.
    - rewrite Hb2 in Hb. injection Hb as <-. apply filter_type_nonempty. lia.
    - rewrite Hb3 in Hb. injection Hb as <-. apply filter_type_nonempty. lia. }
  destruct Hex as (x & Hx & Hxt).
  destruct (heap s) as [| v l r] eqn:Hheap; [inversion Hx |].
  assert (Hvt : layer_type v = t).
  { assert (Hv : heap_type (layer_type v)) by (inversion Htypes; assumption).
    destruct Ht as [-> | ->].
    - eapply heap_root_barrier; eassumption.
    - destruct Hv as [Hv | Hv]; [| exact Hv].
      exfalso. apply (Hnob eq_refl v); [left | exact Hv]. }
  assert (Hlayers : heap_layers (merge l r) ≡ₚ heap_layers l ++ heap_layers r)
    by apply merge_layers.
  cbn [heap_layers] in Htypes. apply Forall_cons in Htypes as [Hv Htypes].
  assert (Htypes' : Forall (λ l0, heap_type (layer_type l0)) (heap_layers (merge l r)))
    by (rewrite Hlayers; exact Htypes).
  assert (Hord' : heap_ordered (merge l r)).
  { apply Forall_app in Htypes as [? ?]. destruct Hord as (_ & _ & ? & ?).
    apply merge_ordered; assumption. }
  exists v, l, r.
  assert (Hcond : ((getPriority t =? 2) || (getPriority t =? 3)) = true).
  { destruct Ht as [-> | ->]; reflexivity. }
  cbn [deleteMin_from]. unfold bind at 1, get_bucket. rewrite Hb.
  replace (0 <? bucket_size b) with true by (symmetry; apply Nat.ltb_lt; lia).
  rewrite Hcond.
  unfold deleteMin_heap, bind, set_bucket, modify, gets, log_event, modify.
  simpl. rewrite Hheap. simpl.
  eexists. split; [reflexivity |]. split; [exact Hvt |]. split; [reflexivity |].
  split; [repeat split |]. split; [reflexivity |]. split; [reflexivity |].
  cbn [heap_layers] in Hs2, Hs3. rewrite filter_type_length_cons in Hs2, Hs3.
  split; simpl.
  - intros j Hj. destruct (rep_fifo _ _ Hrep j Hj) as (bj & Hbj & Hrestj).
    exists bj. split; [| exact Hrestj].
    rewrite list_lookup_insert_ne; [exact Hbj |].
    destruct Ht as [-> | ->]; destruct Hj as [-> | [-> | ->]]; simpl; lia.
  - apply (rep_prio _ _ Hrep).
  - apply (rep_nodup _ _ Hrep).
  - apply (rep_disj _ _ Hrep).
  - exact Htypes'.
  - exact Hord'.
  - destruct Ht as [-> | ->]; simpl in *.
    + rewrite Hb2 in Hb. injection Hb as <-. eexists. split.
      * apply list_lookup_insert_eq. eapply lookup_lt_Some. exact Hb2.
      * simpl. rewrite Hlayers. rewrite decide_True in Hs2 by exact Hvt. lia.
    + exists b2. split; [rewrite list_lookup_insert_ne by lia; exact Hb2 |].
      rewrite Hlayers. rewrite decide_False in Hs2 by congruence. exact Hs2.
  - destruct Ht as [-> | ->]; simpl in *.
    + exists b3. split; [rewrite list_lookup_insert_ne by lia; exact Hb3 |].
      rewrite Hlayers. rewrite decide_False in Hs3 by congruence. exact Hs3.
    + rewrite Hb3 in Hb. injection Hb as <-. eexists. split.
      * apply list_lookup_insert_eq. eapply lookup_lt_Some. exact Hb3.
      * simpl. rewrite Hlayers. rewrite decide_True in Hs3 by exact Hvt. lia.
Qed.

Lemma rep_fifo_empty (s : State) (f : nat → list (ItemRef * Layer)) (i : nat) :
  queue_rep s f → fifo_index i → f i = [] →
  ∃ b, queue s !! i = Some b ∧ bucket_size b = 0.
Proof.
  intros Hrep Hi Hfi. destruct (rep_fifo _ _ Hrep i Hi) as (b & Hb & Hsz & _).
  exists b. rewrite Hfi in Hsz. auto.
Qed.

Lemma heap_layers_nil (h : Heap) : heap_layers h = [] → h = HNull.
Proof. destruct h; [reflexivity | discriminate]. Qed.

(** What [deleteMin] does on a well-formed queue: it returns [undefined]
    when nothing is queued; otherwise it returns the oldest layer of the
    first non-empty linked list, or the root of the heap when the lists
    of [child] and [pure] are empty and the heap is not. *)
Lemma deleteMin_spec (s : State) (f : nat → list (ItemRef * Layer)) :
  queue_rep s f →
  ∃ res s', deleteMin s = Val res s' ∧ same_outside_queue s s' ∧
    match res with
    | None => s' = s ∧ (∀ i, fifo_index i → f i = []) ∧ heap s = HNull
    | Some v =>
        trace s' = EvPop v :: trace s
        ∧ ((∃ i a rest, fifo_index i ∧ f i = (a, v) :: rest
              ∧ heap s' = heap s ∧ queue_rep s' (<[i := rest]> f)
              ∧ (∀ j, fifo_index j → j < i → f j = [])
              ∧ (i = 4 → heap s = HNull))
           ∨ (∃ l r, heap s = HNode v l r ∧ heap s' = merge l r
                ∧ queue_rep s' f ∧ f 0 = [] ∧ f 1 = []))
    end.
Proof.
  intros Hrep. unfold deleteMin.
  assert (H0 : fifo_index 0) by (left; reflexivity).
  assert (H1 : fifo_index 1) by (right; left; reflexivity).
  assert (H4 : fifo_index 4) by (right; right; reflexivity).
  destruct (f 0) as [| [a v] rest] eqn:Hf0.
  2: { destruct (deleteMin_from_list 4 0 s f _ _ Hrep H0 Hf0)
         as (s' & Hrun & Hsame & Htr & Hheap & Hrep').
       exists (Some v), s'. split; [exact Hrun |]. split; [exact Hsame |].
       split; [exact Htr |]. left. exists 0, a, rest.
       repeat (split; [assumption |]). split; [intros; lia | intros; lia]. }
  destruct (rep_fifo_empty s f 0 Hrep H0 Hf0) as (b0 & Hb0 & Hz0).
  rewrite (deleteMin_from_skip _ _ _ _ Hb0 Hz0).
  destruct (f 1) as [| [a v] rest] eqn:Hf1.
  2: { destruct (deleteMin_from_list 3 1 s f _ _ Hrep H1 Hf1)
         as (s' & Hrun & Hsame & Htr & Hheap & Hrep').
       exists (Some v), s'. split; [exact Hrun |]. split; [exact Hsame |].
       split; [exact Htr |]. left. exists 1, a, rest.
       repeat (split; [assumption |]). split; [| intros; lia].
       intros j [-> | [-> | ->]] Hlt; [assumption | lia | lia]. }
  destruct (rep_fifo_empty s f 1 Hrep H1 Hf1) as (b1 & Hb1 & Hz1).
  rewrite (deleteMin_from_skip _ _ _ _ Hb1 Hz1).
  destruct (rep_barriers _ _ Hrep) as (b2 & Hb2 & Hs2).
  destruct (rep_samplers _ _ Hrep) as (b3 & Hb3 & Hs3).
  destruct (decide (bucket_size b2 = 0)) as [Hz2 | Hnz2].
  2: { destruct (deleteMin_from_heap 2 2 s f barrier b2 Hrep) as
         (v & l & r & s' & Hheap & Hvt & Hrun & Hsame & Htr & Hheap' & Hrep');
         [left; reflexivity | reflexivity | exact Hb2 | lia | discriminate |].
       exists (Some v), s'. split; [exact Hrun |]. split; [exact Hsame |].
       split; [exact Htr |]. right. exists l, r. auto. }
  rewrite (deleteMin_from_skip _ _ _ _ Hb2 Hz2).
  assert (Hnob : ∀ x, x ∈ heap_layers (heap s) → layer_type x ≠ barrier).
  { intros x Hx. eapply filter_type_empty; [| exact Hx]. lia. }
  destruct (decide (bucket_size b3 = 0)) as [Hz3 | Hnz3].
  2: { destruct (deleteMin_from_heap 1 3 s f sampler b3 Hrep) as
         (v & l & r & s' & Hheap & Hvt & Hrun & Hsame & Htr & Hheap' & Hrep');
         [right; reflexivity | reflexivity | exact Hb3 | lia | intros _; exact Hnob |].
       exists (Some v), s'. split; [exact Hrun |]. split; [exact Hsame |].
       split; [exact Htr |]. right. exists l, r. auto. }
  rewrite (deleteMin_from_skip _ _ _ _ Hb3 Hz3).
  assert (Hnull : heap s = HNull).
  { apply heap_layers_nil. destruct (heap_layers (heap s)) as [| x xs] eqn:E; [reflexivity |].
    exfalso. pose proof (rep_heap_types _ _ Hrep) as Ht. rewrite E in Ht.
    apply Forall_cons in Ht as [[Ht | Ht] _].
    - apply (Hnob x); [left | exact Ht].
    - eapply (filter_type_empty sampler (x :: xs)); [| left | exact Ht].
      rewrite <- Hs3. exact Hz3. }
  destruct (f 4) as [| [a v] rest] eqn:Hf4.
  2: { destruct (deleteMin_from_list 0 4 s f _ _ Hrep H4 Hf4)
         as (s' & Hrun & Hsame & Htr & Hheap & Hrep').
       exists (Some v), s'. split; [exact Hrun |]. split; [exact Hsame |].
       split; [exact Htr |]. left. exists 4, a, rest.
       repeat (split; [assumption |]). split; [| intros; exact Hnull].
       intros j [-> | [-> | ->]] Hlt; [assumption | assumption | lia]. }
  destruct (rep_fifo_empty s f 4 Hrep H4 Hf4) as (b4 & Hb4 & Hz4).
  rewrite (deleteMin_from_skip _ _ _ _ Hb4 Hz4).
  exists None, s. split; [reflexivity |]. split; [apply same_outside_queue_refl |].
  split; [reflexivity |]. split; [| exact Hnull].
  intros i [-> | [-> | ->]]; assumption.
Qed.

(** [pushHeap] on a well-formed queue, both branches together. *)
Lemma pushHeap_spec (s : State) (f : nat → list (ItemRef * Layer))
    (idx : nat) (stack : StackRef) (t : PriorityTag) (id : Z) :
  queue_rep s f →
  let L := {| layer_idx := idx; layer_stack := stack; layer_type := t; layer_id := id |} in
  ∃ s' f', pushHeap idx stack t id s = Val tt s'
        ∧ same_outside_queue s s'
        ∧ trace s' = EvPush L :: trace s
        ∧ queue_rep s' f'
        ∧ ((heap_type t ∧ f' = f
            ∧ heap s' = merge (heap s) (HNode L HNull HNull))
           ∨ (fifo_index (getPriority t) ∧ heap s' = heap s
              ∧ f' = <[getPriority t := f (getPriority t) ++ [(next_item s, L)]]> f)).
Proof.
  intros Hrep L. destruct (fifo_index_cases t) as [Hp | Ht].
  - destruct (pushHeap_fifo s f idx stack t id Hrep Hp) as (s' & ? & ? & ? & ? & ?).
    exists s', (<[getPriority t := f (getPriority t) ++ [(next_item s, L)]]> f).
    repeat (split; [assumption |]). right. auto.
  - destruct (pushHeap_heap s f idx stack t id Hrep Ht) as (s' & ? & ? & ? & ? & ?).
    exists s', f. repeat (split; [assumption |]). left. auto.
Qed.

(** ** Order of dequeueing *)

Lemma pushHeap_keeps (s s' : State) (f : nat → list (ItemRef * Layer))
    (idx : nat) (stack : StackRef) (t : PriorityTag) (id : Z) (L1 : Layer) :
  queue_rep s f → pushHeap idx stack t id s = Val tt s' →
  L1 ∈ queue_layers s →
  L1 ∈ queue_layers s' ∧ ∃ f', queue_rep s' f'.
Proof.
  intros Hrep Hrun Hin.
  destruct (pushHeap_spec s f idx stack t id Hrep)
    as (s1 & f' & Hrun' & _ & _ & Hrep' & Hcase).
  rewrite Hrun in Hrun'. injection Hrun' as <-.
  split; [| eauto].
  rewrite (queue_rep_layers _ _ Hrep) in Hin. rewrite (queue_rep_layers _ _ Hrep').
  rewrite !elem_of_app in Hin. rewrite !elem_of_app.
  destruct Hcase as [(Ht & -> & Hheap) | (Hp & Hheap & ->)].
  - rewrite Hheap, merge_layers, elem_of_app. tauto.
  - rewrite Hheap.
    assert (Hsub : ∀ i, L1 ∈ (f i).*2 →
              L1 ∈ (<[getPriority t := f (getPriority t) ++
              [(next_item s, {| layer_idx := idx; layer_stack := stack;
                                layer_type := t; layer_id := id |})]]> f i).*2).
    { intros i Hx. destruct (decide (i = getPriority t)) as [-> | Hne].
      - rewrite fn_lookup_insert, fmap_app. apply elem_of_app. left. exact Hx.
      - rewrite fn_lookup_insert_ne by congruence. exact Hx. }
    destruct Hin as [Hin | [Hin | [Hin | Hin]]]; auto.
Qed.

Lemma rep_layer_priority (s : State) (f : nat → list (ItemRef * Layer)) (i : nat) (x : Layer) :
  queue_rep s f → fifo_index i → x ∈ (f i).*2 → getPriority (layer_type x) = i.
Proof.
  intros Hrep Hi Hx. apply list_elem_of_fmap in Hx as (c & -> & Hc).
  apply (rep_prio _ _ Hrep i c Hi Hc).
Qed.

Lemma heap_type_priority (t : PriorityTag) :
  heap_type t → getPriority t = 2 ∨ getPriority t = 3.
Proof. intros [-> | ->]; simpl; auto. Qed.

(** The layer that [deleteMin] returns is never one that a queued layer
    has to precede, and that queued layer stays queued unless it is the
    one returned. *)
Lemma deleteMin_first (s s' : State) (f : nat → list (ItemRef * Layer))
    (v L1 L2 : Layer) :
  queue_rep s f → deleteMin s = Val (Some v) s' →
  L1 ∈ queue_layers s → dequeues_first L1 L2 →
  v ≠ L2 ∧ (v = L1 ∨ L1 ∈ queue_layers s').
Proof.
  intros Hrep Hrun Hin Hfirst.
  assert (H0 : fifo_index 0) by (left; reflexivity).
  assert (H1 : fifo_index 1) by (right; left; reflexivity).
  assert (H4 : fifo_index 4) by (right; right; reflexivity).
  destruct (deleteMin_spec s f Hrep) as (res & s1 & Hrun' & _ & Hres).
  rewrite Hrun in Hrun'. injection Hrun' as <- <-.
  destruct Hres as [_ Hcase].
  rewrite (queue_rep_layers _ _ Hrep) in Hin.
  pose proof (rep_heap_types _ _ Hrep) as Htypes. rewrite Forall_forall in Htypes.
  assert (HL1 : ∀ i, fifo_index i → L1 ∈ (f i).*2 → getPriority (layer_type L1) = i)
    by (intros; eapply rep_layer_priority; eassumption).
  destruct Hcase as [(i & a & rest & Hi & Hfi & Hheap & Hrep' & Hbefore & Hnull)
                    | (l & r & Hheap & Hheap' & Hrep' & Hf0 & Hf1)].
  - assert (Hv : getPriority (layer_type v) = i).
    { apply (rep_layer_priority s f i v Hrep Hi). rewrite Hfi, fmap_cons. left. }
    assert (Hle : i ≤ getPriority (layer_type L1)).
    { rewrite !elem_of_app in Hin. destruct Hin as [Hin | [Hin | [Hin | Hin]]].
      - destruct (decide (0 < i)) as [Hlt | ?]; [| lia].
        rewrite (Hbefore 0 H0 Hlt) in Hin. inversion Hin.
      - rewrite (HL1 1 H1 Hin). destruct (decide (1 < i)) as [Hlt | ?]; [| lia].
        rewrite (Hbefore 1 H1 Hlt) in Hin. inversion Hin.
      - destruct (heap_type_priority _ (Htypes _ Hin)) as [-> | ->];
          destruct Hi as [-> | [-> | ->]]; try lia;
          rewrite (Hnull eq_refl) in Hin; inversion Hin.
      - rewrite (HL1 4 H4 Hin). destruct Hi as [-> | [-> | ->]]; lia. }
    split.
    + intros ->. destruct Hfirst as [Hlt | (Hht & Hty & _)]; [lia |].
      rewrite <- Hty in Hv. destruct (heap_type_priority _ Hht) as [E | E];
        rewrite E in Hv; subst i; destruct Hi as [? | [? | ?]]; lia.
    + destruct (decide (v = L1)) as [? | Hne]; [left; assumption | right].
      rewrite (queue_rep_layers _ _ Hrep'), Hheap.
      assert (Hsub : ∀ j, L1 ∈ (f j).*2 → L1 ∈ (<[i := rest]> f j).*2).
      { intros j Hj. destruct (decide (j = i)) as [-> | Hji].
        - rewrite fn_lookup_insert. rewrite Hfi, fmap_cons in Hj.
          apply elem_of_cons in Hj as [Hj | Hj]; [simpl in Hj; congruence | exact Hj].
        - rewrite fn_lookup_insert_ne by congruence. exact Hj. }
      rewrite !elem_of_app in Hin. rewrite !elem_of_app.
      destruct Hin as [Hin | [Hin | [Hin | Hin]]]; auto.
  - rewrite Hheap in Hin, Htypes. rewrite Hf0, Hf1 in Hin.
    pose proof (rep_heap_ordered _ _ Hrep) as Hord. rewrite Hheap in Hord.
    pose proof (heap_ordered_root _ _ _ Hord) as Hroot. rewrite Forall_forall in Hroot.
    assert (Hvt : heap_type (layer_type v)) by (apply Htypes; left).
    assert (Hin' : L1 ∈ heap_layers (HNode v l r) ∨ L1 ∈ (f 4).*2).
    { rewrite !elem_of_app in Hin. destruct Hin as [Hin | [Hin | [Hin | Hin]]];
        [inversion Hin | inversion Hin | left; exact Hin | right; exact Hin]. }
    split.
    + intros ->. destruct Hin' as [Hin' | Hin'].
      * destruct (Hroot _ Hin') as [[Hty Hid] | [Hb Hs]];
          destruct Hfirst as [Hlt | (_ & Hty' & Hid')].
        -- rewrite Hty in Hlt. lia.
        -- lia.
        -- rewrite Hb, Hs in Hlt. simpl in Hlt. lia.
        -- congruence.
      * pose proof (HL1 4 H4 Hin') as E4.
        destruct Hfirst as [Hlt | (Hht & Hty' & _)].
        -- destruct (heap_type_priority _ Hvt) as [E | E]; rewrite E in Hlt; lia.
        -- destruct (heap_type_priority _ Hht) as [E | E]; rewrite E in E4; lia.
    + destruct (decide (v = L1)) as [? | Hne]; [left; assumption | right].
      rewrite (queue_rep_layers _ _ Hrep'), Hheap', Hf0, Hf1, merge_layers.
      rewrite !elem_of_app. destruct Hin' as [Hin' | Hin'].
      * cbn [heap_layers] in Hin'. apply elem_of_cons in Hin' as [Hin' | Hin'];
          [congruence |]. apply elem_of_app in Hin'. tauto.
      * tauto.
Qed.

Lemma deleteMin_rep (s s' : State) (f : nat → list (ItemRef * Layer)) (res : option Layer) :
  queue_rep s f → deleteMin s = Val res s' → ∃ f', queue_rep s' f'.
Proof.
  intros Hrep Hrun. destruct (deleteMin_spec s f Hrep) as (res' & s1 & Hrun' & _ & Hres).
  rewrite Hrun in Hrun'. injection Hrun' as <- <-.
  destruct res as [v |].
  - destruct Hres as [_ [(i & a & rest & _ & _ & _ & Hrep' & _) | (l & r & _ & _ & Hrep' & _)]];
      eauto.
  - destruct Hres as [-> _]. eauto.
Qed.

(** A continuation of a state in which [L1] is queued dequeues [L1]
    before any [L2] that [L1] has to precede. *)
Lemma run_ops_first (post : list QueueOp) (L1 L2 : Layer) :
  dequeues_first L1 L2 →
  ∀ s f popped s',
    queue_rep s f → L1 ∈ queue_layers s →
    run_ops post s = Val popped s' →
    ∀ k, popped !! k = Some L2 → ∃ j, j < k ∧ popped !! j = Some L1.
Proof.
  intros Hfirst. induction post as [| op post IH]; intros s f popped s' Hrep Hin Hrun k Hk.
  - injection Hrun as <- <-. discriminate.
  - destruct op as [idx stack t id |]; cbn [run_ops] in Hrun; unfold bind in Hrun.
    + destruct (pushHeap idx stack t id s) as [[] s1 | |] eqn:Hpush; try discriminate.
      destruct (pushHeap_keeps s s1 f idx stack t id L1 Hrep Hpush Hin) as [Hin1 [f1 Hrep1]].
      exact (IH s1 f1 popped s' Hrep1 Hin1 Hrun k Hk).
    + destruct (deleteMin s) as [res s1 | |] eqn:Hdel; try discriminate.
      destruct (deleteMin_rep s s1 f res Hrep Hdel) as [f1 Hrep1].
      destruct (run_ops post s1) as [popped1 s2 | |] eqn:Hrest; try discriminate.
      injection Hrun as <- <-.
      destruct res as [v |].
      * destruct (deleteMin_first s s1 f v L1 L2 Hrep Hdel Hin Hfirst) as [Hv2 Hv1].
        destruct k as [| k]; [simpl in Hk; congruence |].
        simpl in Hk. destruct Hv1 as [-> | Hin1].
        -- exists 0. split; [lia | reflexivity].
        -- destruct (IH s1 f1 popped1 s2 Hrep1 Hin1 Hrest k Hk) as (j & Hj & Hpj).
           exists (S j). split; [lia | exact Hpj].
      * destruct (deleteMin_spec s f Hrep) as (res' & s1' & Hrun' & _ & Hres).
        rewrite Hdel in Hrun'. injection Hrun' as <- <-. destruct Hres as [-> _].
        exact (IH s f1 popped1 s2 Hrep1 Hin Hrest k Hk).
Qed.

(** Every sequence of calls runs to completion from the loaded module,
    and the queue is well formed afterwards. *)
Lemma run_ops_total (ops : list QueueOp) :
  ∀ s f, queue_rep s f →
         ∃ popped s' f', run_ops ops s = Val popped s' ∧ queue_rep s' f'.
Proof.
  induction ops as [| op ops IH]; intros s f Hrep.
  - exists [], s, f. split; [reflexivity | exact Hrep].
  - destruct op as [idx stack t id |]; cbn [run_ops]; unfold bind.
    + destruct (pushHeap_spec s f idx stack t id Hrep) as (s1 & f1 & Hrun & _ & _ & Hrep1 & _).
      rewrite Hrun. apply (IH s1 f1 Hrep1).
    + destruct (deleteMin_spec s f Hrep) as (res & s1 & Hrun & _ & Hres).
      rewrite Hrun. destruct (deleteMin_rep s s1 f res Hrep Hrun) as [f1 Hrep1].
      destruct (IH s1 f1 Hrep1) as (popped & s' & f' & Hrest & Hrep').
      rewrite Hrest. eauto.
Qed.

Lemma run_ops_rep (ops : list QueueOp) (s s' : State) (f : nat → list (ItemRef * Layer))
    (popped : list Layer) :
  queue_rep s f → run_ops ops s = Val popped s' → ∃ f', queue_rep s' f'.
Proof.
  intros Hrep Hrun. destruct (run_ops_total ops s f Hrep) as (p & s1 & f' & Hrun' & Hrep').
  rewrite Hrun in Hrun'. injection Hrun' as <- <-. eauto.
Qed.






(** C3. Take any state of the queue reached from the loaded module in
    which [L1] and [L2] are both in the shared heap, [L1] a [barrier] and
    [L2] a [sampler], or both of the same type and [L1] with the smaller
    id.  Whatever calls follow, [L2] is never returned by [deleteMin]
    unless [L1] was returned by an earlier [deleteMin]. *)
Theorem heap_order (pre post : list QueueOp) (L1 L2 : Layer)
    (popped popped' : list Layer) (s s' : State) :
  run_ops pre init_state = Val popped s →
  L1 ∈ heap_layers (heap s) → L2 ∈ heap_layers (heap s) →
  heap_before L1 L2 →
  run_ops post s = Val popped' s' →
  ∀ k, popped' !! k = Some L2 → ∃ j, j < k ∧ popped' !! j = Some L1.
Proof.
  intros Hpre H1 _ Hbefore Hpost.
  destruct (run_ops_rep pre init_state s _ popped queue_rep_init Hpre) as [f Hrep].
  assert (Hht : heap_type (layer_type L1)).
  { pose proof (rep_heap_types _ _ Hrep) as Ht. rewrite Forall_forall in Ht. auto. }
  assert (Hfirst : dequeues_first L1 L2).
  { destruct Hbefore as [[Hty Hid] | [Hb Hs]].
    - right. auto.
    - left. rewrite Hb, Hs. simpl. lia. }
  assert (Hin : L1 ∈ queue_layers s).
  { unfold queue_layers. rewrite !elem_of_app. auto. }
  apply (run_ops_first post L1 L2 Hfirst s f popped' s' Hrep Hin Hpost).
Qed.


(** A [sampler] layer, then two [barrier] layers pushed with ids [5] and
    [2]: the barrier with id [2] is returned before the one with id [5]. *)
Lemma heap_order_witness :
  let L5 := {| layer_idx := 0; layer_stack := 1; layer_type := barrier; layer_id := 5 |} in
  let L2 := {| layer_idx := 0; layer_stack := 2; layer_type := barrier; layer_id := 2 |} in
  ∃ s popped' s',
    run_ops [OpPush 0 0 sampler 1; OpPush 0 1 barrier 5; OpPush 0 2 barrier 2] init_state
    = Val [] s
    ∧ L2 ∈ heap_layers (heap s) ∧ L5 ∈ heap_layers (heap s)
    ∧ heap_before L2 L5
    ∧ run_ops [OpPop; OpPop; OpPop] s = Val popped' s'
    ∧ popped' !! 0 = Some L2 ∧ popped' !! 1 = Some L5
    ∧ ∀ k, popped' !! k = Some L5 → ∃ j, j < k ∧ popped' !! j = Some L2.
Proof.
  intros L5 L2.
  destruct (run_ops [OpPush 0 0 sampler 1; OpPush 0 1 barrier 5; OpPush 0 2 barrier 2]
              init_state) as [popped s | |] eqn:Hpre; [| discriminate Hpre ..].
  assert (Hpopped : popped = []) by (vm_compute in Hpre; congruence).
  subst popped.
  destruct (run_ops [OpPop; OpPop; OpPop] s) as [popped' s' | |] eqn:Hpost;
    [| vm_compute in Hpre; injection Hpre as <-; vm_compute in Hpost; discriminate Hpost ..].
  assert (H2 : L2 ∈ heap_layers (heap s)).
  { vm_compute in Hpre. injection Hpre as <-. apply list_elem_of_In. vm_compute. tauto. }
  assert (H5 : L5 ∈ heap_layers (heap s)).
  { vm_compute in Hpre. injection Hpre as <-. apply list_elem_of_In. vm_compute. tauto. }
  assert (Hb : heap_before L2 L5) by (left; split; [reflexivity | simpl; lia]).
  assert (Hp0 : popped' !! 0 = Some L2).
  { vm_compute in Hpre. injection Hpre as <-. vm_compute in Hpost.
    injection Hpost as <- _. reflexivity. }
  assert (Hp1 : popped' !! 1 = Some L5).
  { vm_compute in Hpre. injection Hpre as <-. vm_compute in Hpost.
    injection Hpost as <- _. reflexivity. }
  exists s, popped', s'. repeat (split; [assumption || reflexivity |]).
  exact (heap_order _ _ L2 L5 [] popped' s s' Hpre H2 H5 Hb Hpost).
Defined.

(** ** The steps of the interpreter *)

Lemma queue_ok_init : queue_ok init_state.
Proof. eexists. apply queue_rep_init. Qed.

(** A push into one of the linked lists, seen through [bucket_layers]. *)
Lemma pushHeap_fifo_layers (s : State) (idx : nat) (stack : StackRef)
    (t : PriorityTag) (id : Z) :
  queue_ok s → fifo_index (getPriority t) →
  ∃ s', pushHeap idx stack t id s = Val tt s'
        ∧ queue_ok s'
        ∧ same_outside_queue s s'
        ∧ trace s' = EvPush {| layer_idx := idx; layer_stack := stack;
                               layer_type := t; layer_id := id |} :: trace s
        ∧ heap s' = heap s
        ∧ ∀ i, fifo_index i →
               bucket_layers s' i
               = bucket_layers s i
                 ++ (if decide (i = getPriority t)
                     then [{| layer_idx := idx; layer_stack := stack;
                              layer_type := t; layer_id := id |}]
                     else []).
Proof.
  intros [f Hrep] Hp.
  destruct (pushHeap_fifo s f idx stack t id Hrep Hp)
    as (s' & Hrun & Hsame & Htr & Hheap & Hrep').
  exists s'. split; [exact Hrun |]. split; [eexists; exact Hrep' |].
  split; [exact Hsame |]. split; [exact Htr |]. split; [exact Hheap |].
  intros i Hi.
  rewrite (queue_rep_bucket_layers s' _ i Hrep' Hi).
  rewrite (queue_rep_bucket_layers s f i Hrep Hi).
  destruct (decide (i = getPriority t)) as [-> | Hne].
  - rewrite fn_lookup_insert, fmap_app. reflexivity.
  - rewrite fn_lookup_insert_ne by congruence. symmetry. apply app_nil_r.
Qed.

Section StepFacts.

Variable launch_rec : Graphite → Value → bool → M unit.

(** C7. A [run] step at position [stepn] of the layer [{idx, stack, type}]:
    when [stepn] is not [idx] or [type] is not [effect], the layer
    [{idx = stepn, stack, type = effect, id = 0}] is appended to the
    [effect] bucket, nothing else changes, and the loop over the steps
    ends there by [continue mem]; otherwise the step is the [compute]
    step of the same function, which stores the value the function
    returns in [stack.value]. *)
Theorem run_step_gate (idx : nat) (stack : StackRef) (type : PriorityTag)
    (graph : Graph) (stepn : nat) (fn : UserFn) (local : Local)
    (rest : list Step) (s : State) :
  queue_ok s →
  (stepn ≠ idx ∨ type ≠ effect →
   ∃ s',
     exec_step launch_rec idx stack type graph stepn (step_run fn) local s
     = Val ContinueMem s'
     ∧ run_steps launch_rec idx stack type graph (step_run fn :: rest) stepn local false s
       = Val Requeued s'
     ∧ bucket_layers s' 4
       = bucket_layers s 4
         ++ [{| layer_idx := stepn; layer_stack := stack;
                layer_type := effect; layer_id := 0 |}]
     ∧ bucket_layers s' 0 = bucket_layers s 0
     ∧ bucket_layers s' 1 = bucket_layers s 1
     ∧ heap s' = heap s
     ∧ same_outside_queue s s')
  ∧ (stepn = idx → type = effect →
     exec_step launch_rec idx stack type graph stepn (step_run fn) local s
     = exec_step launch_rec idx stack type graph stepn (step_compute fn) local s
     ∧ ∀ fr v,
         stacks s !! stack = Some fr →
         fn (stack_value fr) (local_scope local) fr = FnReturn v →
         exec_step launch_rec idx stack type graph stepn (step_run fn) local s
         = Val (Break local)
               (set_stacks (<[stack := with_value v fr]> (stacks s)) (next_stack s) s)).
Proof.
  intros Hok. split.
  - intros Hgate.
    assert (Hcond : negb (stepn =? idx) || negb (bool_decide (type = effect)) = true).
    { destruct Hgate as [Hne | Hne].
      - apply Nat.eqb_neq in Hne. rewrite Hne. reflexivity.
      - rewrite (bool_decide_eq_false_2 _ Hne). apply orb_true_r. }
    destruct (pushHeap_fifo_layers s stepn stack effect 0 Hok)
      as (s' & Hrun & _ & Hsame & _ & Hheap & Hlayers);
      [right; right; reflexivity |].
    exists s'.
    assert (Hstep : exec_step launch_rec idx stack type graph stepn (step_run fn) local s
                    = Val ContinueMem s').
    { cbn [exec_step]. rewrite Hcond. unfold bind. rewrite Hrun. reflexivity. }
    split; [exact Hstep |].
    split; [cbn [run_steps]; unfold bind at 1; rewrite Hstep; reflexivity |].
    split; [rewrite (Hlayers 4) by (right; right; reflexivity); reflexivity |].
    split; [rewrite (Hlayers 0) by (left; reflexivity); apply app_nil_r |].
    split; [rewrite (Hlayers 1) by (right; left; reflexivity); apply app_nil_r |].
    split; [exact Hheap | exact Hsame].
  - intros -> ->.
    assert (Hcond : negb (idx =? idx) || negb (bool_decide (effect = effect)) = false).
    { rewrite Nat.eqb_refl. reflexivity. }
    split.
    + cbn [exec_step]. rewrite Hcond. reflexivity.
    + intros fr v Hfr Hfn. cbn [exec_step]. rewrite Hcond.
      unfold exec_compute, tryRun, bind, read_stack, try_catch. rewrite Hfr.
      rewrite Hfn. cbn [run_fn]. unfold ret, write_stack, modify. cbn.
      do 2 f_equal. apply map_eq. intros a.
      destruct (decide (a = stack)) as [-> | Hne].
      * rewrite lookup_alter_eq, lookup_insert_eq, Hfr. reflexivity.
      * rewrite lookup_alter_ne, lookup_insert_ne by congruence. reflexivity.
Qed.

End StepFacts.

(** ** Reasoning about computations *)

Lemma triple_ret {A} (P : State → Prop) (Q : A → State → Prop) (E : State → Prop) (a : A) :
  (∀ s, P s → Q a s) → triple P (ret a) Q E.
Proof. intros H s Hs. apply H. exact Hs. Qed.

Lemma triple_throw {A} (P : State → Prop) (Q : A → State → Prop) (E : State → Prop)
    (e : Value) :
  (∀ s, P s → E s) → triple P (throw e) Q E.
Proof. intros H s Hs. apply H. exact Hs. Qed.

Lemma triple_gets {A} (P : State → Prop) (Q : A → State → Prop) (E : State → Prop)
    (g : State → A) :
  (∀ s, P s → Q (g s) s) → triple P (gets g) Q E.
Proof. intros H s Hs. apply H. exact Hs. Qed.

Lemma triple_modify (P : State → Prop) (Q : unit → State → Prop) (E : State → Prop)
    (g : State → State) :
  (∀ s, P s → Q tt (g s)) → triple P (modify g) Q E.
Proof. intros H s Hs. apply H. exact Hs. Qed.

Lemma triple_bind {A B} (P : State → Prop) (m : M A) (R : A → State → Prop)
    (k : A → M B) (Q : B → State → Prop) (E : State → Prop) :
  triple P m R E → (∀ a, triple (R a) (k a) Q E) → triple P (bind m k) Q E.
Proof.
  intros Hm Hk s Hs. unfold bind. specialize (Hm s Hs).
  destruct (m s) as [a s' | e s' |]; [| exact Hm | exact I].
  apply (Hk a s' Hm).
Qed.

Lemma triple_conseq {A} (P P' : State → Prop) (m : M A) (Q Q' : A → State → Prop)
    (E E' : State → Prop) :
  triple P' m Q' E' → (∀ s, P s → P' s) → (∀ a s, Q' a s → Q a s) →
  (∀ s, E' s → E s) → triple P m Q E.
Proof.
  intros Hm HP HQ HE s Hs. specialize (Hm s (HP s Hs)).
  destruct (m s); [apply HQ | apply HE | exact I]; exact Hm.
Qed.

Lemma triple_try_catch {A} (P : State → Prop) (m : M A) (h : Value → M A)
    (Q : A → State → Prop) (E E' : State → Prop) :
  triple P m Q E' → (∀ e, triple E' (h e) Q E) → triple P (try_catch m h) Q E.
Proof.
  intros Hm Hh s Hs. unfold try_catch. specialize (Hm s Hs).
  destruct (m s) as [a s' | e s' |]; [exact Hm | | exact I].
  apply (Hh e s' Hm).
Qed.

Lemma preserves_ret {A} (I : State → Prop) (a : A) : preserves I (ret a).
Proof. apply triple_ret. auto. Qed.

Lemma preserves_throw {A} (I : State → Prop) (e : Value) : preserves I (@throw A e).
Proof. apply triple_throw. auto. Qed.

Lemma preserves_gets {A} (I : State → Prop) (g : State → A) : preserves I (gets g).
Proof. apply triple_gets. auto. Qed.

Lemma preserves_modify (I : State → Prop) (g : State → State) :
  (∀ s, I s → I (g s)) → preserves I (modify g).
Proof. intros H. apply triple_modify. exact H. Qed.

Lemma preserves_bind {A B} (I : State → Prop) (m : M A) (k : A → M B) :
  preserves I m → (∀ a, preserves I (k a)) → preserves I (bind m k).
Proof. intros Hm Hk. eapply triple_bind; [exact Hm | exact Hk]. Qed.

Lemma preserves_try_catch {A} (I : State → Prop) (m : M A) (h : Value → M A) :
  preserves I m → (∀ e, preserves I (h e)) → preserves I (try_catch m h).
Proof. intros Hm Hh. eapply triple_try_catch; [exact Hm | exact Hh]. Qed.

(** ** What the queue operations leave alone *)

Lemma get_bucket_keeps_started (b : bool) (i : nat) : keeps_started b (get_bucket i).
Proof. intros s Hs. unfold get_bucket. destruct (queue s !! i); exact Hs. Qed.

Lemma get_item_keeps_started (b : bool) (a : ItemRef) : keeps_started b (get_item a).
Proof. intros s Hs. unfold get_item. destruct (items s !! a); exact Hs. Qed.

Lemma pushHeap_list_keeps_started (b : bool) (p : nat) (bk : QueueBucket) (L : Layer) :
  keeps_started b (pushHeap_list p bk L).
Proof.
  unfold pushHeap_list.
  apply preserves_bind; [apply preserves_gets |]. intros a.
  apply preserves_bind; [apply preserves_modify; auto |]. intros _.
  destruct (bucket_size bk =? 0); [apply preserves_ret |].
  destruct (bucket_last bk) as [l |]; [| apply preserves_throw].
  apply preserves_bind; [apply get_item_keeps_started |]. intros it.
  apply preserves_bind; [apply preserves_modify; auto |]. intros _.
  apply preserves_ret.
Qed.

Lemma pushHeap_keeps_started (b : bool) (idx : nat) (stack : StackRef)
    (t : PriorityTag) (id : Z) :
  keeps_started b (pushHeap idx stack t id).
Proof.
  unfold pushHeap.
  apply preserves_bind; [apply get_bucket_keeps_started |]. intros bk.
  apply preserves_bind; [apply preserves_modify; auto |]. intros _.
  apply preserves_bind.
  - destruct ((getPriority t =? 2) || (getPriority t =? 3)).
    + apply preserves_bind; [apply preserves_modify; auto |]. intros _.
      apply preserves_ret.
    + apply pushHeap_list_keeps_started.
  - intros bk'. apply preserves_modify. auto.
Qed.

Lemma pushFirstHeapItem_keeps_started (b : bool) (t : PriorityTag) (node : GraphRef)
    (parent : option StackRef) (value : Value) :
  keeps_started b (pushFirstHeapItem t node parent value).
Proof.
  unfold pushFirstHeapItem.
  apply preserves_bind; [apply preserves_gets |]. intros a.
  apply preserves_bind; [apply preserves_modify; auto |]. intros _.
  apply pushHeap_keeps_started.
Qed.

Lemma js_index_keeps_started (b : bool) (payload : Value) (i : nat) :
  keeps_started b (js_index payload i).
Proof. intros s Hs. destruct payload; exact Hs. Qed.

Section LaunchFacts.

Variable graph_at : GraphRef → Graph.
Variable getGraph : Unit → GraphRef.

Lemma seed_array_keeps_started (b : bool) (units : list Unit) :
  ∀ i payload, keeps_started b (seed_array getGraph units i payload).
Proof.
  induction units as [| u units IH]; intros i payload; cbn [seed_array].
  - apply preserves_ret.
  - apply preserves_bind; [apply js_index_keeps_started |]. intros v.
    apply preserves_bind; [apply pushFirstHeapItem_keeps_started |]. intros _.
    apply IH.
Qed.

Lemma seed_keeps_started (b : bool) (target : Target) (payload : Value) :
  keeps_started b (seed getGraph target payload).
Proof.
  destruct target; cbn [seed].
  - apply pushFirstHeapItem_keeps_started.
  - apply seed_array_keeps_started.
Qed.

(** C6, as amended. A [launch] call whose [upsert] flag is set (the
    [defer] field, for a descriptor), made while a drain is in progress,
    does what its seeding alone does: the layers are appended to the
    queue and the drain loop is not entered. *)
Theorem launch_upsert_started (fuel : nat) (u : Graphite) (payload : Value)
    (upsert : bool) (s : State) :
  alreadyStarted s = true →
  (unpack u payload upsert).2 = true →
  launch graph_at getGraph fuel u payload upsert s
  = seed getGraph (unpack u payload upsert).1.1 (unpack u payload upsert).1.2 s.
Proof.
  intros Hstarted Hupsert. unfold launch, launch_with.
  destruct (unpack u payload upsert) as [[target payload'] upsert'].
  simpl in Hupsert. subst upsert'. simpl. unfold bind, gets.
  pose proof (seed_keeps_started true target payload' s Hstarted) as Hkeep.
  destruct (seed getGraph target payload' s) as [[] s' | e s' |]; try reflexivity.
  rewrite Hkeep. reflexivity.
Qed.

End LaunchFacts.

(** ** Seeding *)

Lemma stacks_ok_init : stacks_ok init_state.
Proof. intros a _. apply lookup_empty. Qed.

(** [pushFirstHeapItem] at one of the linked-list classes: a frame is
    allocated at the next free address and its layer appended. *)
Lemma pushFirstHeapItem_fifo (s : State) (t : PriorityTag) (node : GraphRef)
    (parent : option StackRef) (value : Value) :
  queue_ok s → stacks_ok s → fifo_index (getPriority t) →
  ∃ s', pushFirstHeapItem t node parent value s = Val tt s'
        ∧ queue_ok s' ∧ stacks_ok s'
        ∧ stacks s !! next_stack s = None
        ∧ stacks s' = <[next_stack s := first_frame node parent value]> (stacks s)
        ∧ next_stack s' = S (next_stack s)
        ∧ heap s' = heap s
        ∧ (∀ i, fifo_index i →
                bucket_layers s' i
                = bucket_layers s i
                  ++ (if decide (i = getPriority t)
                      then [first_layer t (next_stack s)] else []))
        ∧ cells s' = cells s ∧ barriers s' = barriers s
        ∧ alreadyStarted s' = alreadyStarted s ∧ console s' = console s
        ∧ trace s' = EvPush (first_layer t (next_stack s)) :: trace s.
Proof.
  intros Hq Hst Hp. unfold pushFirstHeapItem, bind, gets, modify.
  set (s1 := set_stacks (<[next_stack s := _]> (stacks s)) (S (next_stack s)) s).
  assert (Hq1 : queue_ok s1).
  { destruct Hq as [f Hrep]. exists f. destruct Hrep. split; assumption. }
  destruct (pushHeap_fifo_layers s1 0 (next_stack s) t 0 Hq1 Hp)
    as (s' & Hrun & Hq' & Hsame & Htr & Hheap & Hlayers).
  destruct Hsame as (Hs1 & Hs2 & Hs3 & Hs4 & Hs5 & Hs6).
  exists s'. split; [exact Hrun |]. split; [exact Hq' |].
  split.
  { intros a Ha. rewrite Hs1. simpl. rewrite Hs2 in Ha. simpl in Ha.
    rewrite lookup_insert_ne by lia. apply Hst. lia. }
  split; [apply Hst; lia |].
  split; [rewrite Hs1; reflexivity |].
  split; [rewrite Hs2; reflexivity |].
  split; [exact Hheap |].
  split; [exact Hlayers |].
  repeat (split; [assumption |]). exact Htr.
Qed.

Section SeedFacts.

Variable getGraph : Unit → GraphRef.

(** Seeding an array of units with an array of payloads. *)
Lemma seed_array_spec (units : list Unit) (r : nat) (vs : list Value) :
  ∀ i s,
    queue_ok s → stacks_ok s →
    ∃ s', seed_array getGraph units i (VArr r vs) s = Val tt s'
          ∧ queue_ok s' ∧ stacks_ok s'
          ∧ next_stack s' = next_stack s + length units
          ∧ bucket_layers s' 1
            = bucket_layers s 1
              ++ imap (λ k _, first_layer pure (next_stack s + k)) units
          ∧ bucket_layers s' 0 = bucket_layers s 0
          ∧ bucket_layers s' 4 = bucket_layers s 4
          ∧ heap s' = heap s
          ∧ (∀ a, a < next_stack s → stacks s' !! a = stacks s !! a)
          ∧ (∀ k u, units !! k = Some u →
                    stacks s !! (next_stack s + k) = None
                    ∧ stacks s' !! (next_stack s + k)
                      = Some (first_frame (getGraph u) None
                                (default VUndefined (vs !! (i + k)))))
          ∧ alreadyStarted s' = alreadyStarted s.
Proof.
  induction units as [| u units IH]; intros i s Hq Hst.
  - exists s. cbn [seed_array]. split; [reflexivity |].
    split; [exact Hq |]. split; [exact Hst |]. split; [simpl; lia |].
    split; [simpl; symmetry; apply app_nil_r |].
    split; [reflexivity |]. split; [reflexivity |]. split; [reflexivity |].
    split; [reflexivity |].
    split; [| reflexivity]. intros k u Hk. discriminate.
  - cbn [seed_array]. unfold bind at 1. cbn [js_index]. unfold ret at 1.
    destruct (pushFirstHeapItem_fifo s pure (getGraph u) None
                (default VUndefined (vs !! i)) Hq Hst)
      as (s1 & Hrun & Hq1 & Hst1 & Hfresh & Hstacks & Hnext & Hheap & Hlayers
          & _ & _ & Hstarted & _); [right; left; reflexivity |].
    unfold bind. rewrite Hrun.
    destruct (IH (S i) s1 Hq1 Hst1)
      as (s' & Hrun' & Hq' & Hst' & Hnext' & Hl1 & Hl0 & Hl4 & Hheap' & Hold & Hnew & Hstarted').
    exists s'. split; [exact Hrun' |]. split; [exact Hq' |]. split; [exact Hst' |].
    split; [rewrite Hnext', Hnext; simpl; lia |].
    split.
    { rewrite Hl1, (Hlayers 1) by (right; left; reflexivity).
      rewrite decide_True by reflexivity. rewrite <- app_assoc. f_equal.
      cbn [imap app]. rewrite Nat.add_0_r. f_equal.
      apply imap_ext. intros k x _. simpl. rewrite Hnext. f_equal. lia. }
    split; [rewrite Hl0, (Hlayers 0) by (left; reflexivity); apply app_nil_r |].
    split; [rewrite Hl4, (Hlayers 4) by (right; right; reflexivity); apply app_nil_r |].
    split; [congruence |].
    split.
    { intros a Ha. rewrite Hold by lia. rewrite Hstacks.
      apply lookup_insert_ne. lia. }
    split; [| congruence].
    intros k u' Hk. destruct k as [| k].
    + simpl in Hk. injection Hk as <-. rewrite !Nat.add_0_r.
      split; [exact Hfresh |]. rewrite Hold by lia. rewrite Hstacks.
      apply lookup_insert_eq.
    + simpl in Hk. destruct (Hnew k u' Hk) as [Hnone Hsome].
      rewrite Hnext in Hnone, Hsome.
      replace (next_stack s + S k) with (S (next_stack s) + k) by lia.
      replace (i + S k) with (S i + k) by lia.
      split; [| exact Hsome]. apply Hst. lia.
Qed.

(** C8. [launch] first unpacks a descriptor [{target, params, defer}]
    into its three arguments.  It then seeds: for an array of units with
    an array [payload], one layer per unit, in order, appended to the
    [pure] bucket, the layer of unit [k] starting at index [0] with a stack
    frame at an address not in use before, whose [value] is [payload[k]],
    whose [parent] is [null] and whose [node] is the graph of the unit;
    for a single unit, one such layer whose frame holds [payload]. *)
Theorem launch_seeds (s : State) :
  queue_ok s → stacks_ok s →
  (∀ exec target params defer payload upsert,
     launch_with getGraph exec (GDescriptor target params defer) payload upsert
     = launch_with getGraph exec (GTarget target) params defer)
  ∧ (∀ exec target payload upsert,
       launch_with getGraph exec (GTarget target) payload upsert
       = bind (seed getGraph target payload)
              (λ _, bind (gets alreadyStarted)
                         (λ started, if upsert && started then ret tt else exec)))
  ∧ (∀ units r vs,
       ∃ s', seed getGraph (TArray units) (VArr r vs) s = Val tt s'
             ∧ bucket_layers s' 1
               = bucket_layers s 1
                 ++ imap (λ k _, first_layer pure (next_stack s + k)) units
             ∧ ∀ k u, units !! k = Some u →
                      stacks s !! (next_stack s + k) = None
                      ∧ stacks s' !! (next_stack s + k)
                        = Some (first_frame (getGraph u) None
                                  (default VUndefined (vs !! k))))
  ∧ (∀ u payload,
       ∃ s', seed getGraph (TUnit u) payload s = Val tt s'
             ∧ bucket_layers s' 1
               = bucket_layers s 1 ++ [first_layer pure (next_stack s)]
             ∧ stacks s !! next_stack s = None
             ∧ stacks s' !! next_stack s
               = Some (first_frame (getGraph u) None payload)).
Proof.
  intros Hq Hst. split; [reflexivity |]. split; [reflexivity |]. split.
  - intros units r vs. cbn [seed].
    destruct (seed_array_spec units r vs 0 s Hq Hst)
      as (s' & Hrun & _ & _ & _ & Hl1 & _ & _ & _ & _ & Hnew & _).
    exists s'. split; [exact Hrun |]. split; [exact Hl1 |]. exact Hnew.
  - intros u payload. cbn [seed].
    destruct (pushFirstHeapItem_fifo s pure (getGraph u) None payload Hq Hst)
      as (s' & Hrun & _ & _ & Hfresh & Hstacks & _ & _ & Hlayers & _);
      [right; left; reflexivity |].
    exists s'. split; [exact Hrun |].
    split; [rewrite (Hlayers 1) by (right; left; reflexivity); reflexivity |].
    split; [exact Hfresh |]. rewrite Hstacks. apply lookup_insert_eq.
Qed.

End SeedFacts.

(** ** Worked examples *)

(** A [run] step met at position 1 by a [pure] layer that started at
    position 0 is deferred; met at position 0 by an [effect] layer, it
    is a [compute]. *)
Lemma run_step_gate_witness :
  let local := {| local_skip := false; local_fail := false;
                  local_ref := ""; local_scope := VNull |} in
  (∃ s', exec_step (λ _ _ _, ret tt) 0 7 pure Examples.empty_graph 1
           (step_run Examples.fn_incr) local init_state = Val ContinueMem s'
         ∧ bucket_layers s' 4
           = [{| layer_idx := 1; layer_stack := 7; layer_type := effect; layer_id := 0 |}])
  ∧ exec_step (λ _ _ _, ret tt) 0 7 effect Examples.empty_graph 0
      (step_run Examples.fn_incr) local init_state
    = exec_step (λ _ _ _, ret tt) 0 7 effect Examples.empty_graph 0
        (step_compute Examples.fn_incr) local init_state.
Proof.
  intros local. split.
  - destruct (run_step_gate (λ _ _ _, ret tt) 0 7 pure Examples.empty_graph 1
                Examples.fn_incr local [] init_state queue_ok_init) as [H _].
    destruct (H (or_introl (Nat.neq_succ_0 0))) as (s' & Hstep & _ & Hl4 & _).
    exists s'. split; [exact Hstep | exact Hl4].
  - destruct (run_step_gate (λ _ _ _, ret tt) 0 7 effect Examples.empty_graph 0
                Examples.fn_incr local [] init_state queue_ok_init) as [_ H].
    exact (proj1 (H eq_refl eq_refl)).
Defined.


(** Two units launched with two payloads on the loaded module. *)
Lemma launch_seeds_witness :
  ∃ s', seed Examples.getGraph (TArray [1; 3]) (VArr 0 [VNum 10; VNum 20]) init_state
        = Val tt s'
        ∧ bucket_layers s' 1 = [first_layer pure 0; first_layer pure 1]
        ∧ stacks s' !! 1 = Some (first_frame 3 None (VNum 20)).
Proof.
  destruct (launch_seeds Examples.getGraph init_state queue_ok_init stacks_ok_init)
    as (_ & _ & H & _).
  destruct (H [1; 3] 0 [VNum 10; VNum 20]) as (s' & Hrun & Hl & Hnew).
  exists s'. split; [exact Hrun |]. split; [exact Hl |].
  exact (proj2 (Hnew 1 3 eq_refl)).
Defined.

Lemma mid_drain_started : alreadyStarted Examples.mid_drain = true.
Proof. reflexivity. Qed.

(** C6, as stated, fails: in the state in which a user function runs
    during a drain, a [launch] call without [upsert] does not just append
    its layer; it enters the drain loop, which dequeues and runs the
    layer before the call returns. *)
Lemma launch_started_reenters :
  alreadyStarted Examples.mid_drain = true
  ∧ launch Examples.graph_at Examples.getGraph 9 (GTarget (TUnit 3)) (VNum 1) false
      Examples.mid_drain
    ≠ seed Examples.getGraph (TUnit 3) (VNum 1) Examples.mid_drain
  ∧ ∃ s1 s2,
      seed Examples.getGraph (TUnit 3) (VNum 1) Examples.mid_drain = Val tt s1
      ∧ launch Examples.graph_at Examples.getGraph 9 (GTarget (TUnit 3)) (VNum 1) false
          Examples.mid_drain = Val tt s2
      ∧ queue_layers s1 = [first_layer pure 1]
      ∧ queue_layers s2 = []
      ∧ head (trace s2) = Some (EvPop (first_layer pure 1)).
Proof.
  split; [reflexivity |]. split.
  - intros H.
    apply (f_equal (λ r, match r with
                         | Val _ s => length (trace s)
                         | _ => 0
                         end)) in H.
    vm_compute in H. discriminate H.
  - eexists _, _. split; [vm_compute; reflexivity |].
    split; [vm_compute; reflexivity |].
    split; [vm_compute; reflexivity |].
    split; vm_compute; reflexivity.
Qed.

(** With [upsert], the same call only seeds. *)
Lemma launch_upsert_started_witness :
  alreadyStarted Examples.mid_drain = true
  ∧ launch Examples.graph_at Examples.getGraph 9 (GTarget (TUnit 3)) (VNum 1) true
      Examples.mid_drain
    = seed Examples.getGraph (TUnit 3) (VNum 1) Examples.mid_drain.
Proof.
  split; [reflexivity |].
  exact (launch_upsert_started Examples.graph_at Examples.getGraph 9
           (GTarget (TUnit 3)) (VNum 1) true Examples.mid_drain eq_refl eq_refl).
Defined.

(** ** Failing user functions *)

Section TryRunFacts.

Variable launch_rec : Graphite → Value → bool → M unit.

(** When the user function throws, [tryRun] logs the error, sets
    [local.fail] and evaluates to [undefined]. *)
Lemma tryRun_throws (local : Local) (fn : UserFn) (stack : StackRef) (s : State)
    (fr : Stack) (err : Value) :
  stacks s !! stack = Some fr →
  fn (stack_value fr) (local_scope local) fr = FnThrow err →
  tryRun launch_rec local fn stack s
  = Val (VUndefined, set_fail true local) (set_console (err :: console s) s).
Proof.
  intros Hfr Hfn. unfold tryRun, bind, read_stack, try_catch. rewrite Hfr, Hfn.
  reflexivity.
Qed.

(** A [compute] step whose function throws stores [undefined] in
    [stack.value] and stops the loop over the steps with [meta.stop]
    set: no further step runs. *)
Lemma compute_throws_stops (idx : nat) (stack : StackRef) (type : PriorityTag)
    (graph : Graph) (stepn : nat) (fn : UserFn) (local : Local) (rest : list Step)
    (s : State) (fr : Stack) (err : Value) :
  stacks s !! stack = Some fr →
  fn (stack_value fr) (local_scope local) fr = FnThrow err →
  run_steps launch_rec idx stack type graph (step_compute fn :: rest) stepn local false s
  = Val (Finished true)
        (set_stacks (<[stack := with_value VUndefined fr]> (stacks s)) (next_stack s)
           (set_console (err :: console s) s)).
Proof.
  intros Hfr Hfn. cbn [run_steps exec_step]. unfold exec_compute, bind at 1 2.
  rewrite (tryRun_throws local fn stack s fr err Hfr Hfn).
  unfold bind, write_stack, modify, ret. cbn.
  assert (Hst : alter (with_value VUndefined) stack (stacks s)
                = <[stack := with_value VUndefined fr]> (stacks s)).
  { apply map_eq. intros a. destruct (decide (a = stack)) as [-> | Hne].
    - rewrite lookup_alter_eq, lookup_insert_eq, Hfr. reflexivity.
    - rewrite lookup_alter_ne, lookup_insert_ne by congruence. reflexivity. }
  rewrite Hst. destruct rest; reflexivity.
Qed.

(** A [filter] step whose function throws sets both flags and stops the
    loop as well; [stack.value] is left as it is. *)
Lemma filter_throws_stops (idx : nat) (stack : StackRef) (type : PriorityTag)
    (graph : Graph) (stepn : nat) (fn : UserFn) (local : Local) (rest : list Step)
    (s : State) (fr : Stack) (err : Value) :
  stacks s !! stack = Some fr →
  fn (stack_value fr) (local_scope local) fr = FnThrow err →
  run_steps launch_rec idx stack type graph (step_filter fn :: rest) stepn local false s
  = Val (Finished true) (set_console (err :: console s) s).
Proof.
  intros Hfr Hfn. cbn [run_steps exec_step]. unfold bind at 1 2.
  rewrite (tryRun_throws local fn stack s fr err Hfr Hfn).
  unfold ret. cbn. destruct rest; reflexivity.
Qed.

(** The iteration of the drain loop for a layer whose first step is a
    [compute] that throws: no child is pushed, and the loop goes on with
    the queue as [deleteMin] left it. *)
Lemma drain_continues_after_throw (graph_at : GraphRef → Graph) (n : nat)
    (s s1 : State) (v : Layer) (fr : Stack) (fn : UserFn) (rest : list Step)
    (err : Value) :
  deleteMin s = Val (Some v) s1 →
  stacks s1 !! layer_stack v = Some fr →
  drop (layer_idx v) (graph_seq (graph_at (stack_node fr))) = step_compute fn :: rest →
  fn (stack_value fr) (graph_scope (graph_at (stack_node fr))) fr = FnThrow err →
  drain graph_at launch_rec (S n) s
  = drain graph_at launch_rec n
      (set_stacks (<[layer_stack v := with_value VUndefined fr]> (stacks s1))
         (next_stack s1) (set_console (err :: console s1) s1)).
Proof.
  intros Hdel Hfr Hdrop Hfn. cbn [drain]. unfold bind at 1. rewrite Hdel.
  unfold bind at 1, exec_layer, bind at 1, read_stack. rewrite Hfr, Hdrop.
  unfold bind at 1.
  rewrite (compute_throws_stops _ _ _ _ _ fn
             {| local_skip := false; local_fail := false; local_ref := "";
                local_scope := graph_scope (graph_at (stack_node fr)) |}
             rest s1 fr err Hfr Hfn).
  reflexivity.
Qed.

End TryRunFacts.

(** C5. Units 2 and 3 are launched together with payloads 10 and 20; the
    [compute] function of unit 2 throws.  The error is written to the
    console, the layer of unit 2 stops without its child (unit 3) being
    enqueued, and the drain goes on to run the layer of unit 3.  The
    value that [tryRun] yields, which the [compute] step stores in
    [stack.value], is [undefined], not [null]. *)
Theorem failing_compute_yields_undefined :
  ∃ s',
    launch Examples.graph_at Examples.getGraph 9 (GTarget (TArray [2; 3]))
      (VArr 0 [VNum 10; VNum 20]) false init_state = Val tt s'
    ∧ console s' = [VStr "boom"]
    ∧ stack_value <$> stacks s' !! 0 = Some VUndefined
    ∧ VUndefined ≠ VNull
    ∧ strict_eq VUndefined VNull = false
    ∧ stack_value <$> stacks s' !! 1 = Some (VNum 21)
    ∧ next_stack s' = 2
    ∧ queue_layers s' = []
    ∧ rev (trace s')
      = [EvPush (first_layer pure 0); EvPush (first_layer pure 1);
         EvPop (first_layer pure 0); EvPop (first_layer pure 1)].
Proof.
  eexists. split; [vm_compute; reflexivity |].
  split; [reflexivity |]. split; [reflexivity |]. split; [discriminate |].
  split; [reflexivity |]. split; [reflexivity |]. split; [reflexivity |].
  split; reflexivity.
Qed.

(** ** Barrier coalescing *)

Lemma carries_fifo (b : Z) (l : Layer) : ¬ heap_type (layer_type l) → carries b l = false.
Proof.
  unfold carries, heap_type. intros H. destruct (layer_type l); try reflexivity;
    exfalso; apply H; auto.
Qed.

Lemma carries_heap (b : Z) (l : Layer) :
  heap_type (layer_type l) → carries b l = bool_decide (layer_id l = b).
Proof.
  unfold carries. intros [-> | ->];
    (destruct (Z.eqb_spec (layer_id l) b) as [E | E];
     [rewrite bool_decide_eq_true_2 by exact E | rewrite bool_decide_eq_false_2 by exact E];
     reflexivity).
Qed.

Section KernelFacts.

Variable graph_at : GraphRef → Graph.
Variable getGraph : Unit → GraphRef.
Hypothesis Hgraphs : barriers_to_heap graph_at.

Local Abbreviation kernel_inv := (kernel_inv graph_at).
Local Abbreviation kernel_ok := (kernel_ok graph_at).
Local Abbreviation barrier_layer := (barrier_layer graph_at).
Local Abbreviation layer_ready := (layer_ready graph_at).

Lemma kernel_inv_init : kernel_inv None init_state.
Proof.
  split.
  - apply queue_ok_init.
  - apply stacks_ok_init.
  - intros l Hl. inversion Hl.
  - constructor.
  - intros b. split.
    + intros Hb. apply elem_of_empty in Hb. contradiction.
    + intros [Hb | Hb]; [inversion Hb | discriminate].
  - intros b Hb. discriminate.
  - intros b. split; [exact I |]. split; [discriminate | intros Hb; inversion Hb].
Qed.

(** *** Frames *)

Lemma frame_node_alter (s : State) (f : Stack → Stack) (a st : StackRef) (g : GraphRef) :
  (∀ fr, stack_node (f fr) = stack_node fr) →
  frame_node s st g →
  frame_node (set_stacks (alter f a (stacks s)) (next_stack s) s) st g.
Proof.
  intros Hf (fr & Hfr & Hg). unfold frame_node. simpl.
  destruct (decide (st = a)) as [-> | Hne].
  - exists (f fr). rewrite lookup_alter_eq, Hfr. split; [reflexivity |].
    rewrite Hf. exact Hg.
  - exists fr. rewrite lookup_alter_ne by congruence. auto.
Qed.

Lemma frame_node_same_stacks (s s' : State) (st : StackRef) (g : GraphRef) :
  stacks s' = stacks s → frame_node s st g → frame_node s' st g.
Proof. intros E (fr & Hfr & Hg). exists fr. rewrite E. auto. Qed.

Lemma barrier_layer_same_stacks (s s' : State) (l : Layer) :
  stacks s' = stacks s → barrier_layer s l → barrier_layer s' l.
Proof.
  intros E (g & Hf & Hs). exists g. split; [| exact Hs].
  eapply frame_node_same_stacks; eassumption.
Qed.

(** *** The invariant under the queue operations *)

Lemma kernel_inv_same (o : option Z) (s s' : State) :
  kernel_inv o s → queue_ok s' → same_outside_queue s s' →
  heap s' = heap s → trace s' = trace s → kernel_inv o s'.
Proof.
  intros [Hq Hst Hl Hnd Hreg Hin Htr] Hq' (Hs1 & Hs2 & _ & Hs4 & _) Hheap Htrace.
  split.
  - exact Hq'.
  - intros a Ha. rewrite Hs1. apply Hst. lia.
  - intros l. rewrite Hheap. intros Hlin.
    eapply barrier_layer_same_stacks; [exact Hs1 | auto].
  - unfold heap_ids. rewrite Hheap. exact Hnd.
  - intros b. unfold heap_ids. rewrite Hs4, Hheap. apply Hreg.
  - intros b. unfold heap_ids. rewrite Hheap. apply Hin.
  - intros b. unfold heap_ids. rewrite Htrace, Hheap. apply Htr.
Qed.

(** An event about a layer that is not of the heap changes nothing. *)
Lemma kernel_inv_fifo_event (o : option Z) (s s' : State) (e : Event) (l : Layer) :
  kernel_inv o s → queue_ok s' → same_outside_queue s s' →
  heap s' = heap s → trace s' = e :: trace s →
  (e = EvPush l ∨ e = EvPop l) → ¬ heap_type (layer_type l) →
  kernel_inv o s'.
Proof.
  intros [Hq Hst Hl Hnd Hreg Hin Htr] Hq' (Hs1 & Hs2 & _ & Hs4 & _) Hheap Htrace He Hty.
  split.
  - exact Hq'.
  - intros a Ha. rewrite Hs1. apply Hst. lia.
  - intros l'. rewrite Hheap. intros Hlin.
    eapply barrier_layer_same_stacks; [exact Hs1 | auto].
  - unfold heap_ids. rewrite Hheap. exact Hnd.
  - intros b. unfold heap_ids. rewrite Hs4, Hheap. apply Hreg.
  - intros b. unfold heap_ids. rewrite Hheap. apply Hin.
  - intros b. unfold heap_ids. rewrite Htrace, Hheap.
    destruct (Htr b) as [Hfree Hpend].
    destruct He as [-> | ->]; cbn [pushed_when_free pending];
      rewrite (carries_fifo b l Hty); simpl.
    + split; [split; [discriminate | exact Hfree] | exact Hpend].
    + split; [exact Hfree | exact Hpend].
Qed.

Lemma queue_ok_frame (s s' : State) :
  queue_ok s → queue s' = queue s → items s' = items s →
  next_item s' = next_item s → heap s' = heap s → queue_ok s'.
Proof.
  intros [f [H1 H2 H3 H4 H5 H6 H7 H8]] Eq Ei En Eh. exists f.
  split; rewrite ?Eq, ?Ei, ?En, ?Eh; assumption.
Qed.

(** Changes outside the queue, the registry and the history keep the
    invariant as long as the frames keep their graphs. *)
Lemma kernel_inv_frame (o : option Z) (s s' : State) :
  kernel_inv o s →
  queue s' = queue s → items s' = items s → next_item s' = next_item s →
  heap s' = heap s → trace s' = trace s → barriers s' = barriers s →
  stacks_ok s' →
  (∀ st g, frame_node s st g → frame_node s' st g) →
  kernel_inv o s'.
Proof.
  intros [Hq Hst Hl Hnd Hreg Hin Htr] Eq Ei En Eh Et Eb Hst' Hfr.
  split.
  - eapply queue_ok_frame; eassumption.
  - exact Hst'.
  - intros l. rewrite Eh. intros Hlin. destruct (Hl l Hlin) as (g & Hf & Hs).
    exists g. split; [apply Hfr; exact Hf | exact Hs].
  - unfold heap_ids. rewrite Eh. exact Hnd.
  - intros b. unfold heap_ids. rewrite Eb, Eh. apply Hreg.
  - intros b. unfold heap_ids. rewrite Eh. apply Hin.
  - intros b. unfold heap_ids. rewrite Et, Eh. apply Htr.
Qed.

Lemma kernel_ok_frame (F : StackRef → GraphRef → Prop) (s s' : State) :
  kernel_ok F s →
  queue s' = queue s → items s' = items s → next_item s' = next_item s →
  heap s' = heap s → trace s' = trace s → barriers s' = barriers s →
  stacks_ok s' →
  (∀ st g, frame_node s st g → frame_node s' st g) →
  kernel_ok F s'.
Proof.
  intros [Hinv HF] Eq Ei En Eh Et Eb Hst' Hfr. split.
  - eapply kernel_inv_frame; eassumption.
  - intros st g Hg. apply Hfr, HF, Hg.
Qed.

(** *** Computations that keep the invariant *)

Lemma read_stack_ok {I : State → Prop} (st : StackRef) : preserves I (read_stack st).
Proof. intros s Hs. unfold read_stack. destruct (stacks s !! st); exact Hs. Qed.

Lemma reg_lookup_ok {I : State → Prop} (graph : Graph) (id : string) :
  preserves I (reg_lookup graph id).
Proof. intros s Hs. unfold reg_lookup. destruct (graph_reg graph !! id); exact Hs. Qed.

Lemma readRef_ok {I : State → Prop} (c : CellRef) : preserves I (readRef c).
Proof. apply preserves_gets. Qed.

Lemma write_stack_ok (F : StackRef → GraphRef → Prop) (st : StackRef) (f : Stack → Stack) :
  (∀ fr, stack_node (f fr) = stack_node fr) →
  preserves (kernel_ok F) (write_stack st f).
Proof.
  intros Hf. apply preserves_modify. intros s Hs.
  eapply kernel_ok_frame; try exact Hs; try reflexivity.
  - intros a Ha. simpl in *. destruct Hs as [[_ Hst _ _ _ _ _] _].
    destruct (decide (a = st)) as [-> | Hne].
    + rewrite lookup_alter_eq, (Hst st Ha). reflexivity.
    + rewrite lookup_alter_ne by congruence. apply Hst. exact Ha.
  - intros st' g. apply frame_node_alter. exact Hf.
Qed.

Lemma set_cells_ok (F : StackRef → GraphRef → Prop) (g : State → gmap CellRef Value) :
  preserves (kernel_ok F) (modify (λ s, set_cells (g s) s)).
Proof.
  apply preserves_modify. intros s Hs.
  eapply kernel_ok_frame; try exact Hs; try reflexivity.
  - destruct Hs as [[_ Hst _ _ _ _ _] _]. exact Hst.
  - auto.
Qed.

Lemma console_error_ok (F : StackRef → GraphRef → Prop) (err : Value) :
  preserves (kernel_ok F) (console_error err).
Proof.
  apply preserves_modify. intros s Hs.
  eapply kernel_ok_frame; try exact Hs; try reflexivity.
  - destruct Hs as [[_ Hst _ _ _ _ _] _]. exact Hst.
  - auto.
Qed.

Lemma set_alreadyStarted_ok (F : StackRef → GraphRef → Prop) (b : bool) :
  preserves (kernel_ok F) (modify (set_alreadyStarted b)).
Proof.
  apply preserves_modify. intros s Hs.
  eapply kernel_ok_frame; try exact Hs; try reflexivity.
  - destruct Hs as [[_ Hst _ _ _ _ _] _]. exact Hst.
  - auto.
Qed.

Lemma js_index_ok {I : State → Prop} (payload : Value) (i : nat) :
  preserves I (js_index payload i).
Proof. intros s Hs. destruct payload; exact Hs. Qed.

(** A push into a linked list. *)
Lemma pushHeap_fifo_ok (F : StackRef → GraphRef → Prop) (idx : nat) (stack : StackRef)
    (t : PriorityTag) (id : Z) :
  fifo_index (getPriority t) →
  preserves (kernel_ok F) (pushHeap idx stack t id).
Proof.
  intros Hp s [Hinv HF].
  destruct (pushHeap_fifo_layers s idx stack t id (inv_queue _ _ _ Hinv) Hp)
    as (s' & Hrun & Hq' & Hsame & Htr & Hheap & _).
  rewrite Hrun. split.
  - eapply kernel_inv_fifo_event; try eassumption.
    + left. reflexivity.
    + simpl. apply fifo_index_not_heap. exact Hp.
  - intros st g Hg. destruct Hsame as (Hs1 & _).
    eapply frame_node_same_stacks; [exact Hs1 | apply HF, Hg].
Qed.

(** A new frame with its layer pushed into a linked list; the frame is
    known to exist afterwards. *)
Lemma pushFirstHeapItem_ok (F : StackRef → GraphRef → Prop) (t : PriorityTag)
    (node : GraphRef) (parent : option StackRef) (value : Value) :
  fifo_index (getPriority t) →
  preserves (kernel_ok F) (pushFirstHeapItem t node parent value).
Proof.
  intros Hp s Hs. unfold pushFirstHeapItem, bind, gets, modify.
  apply (pushHeap_fifo_ok F 0 (next_stack s) t 0 Hp).
  pose proof Hs as [[_ Hst _ _ _ _ _] _].
  eapply kernel_ok_frame; try exact Hs; try reflexivity.
  - intros a Ha. simpl in *. rewrite lookup_insert_ne by lia. apply Hst. lia.
  - intros st g (fr & Hfr & Hg). exists fr. split; [| exact Hg]. simpl.
    rewrite lookup_insert_ne; [exact Hfr |].
    intros <-. rewrite (Hst (next_stack s)) in Hfr by lia. discriminate.
Qed.

(** *** The barrier step *)

Lemma heap_ids_push (s s' : State) (L : Layer) :
  heap s' = merge (heap s) (HNode L HNull HNull) →
  heap_ids s' ≡ₚ heap_ids s ++ [layer_id L].
Proof.
  intros E. unfold heap_ids. rewrite E, merge_layers, fmap_app. reflexivity.
Qed.

(** The checkpoint branch of a barrier step: the layer is pushed unless
    its id is registered. *)
Lemma barrier_checkpoint_ok (F : StackRef → GraphRef → Prop) (stepn : nat)
    (stack : StackRef) (priority : PriorityTag) (id : Z) (g : GraphRef) :
  heap_type priority →
  graph_seq (graph_at g) !! stepn = Some (step_barrier id priority) →
  F stack g →
  preserves (kernel_ok F)
    (registered <- gets (λ s, bool_decide (id ∈ barriers s)) ;
     _ <- (if registered then ret tt
           else
             _ <- modify (λ s, set_barriers ({[id]} ∪ barriers s) s) ;
             pushHeap stepn stack priority id) ;
     ret ContinueMem).
Proof.
  intros Hprio Hstep HFs s Hs. unfold bind at 1, gets.
  destruct (bool_decide (id ∈ barriers s)) eqn:Hreg.
  { exact Hs. }
  apply bool_decide_eq_false in Hreg.
  destruct Hs as [[Hq Hst Hl Hnd Hregistry Hin Htr] HF].
  unfold bind, modify.
  set (s1 := set_barriers ({[id]} ∪ barriers s) s).
  destruct Hq as [f Hrep].
  assert (Hrep1 : queue_rep s1 f) by (destruct Hrep; split; assumption).
  destruct (pushHeap_heap s1 f stepn stack priority id Hrep1 Hprio)
    as (s' & Hrun & (Hs1 & Hs2 & _ & Hs4 & _) & Htrace & Hheap & Hrep').
  rewrite Hrun. unfold ret.
  set (L := {| layer_idx := stepn; layer_stack := stack;
               layer_type := priority; layer_id := id |}) in *.
  assert (Hids : heap_ids s' ≡ₚ heap_ids s ++ [id]) by (apply (heap_ids_push s1 s' L Hheap)).
  assert (Hfresh : id ∉ heap_ids s).
  { intros Hid. apply Hreg. apply Hregistry. left. exact Hid. }
  split; [split |].
  - exists f. exact Hrep'.
  - intros a Ha. rewrite Hs1. apply Hst. rewrite Hs2 in Ha. exact Ha.
  - intros l Hlin. rewrite Hheap, merge_layers in Hlin.
    apply elem_of_app in Hlin as [Hlin | Hlin].
    + eapply barrier_layer_same_stacks; [exact Hs1 | apply Hl, Hlin].
    + apply list_elem_of_singleton in Hlin. subst l. exists g. split.
      * eapply frame_node_same_stacks; [exact Hs1 | apply HF, HFs].
      * exact Hstep.
  - rewrite Hids. apply NoDup_app. split; [exact Hnd |]. split.
    + intros x Hx Hx'. apply list_elem_of_singleton in Hx'. subst x. contradiction.
    + apply NoDup_singleton.
  - intros b. rewrite Hs4, Hids. subst s1. simpl.
    rewrite elem_of_union, elem_of_singleton, elem_of_app, list_elem_of_singleton.
    rewrite Hregistry. split; [| tauto]. intros [-> | [? | ?]]; auto.
  - intros b Hb. discriminate.
  - intros b. rewrite Htrace, Hids. subst s1. simpl.
    destruct (Htr b) as [Hfree Hpend].
    rewrite (carries_heap b L Hprio). simpl.
    destruct (decide (id = b)) as [<- | Hne].
    + rewrite bool_decide_eq_true_2 by reflexivity. simpl.
      split; [split; [| exact Hfree] |].
      * intros _. destruct (pending id (trace s)) eqn:E; [| reflexivity].
        exfalso. apply Hfresh, Hpend. reflexivity.
      * split; [intros _ | reflexivity]. apply elem_of_app. right. left.
    + rewrite bool_decide_eq_false_2 by exact Hne. simpl.
      split; [split; [discriminate | exact Hfree] |].
      rewrite Hpend, elem_of_app, list_elem_of_singleton. split; [tauto |].
      intros [? | ?]; [assumption | congruence].
  - intros st g' Hg'. eapply frame_node_same_stacks; [exact Hs1 | apply HF, Hg'].
Qed.

(** The other branch: the id of the layer that has just been dequeued is
    removed from the registry. *)
Lemma barrier_pass_ok (id : Z) (s : State) :
  kernel_inv (Some id) s → kernel_inv None (set_barriers (barriers s ∖ {[id]}) s).
Proof.
  intros [Hq Hst Hl Hnd Hreg Hin Htr]. split.
  - eapply queue_ok_frame; [exact Hq | reflexivity ..].
  - exact Hst.
  - exact Hl.
  - exact Hnd.
  - intros b. simpl. rewrite elem_of_difference, elem_of_singleton, Hreg.
    split.
    + intros [[? | E] Hne]; [left; assumption | congruence].
    + intros [Hb | ?]; [| discriminate]. split; [left; exact Hb |].
      intros ->. exact (Hin id eq_refl Hb).
  - intros b Hb. discriminate.
  - exact Htr.
Qed.

(** *** Dequeueing *)

Lemma deleteMin_ok (F : StackRef → GraphRef → Prop) :
  triple (kernel_ok F) deleteMin
    (λ res s', match res with
               | None => kernel_ok F s'
               | Some v => layer_ready F v s'
               end)
    (kernel_ok F).
Proof.
  intros s [Hinv HF]. pose proof Hinv as [[f Hrep] Hst Hl Hnd Hreg Hin Htr].
  destruct (deleteMin_spec s f Hrep) as (res & s' & Hrun & Hsame & Hres).
  rewrite Hrun. destruct res as [v |].
  2: { destruct Hres as [-> _]. split; assumption. }
  destruct Hres as [Htrace Hcase].
  pose proof Hsame as (Hs1 & Hs2 & _ & Hs4 & _).
  split.
  { intros st g Hg. eapply frame_node_same_stacks; [exact Hs1 | apply HF, Hg]. }
  destruct Hcase as [(i & a & rest & Hi & Hfi & Hheap & Hrep' & _)
                    | (l & r & Hheap & Hheap' & Hrep' & _)].
  - assert (Hv : getPriority (layer_type v) = i).
    { apply (rep_layer_priority s f i v Hrep Hi). rewrite Hfi, fmap_cons. left. }
    assert (Hty : ¬ heap_type (layer_type v)).
    { apply fifo_index_not_heap. rewrite Hv. exact Hi. }
    left. split; [exact Hty |].
    eapply kernel_inv_fifo_event; try eassumption.
    + eexists. exact Hrep'.
    + right. reflexivity.
  - assert (Hty : heap_type (layer_type v)).
    { pose proof (rep_heap_types _ _ Hrep) as Ht. rewrite Hheap in Ht.
      apply Forall_cons in Ht as [Ht _]. exact Ht. }
    assert (Hids : heap_ids s ≡ₚ layer_id v :: heap_ids s').
    { unfold heap_ids. rewrite Hheap, Hheap', merge_layers. reflexivity. }
    assert (Hnd' : (layer_id v ∉ heap_ids s') ∧ NoDup (heap_ids s')).
    { rewrite Hids in Hnd. apply NoDup_cons in Hnd. exact Hnd. }
    destruct Hnd' as [Hfresh Hnd'].
    assert (Hbl : barrier_layer s' v).
    { eapply barrier_layer_same_stacks; [exact Hs1 |]. apply Hl. rewrite Hheap. left. }
    right. split; [exact Hty |]. split; [| exact Hbl]. split.
    + eexists. exact Hrep'.
    + intros a' Ha. rewrite Hs1. apply Hst. rewrite Hs2 in Ha. exact Ha.
    + intros x Hx. eapply barrier_layer_same_stacks; [exact Hs1 |]. apply Hl.
      rewrite Hheap. right. rewrite Hheap', merge_layers in Hx. exact Hx.
    + exact Hnd'.
    + intros b. rewrite Hs4, Hreg, Hids, elem_of_cons. split.
      * intros [[-> | ?] | ?]; [right; reflexivity | left; assumption | discriminate].
      * intros [? | E]; [left; right; assumption |]. injection E as ->. left. left. reflexivity.
    + intros b E. injection E as <-. exact Hfresh.
    + intros b. rewrite Htrace. destruct (Htr b) as [Hfree Hpend].
      cbn [pushed_when_free pending]. split; [exact Hfree |].
      rewrite (carries_heap b v Hty).
      destruct (decide (layer_id v = b)) as [<- | Hne].
      * rewrite bool_decide_eq_true_2 by reflexivity. simpl.
        split; [discriminate | intros Hb; contradiction].
      * rewrite bool_decide_eq_false_2 by exact Hne. simpl.
        rewrite Hpend, Hids, elem_of_cons. split; [| tauto].
        intros [? | ?]; [congruence | assumption].
Qed.

(** *** User functions *)

Section InterpreterFacts.

Variable launch_rec : Graphite → Value → bool → M unit.
Hypothesis launch_rec_ok :
  ∀ F u payload upsert, preserves (kernel_ok F) (launch_rec u payload upsert).

Lemma run_fn_ok (F : StackRef → GraphRef → Prop) (body : FnBody) :
  preserves (kernel_ok F) (run_fn launch_rec body).
Proof.
  induction body as [v | err | u payload upsert k IH]; cbn [run_fn].
  - apply preserves_ret.
  - apply preserves_throw.
  - apply preserves_bind; [apply launch_rec_ok | intros _; exact IH].
Qed.

Lemma tryRun_ok (F : StackRef → GraphRef → Prop) (local : Local) (fn : UserFn)
    (stack : StackRef) :
  preserves (kernel_ok F) (tryRun launch_rec local fn stack).
Proof.
  unfold tryRun. apply preserves_bind; [apply read_stack_ok |]. intros fr.
  apply preserves_try_catch.
  - apply preserves_bind; [apply run_fn_ok |]. intros v. apply preserves_ret.
  - intros err. apply preserves_bind; [apply console_error_ok |]. intros _.
    apply preserves_ret.
Qed.

Lemma exec_compute_ok (F : StackRef → GraphRef → Prop) (stack : StackRef)
    (fn : UserFn) (local : Local) :
  preserves (kernel_ok F) (exec_compute launch_rec stack fn local).
Proof.
  unfold exec_compute. apply preserves_bind; [apply tryRun_ok |]. intros [r local'].
  apply preserves_bind; [apply write_stack_ok; reflexivity |]. intros _.
  apply preserves_ret.
Qed.

(** *** Steps *)

(** A step that is not the barrier step at which a heap layer resumes. *)
Lemma exec_step_ok (F : StackRef → GraphRef → Prop) (idx : nat) (stack : StackRef)
    (type : PriorityTag) (g : GraphRef) (stepn : nat) (step : Step) (local : Local) :
  F stack g →
  graph_seq (graph_at g) !! stepn = Some step →
  idx < stepn ∨ ¬ heap_type type →
  preserves (kernel_ok F)
    (exec_step launch_rec idx stack type (graph_at g) stepn step local).
Proof.
  intros HFs Hstep Hpos. destruct step as [id priority | from to | ty | fn | fn | fn];
    cbn [exec_step].
  - assert (Hprio : heap_type priority) by (eapply Hgraphs; exact Hstep).
    assert (Hcond : negb (stepn =? idx) || negb (bool_decide (type = priority)) = true).
    { destruct Hpos as [Hlt | Hty].
      - replace (stepn =? idx) with false by (symmetry; apply Nat.eqb_neq; lia).
        reflexivity.
      - rewrite bool_decide_eq_false_2; [apply orb_true_r |].
        intros ->. contradiction. }
    rewrite Hcond. eapply barrier_checkpoint_ok; eassumption.
  - apply preserves_bind.
    + destruct from; cbn [mov_from];
        try (apply preserves_bind; [apply read_stack_ok |]; intros fr; apply preserves_ret).
      * apply preserves_ret.
      * apply preserves_bind; [apply reg_lookup_ok |]. intros c. apply readRef_ok.
    + intros value. apply preserves_bind; [| intros _; apply preserves_ret].
      destruct to; cbn [mov_to]; try (apply write_stack_ok; reflexivity).
      apply preserves_bind; [apply reg_lookup_ok |]. intros c.
      apply (set_cells_ok F (λ s, <[c := value]> (cells s))).
  - destruct ty as [| id].
    + apply preserves_bind; [apply read_stack_ok |]. intros fr. apply preserves_ret.
    + apply preserves_bind; [apply read_stack_ok |]. intros fr.
      apply preserves_bind; [apply reg_lookup_ok |]. intros c.
      apply preserves_bind; [apply readRef_ok |]. intros v. apply preserves_ret.
  - apply preserves_bind; [apply tryRun_ok |]. intros [r local'].
    apply preserves_ret.
  - destruct (negb (stepn =? idx) || negb (bool_decide (type = effect))).
    + apply preserves_bind; [| intros _; apply preserves_ret].
      apply pushHeap_fifo_ok. right. right. reflexivity.
    + apply exec_compute_ok.
  - apply exec_compute_ok.
Qed.

Lemma run_steps_ok (F : StackRef → GraphRef → Prop) (idx : nat) (stack : StackRef)
    (type : PriorityTag) (g : GraphRef) (steps : list Step) :
  F stack g →
  ∀ stepn local stop,
    steps = drop stepn (graph_seq (graph_at g)) →
    idx < stepn ∨ ¬ heap_type type →
    preserves (kernel_ok F)
      (run_steps launch_rec idx stack type (graph_at g) steps stepn local stop).
Proof.
  intros HFs. induction steps as [| step rest IH]; intros stepn local stop Hsteps Hpos;
    cbn [run_steps].
  - apply preserves_ret.
  - destruct stop; [apply preserves_ret |].
    assert (Hstep : graph_seq (graph_at g) !! stepn = Some step).
    { rewrite <- (Nat.add_0_r stepn), <- lookup_drop, <- Hsteps. reflexivity. }
    apply preserves_bind; [apply exec_step_ok; assumption |].
    intros [local' |]; [| apply preserves_ret].
    apply IH.
    + rewrite (drop_S _ _ _ Hstep) in Hsteps. congruence.
    + destruct Hpos as [? | ?]; [left; lia | right; assumption].
Qed.

(** The loop over the children. *)
Lemma fan_out_ok (F : StackRef → GraphRef → Prop) (children : list GraphRef)
    (stack : StackRef) :
  preserves (kernel_ok F) (fan_out children stack).
Proof.
  induction children as [| node rest IH]; cbn [fan_out].
  - apply preserves_ret.
  - apply preserves_bind; [apply read_stack_ok |]. intros fr.
    apply preserves_bind; [| intros _; exact IH].
    apply pushFirstHeapItem_ok. left. reflexivity.
Qed.

(** *** One iteration of the drain loop *)

Lemma exec_layer_ok (F : StackRef → GraphRef → Prop) (v : Layer) :
  triple (layer_ready F v) (exec_layer graph_at launch_rec v)
         (λ _, kernel_ok F) (kernel_ok F).
Proof.
  intros s [HF Hcase]. unfold exec_layer, bind at 1, read_stack.
  destruct Hcase as [[Hty Hinv] | (Hty & Hinv & (g & (fr & Hfr & Hg) & Hstep))].
  - destruct (stacks s !! layer_stack v) as [fr |] eqn:Hfr; [| split; assumption].
    set (F' := λ st g, F st g ∨ (st = layer_stack v ∧ g = stack_node fr)).
    assert (Hok : kernel_ok F' s).
    { split; [exact Hinv |]. intros st g [Hg | [-> ->]]; [apply HF, Hg |].
      exists fr. auto. }
    assert (Hweak : ∀ s', kernel_ok F' s' → kernel_ok F s').
    { intros s' [Hinv' HF']. split; [exact Hinv' |].
      intros st g Hg. apply HF'. left. exact Hg. }
    eapply (triple_conseq _ (kernel_ok F') _ _ (λ _, kernel_ok F') _ (kernel_ok F'));
      [| intros s0 Hs0; exact Hs0 | intros a s0; apply Hweak | apply Hweak | exact Hok].
    apply preserves_bind.
    + apply (run_steps_ok F'); [right; auto | reflexivity | right; exact Hty].
    + intros [| stop]; [apply preserves_ret |].
      destruct stop; [apply preserves_ret | apply fan_out_ok].
  - rewrite Hfr. rewrite Hg.
    rewrite (drop_S _ _ _ Hstep). cbn [run_steps exec_step].
    assert (Hcond : negb (layer_idx v =? layer_idx v)
                    || negb (bool_decide (layer_type v = layer_type v)) = false).
    { rewrite Nat.eqb_refl, bool_decide_eq_true_2 by reflexivity. reflexivity. }
    rewrite Hcond.
    set (s1 := set_barriers (barriers s ∖ {[layer_id v]}) s).
    set (F' := λ st g', F st g' ∨ (st = layer_stack v ∧ g' = g)).
    assert (Hok : kernel_ok F' s1).
    { split; [apply barrier_pass_ok; exact Hinv |].
      intros st g' [Hg' | [-> ->]]; [apply HF, Hg' |]. exists fr. auto. }
    assert (Hweak : ∀ s', kernel_ok F' s' → kernel_ok F s').
    { intros s' [Hinv' HF']. split; [exact Hinv' |].
      intros st g' Hg'. apply HF'. left. exact Hg'. }
    set (local := {| local_skip := false; local_fail := false; local_ref := "";
                     local_scope := graph_scope (graph_at g) |}).
    assert (Hrest : triple (kernel_ok F')
              (bind (run_steps launch_rec (layer_idx v) (layer_stack v) (layer_type v)
                       (graph_at g) (drop (S (layer_idx v)) (graph_seq (graph_at g)))
                       (S (layer_idx v)) local false)
                    (λ o, match o with
                          | Finished false =>
                              fan_out (graph_next (graph_at g)) (layer_stack v)
                          | _ => ret tt
                          end))
              (λ _, kernel_ok F) (kernel_ok F)).
    { eapply (triple_conseq _ (kernel_ok F') _ _ (λ _, kernel_ok F') _ (kernel_ok F'));
        [| intros s0 Hs0; exact Hs0 | intros a s0; apply Hweak | apply Hweak].
      apply preserves_bind.
      + apply (run_steps_ok F'); [right; auto | reflexivity | left; lia].
      + intros [| stop]; [apply preserves_ret |].
        destruct stop; [apply preserves_ret | apply fan_out_ok]. }
    exact (Hrest s1 Hok).
Qed.

Lemma drain_ok (F : StackRef → GraphRef → Prop) (n : nat) :
  preserves (kernel_ok F) (drain graph_at launch_rec n).
Proof.
  induction n as [| n IH]; cbn [drain].
  - intros s Hs. exact I.
  - apply (triple_bind _ _ (λ res s', match res with
                                      | None => kernel_ok F s'
                                      | Some v => layer_ready F v s'
                                      end));
      [apply deleteMin_ok |].
    intros res. destruct res as [v |].
    + apply (triple_bind _ _ (λ _, kernel_ok F)); [apply exec_layer_ok |].
      intros _. exact IH.
    + apply triple_ret. auto.
Qed.

End InterpreterFacts.

(** *** The driver *)

Lemma seed_array_ok (F : StackRef → GraphRef → Prop) (units : list Unit) :
  ∀ i payload, preserves (kernel_ok F) (seed_array getGraph units i payload).
Proof.
  induction units as [| u units IH]; intros i payload; cbn [seed_array].
  - apply preserves_ret.
  - apply preserves_bind; [apply js_index_ok |]. intros v.
    apply preserves_bind; [| intros _; apply IH].
    apply pushFirstHeapItem_ok. right. left. reflexivity.
Qed.

Lemma seed_ok (F : StackRef → GraphRef → Prop) (target : Target) (payload : Value) :
  preserves (kernel_ok F) (seed getGraph target payload).
Proof.
  destruct target; cbn [seed].
  - apply pushFirstHeapItem_ok. right. left. reflexivity.
  - apply seed_array_ok.
Qed.

Lemma launch_with_ok (F : StackRef → GraphRef → Prop) (exec : M unit)
    (u : Graphite) (payload : Value) (upsert : bool) :
  preserves (kernel_ok F) exec →
  preserves (kernel_ok F) (launch_with getGraph exec u payload upsert).
Proof.
  intros Hexec. unfold launch_with.
  destruct (unpack u payload upsert) as [[target payload'] upsert'].
  apply preserves_bind; [apply seed_ok |]. intros _.
  apply preserves_bind; [apply preserves_gets |]. intros started.
  destruct (upsert' && started); [apply preserves_ret | exact Hexec].
Qed.

Lemma exec_ok (fuel : nat) :
  ∀ F, preserves (kernel_ok F) (exec graph_at getGraph fuel).
Proof.
  induction fuel as [| n IH]; intros F; cbn [exec].
  - intros s Hs. exact I.
  - apply preserves_bind; [apply preserves_gets |]. intros lastStartedState.
    apply preserves_bind; [apply set_alreadyStarted_ok |]. intros _.
    apply preserves_bind; [| intros _; apply set_alreadyStarted_ok].
    apply drain_ok. intros F' u payload upsert. apply launch_with_ok. apply IH.
Qed.

Lemma launch_ok (F : StackRef → GraphRef → Prop) (fuel : nat) (u : Graphite)
    (payload : Value) (upsert : bool) :
  preserves (kernel_ok F) (launch graph_at getGraph fuel u payload upsert).
Proof. apply launch_with_ok, exec_ok. Qed.

Lemma run_launches_ok (fuel : nat) (calls : list (Graphite * Value * bool)) :
  ∀ s s', kernel_inv None s →
          run_launches graph_at getGraph fuel calls s = Some s' →
          kernel_inv None s'.
Proof.
  induction calls as [| [[u payload] upsert] rest IH]; intros s s' Hs Hrun;
    cbn [run_launches] in Hrun.
  - injection Hrun as <-. exact Hs.
  - assert (Hok : kernel_ok (λ _ _, False) s) by (split; [exact Hs | intros ? ? []]).
    pose proof (launch_ok _ fuel u payload upsert s Hok) as Hl.
    destruct (launch graph_at getGraph fuel u payload upsert s) as [[] s1 | e s1 |];
      [| | discriminate]; apply (IH s1 s' (proj1 Hl) Hrun).
Qed.

End KernelFacts.




Lemma examples_barriers_to_heap : barriers_to_heap Examples.graph_at.
Proof.
  intros g i b p H.
  destruct g as [| [| [| [| [| [| g]]]]]]; simpl in H;
    destruct i as [| [| [| [| i]]]]; simpl in H; try discriminate;
    injection H as <- <-; [left | right]; reflexivity.
Qed.



(** ** More about the id generators *)

Module GeneratorFacts.
Import Refcount RefcountFacts.

(** X17. The two generators draw from the same ids: in any interleaving
    of calls started from the loaded module, a call to [nextUnitID] and a
    call to [nextStepID] that are each the [n]-th call to their generator
    return the same string.  An id is unique among the ids of its own
    generator only. *)
Theorem generators_share_ids (ks : list Gen) (i j : nat) :
  ks !! i = Some UnitGen → ks !! j = Some StepGen →
  calls_to UnitGen (take (S i) ks) = calls_to StepGen (take (S j) ks) →
  run_calls ks generators_init !! i = run_calls ks generators_init !! j.
Proof.
  intros Hi Hj Hn.
  rewrite (run_calls_lookup ks generators_init i UnitGen Hi).
  rewrite (run_calls_lookup ks generators_init j StepGen Hj).
  rewrite Hn. reflexivity.
Qed.

(** The second call to each generator returns ["2"]. *)
Lemma generators_share_ids_witness :
  let ks := [UnitGen; StepGen; StepGen; UnitGen] in
  run_calls ks generators_init !! 3 = run_calls ks generators_init !! 2
  ∧ run_calls ks generators_init !! 3 = Some "2".
Proof.
  split; [|reflexivity].
  exact (generators_share_ids [UnitGen; StepGen; StepGen; UnitGen] 3 2
           eq_refl eq_refl eq_refl).
Defined.

End GeneratorFacts.

(** ** More about the skew heap *)

Lemma heap_size_layers (h : Heap) : heap_size h = length (heap_layers h).
Proof.
  induction h as [|v l IHl r IHr]; simpl; [reflexivity|].
  rewrite length_app. lia.
Qed.

(** X1. [merge] keeps the layers of its two arguments, each as many
    times as it occurs in them: the layers of the result are a
    permutation of the layers of both heaps, and the sizes add up. *)
Theorem merge_conserves (a b : Heap) :
  heap_layers (merge a b) ≡ₚ heap_layers a ++ heap_layers b
  ∧ heap_size (merge a b) = heap_size a + heap_size b.
Proof.
  pose proof (merge_layers a b) as H. split; [exact H|].
  rewrite !heap_size_layers, H, length_app. reflexivity.
Qed.

(** X2. The merge of two ordered heaps of [barrier] and [sampler] layers
    is ordered, and the layer at its root is not after any layer of the
    two heaps: [barrier] layers before [sampler] layers, and among layers
    of one type the smallest id. *)
Theorem merge_root_least (a b : Heap) :
  Forall (λ l, heap_type (layer_type l)) (heap_layers a) →
  Forall (λ l, heap_type (layer_type l)) (heap_layers b) →
  heap_ordered a → heap_ordered b →
  heap_ordered (merge a b)
  ∧ ∀ v l r, merge a b = HNode v l r →
             Forall (layer_le v) (heap_layers a ++ heap_layers b).
Proof.
  intros Ha Hb Oa Ob.
  pose proof (merge_ordered a b Ha Hb Oa Ob) as Ho. split; [exact Ho|].
  intros v l r E. rewrite E in Ho. apply heap_ordered_root in Ho.
  rewrite <- E in Ho. rewrite <- (merge_layers a b). exact Ho.
Qed.

(** Two sampler layers merged with a barrier layer. *)
Lemma merge_root_least_witness :
  let L i t := {| layer_idx := 0; layer_stack := 0; layer_type := t; layer_id := i |} in
  let a := HNode (L 1%Z sampler) (HNode (L 4%Z sampler) HNull HNull) HNull in
  let b := HNode (L 7%Z barrier) HNull HNull in
  heap_ordered (merge a b)
  ∧ ∀ v l r, merge a b = HNode v l r →
             Forall (layer_le v) (heap_layers a ++ heap_layers b).
Proof.
  intros L a b. apply merge_root_least.
  - simpl. apply Forall_cons. split; [right; reflexivity|].
    apply Forall_singleton. right. reflexivity.
  - apply Forall_singleton. left. reflexivity.
  - simpl. repeat split; auto. apply Forall_singleton. left. simpl. split; [reflexivity|lia].
  - simpl. repeat split; auto.
Defined.

(** ** The queue as a collection of layers *)

Lemma perm_snoc_0 {A} (a b c d : list A) (x : A) :
  (a ++ [x]) ++ b ++ c ++ d ≡ₚ (a ++ b ++ c ++ d) ++ [x].
Proof. rewrite <- !Permutation_cons_append. reflexivity. Qed.

Lemma perm_snoc_1 {A} (a b c d : list A) (x : A) :
  a ++ (b ++ [x]) ++ c ++ d ≡ₚ (a ++ b ++ c ++ d) ++ [x].
Proof.
  rewrite <- !Permutation_cons_append. cbn [app].
  rewrite <- Permutation_middle. reflexivity.
Qed.

Lemma perm_snoc_2 {A} (a b c d : list A) (x : A) :
  a ++ b ++ (c ++ [x]) ++ d ≡ₚ (a ++ b ++ c ++ d) ++ [x].
Proof.
  rewrite <- !Permutation_cons_append. cbn [app].
  rewrite <- !Permutation_middle. reflexivity.
Qed.

Lemma perm_snoc_3 {A} (a b c d : list A) (x : A) :
  a ++ b ++ c ++ (d ++ [x]) ≡ₚ (a ++ b ++ c ++ d) ++ [x].
Proof. rewrite !app_assoc. reflexivity. Qed.

Lemma perm_cons_1 {A} (a b c d : list A) (x : A) :
  a ++ (x :: b) ++ c ++ d ≡ₚ x :: a ++ b ++ c ++ d.
Proof. cbn [app]. rewrite <- Permutation_middle. reflexivity. Qed.

Lemma perm_cons_2 {A} (a b c d : list A) (x : A) :
  a ++ b ++ (x :: c) ++ d ≡ₚ x :: a ++ b ++ c ++ d.
Proof. cbn [app]. rewrite <- !Permutation_middle. reflexivity. Qed.

Lemma perm_cons_3 {A} (a b c d : list A) (x : A) :
  a ++ b ++ c ++ (x :: d) ≡ₚ x :: a ++ b ++ c ++ d.
Proof. rewrite <- !Permutation_middle. reflexivity. Qed.

Lemma pushHeap_layers (s : State) (f : nat → list (ItemRef * Layer))
    (idx : nat) (stack : StackRef) (t : PriorityTag) (id : Z) :
  queue_rep s f →
  ∃ s' f', pushHeap idx stack t id s = Val tt s'
        ∧ queue_rep s' f'
        ∧ same_outside_queue s s'
        ∧ queue_layers s'
          ≡ₚ queue_layers s ++ [{| layer_idx := idx; layer_stack := stack;
                                   layer_type := t; layer_id := id |}].
Proof.
  intros Hrep.
  destruct (pushHeap_spec s f idx stack t id Hrep)
    as (s' & f' & Hrun & Hout & _ & Hrep' & Hcase).
  exists s', f'. split; [exact Hrun|]. split; [exact Hrep'|]. split; [exact Hout|].
  rewrite (queue_rep_layers _ _ Hrep'), (queue_rep_layers _ _ Hrep).
  destruct Hcase as [(_ & -> & ->) | (Hfifo & -> & ->)].
  - rewrite merge_layers. cbn [heap_layers app]. apply perm_snoc_2.
  - destruct t; cbn [getPriority] in *;
      try (exfalso; unfold fifo_index in Hfifo; lia);
      rewrite ?fn_lookup_insert, ?fn_lookup_insert_ne by lia;
      rewrite ?fn_lookup_insert;
      rewrite fmap_app; cbn [fmap list_fmap snd].
    + apply perm_snoc_0.
    + apply perm_snoc_1.
    + apply perm_snoc_3.
Qed.

Lemma dequeue_le_or_first (v L : Layer) :
  dequeue_le v L ∨ dequeues_first L v.
Proof.
  unfold dequeue_le, dequeues_first.
  destruct (lt_eq_lt_dec (getPriority (layer_type v)) (getPriority (layer_type L)))
    as [[Hlt | Heq] | Hgt].
  - left. left. exact Hlt.
  - apply getPriority_inj in Heq.
    destruct (Z_le_gt_dec (layer_id v) (layer_id L)) as [Hle | Hgt].
    + left. right. split; [exact Heq | intros _; exact Hle].
    + destruct (fifo_index_cases (layer_type v)) as [Hf | Hh].
      * left. right. split; [exact Heq|]. intros Hh.
        exfalso. exact (fifo_index_not_heap _ Hf Hh).
      * right. right. rewrite <- Heq. split; [exact Hh|]. split; [reflexivity | lia].
  - right. left. exact Hgt.
Qed.

Lemma deleteMin_layers (s : State) (f : nat → list (ItemRef * Layer)) :
  queue_rep s f →
  ∃ res s' f', deleteMin s = Val res s'
    ∧ queue_rep s' f'
    ∧ same_outside_queue s s'
    ∧ match res with
      | None => s' = s ∧ queue_layers s = []
      | Some v => queue_layers s ≡ₚ v :: queue_layers s'
                  ∧ ∀ L, L ∈ queue_layers s → dequeue_le v L
      end.
Proof.
  intros Hrep.
  destruct (deleteMin_spec s f Hrep) as (res & s' & Hrun & Hout & Hres).
  destruct (deleteMin_rep s s' f res Hrep Hrun) as [f' Hrep'].
  exists res, s', f'. split; [exact Hrun|]. split; [exact Hrep'|]. split; [exact Hout|].
  destruct res as [v|].
  - split.
    + destruct Hres as (_ & [(i & a & rest & Hi & Hfi & Hheap & Hrepi & _)
                           | (l & r & Hh & Hh' & Hrepi & _)]).
      * rewrite (queue_rep_layers _ _ Hrepi), (queue_rep_layers _ _ Hrep), Hheap.
        destruct Hi as [-> | [-> | ->]];
          rewrite ?fn_lookup_insert, ?fn_lookup_insert_ne by lia;
          rewrite ?fn_lookup_insert; rewrite Hfi; cbn [fmap list_fmap snd].
        -- reflexivity.
        -- apply perm_cons_1.
        -- apply perm_cons_3.
      * rewrite (queue_rep_layers _ _ Hrepi), (queue_rep_layers _ _ Hrep), Hh, Hh'.
        rewrite merge_layers. cbn [heap_layers]. apply perm_cons_2.
    + intros L HL. destruct (dequeue_le_or_first v L) as [Hle | Hfirst]; [exact Hle|].
      exfalso.
      destruct (deleteMin_first s s' f v L v Hrep Hrun HL Hfirst) as [Hne _].
      apply Hne. reflexivity.
  - destruct Hres as (-> & Hf & Hh). split; [reflexivity|].
    rewrite (queue_rep_layers _ _ Hrep), Hh.
    rewrite (Hf 0), (Hf 1), (Hf 4) by (unfold fifo_index; lia). reflexivity.
Qed.

Lemma run_ops_layers (ops : list QueueOp) :
  ∀ s f popped s',
    queue_rep s f → run_ops ops s = Val popped s' →
    queue_layers s ++ all_pushed ops ≡ₚ popped ++ queue_layers s'.
Proof.
  induction ops as [|[idx stack t id|] ops IH]; intros s f popped s' Hrep Hrun.
  - cbn in Hrun. injection Hrun as <- <-. cbn. rewrite app_nil_r. reflexivity.
  - destruct (pushHeap_layers s f idx stack t id Hrep) as (s1 & f1 & Hp & Hrep1 & _ & Hl).
    cbn [run_ops] in Hrun. unfold bind in Hrun. rewrite Hp in Hrun.
    specialize (IH s1 f1 popped s' Hrep1 Hrun).
    rewrite <- IH, Hl. cbn [all_pushed omap list_omap]. 
    rewrite <- app_assoc. reflexivity.
  - destruct (deleteMin_layers s f Hrep) as (res & s1 & f1 & Hp & Hrep1 & _ & Hres).
    cbn [run_ops] in Hrun. unfold bind in Hrun. rewrite Hp in Hrun.
    destruct (run_ops ops s1) as [popped1 s2| |] eqn:Hrest; try discriminate.
    cbn in Hrun. injection Hrun as <- <-.
    specialize (IH s1 f1 popped1 s2 Hrep1 Hrest).
    cbn [all_pushed omap list_omap]. fold (all_pushed ops).
    destruct res as [v|].
    + destruct Hres as [Hl _]. rewrite Hl. cbn [app]. rewrite <- IH. reflexivity.
    + destruct Hres as [-> _]. exact IH.
Qed.

Lemma reachable_rep (pre : list QueueOp) (popped : list Layer) (s : State) :
  run_ops pre init_state = Val popped s → ∃ f, queue_rep s f.
Proof. intros H. exact (run_ops_rep pre _ _ _ _ queue_rep_init H). Qed.

(** X5. The queue neither loses nor invents a layer: after any sequence
    of [pushHeap] and [deleteMin] calls on the loaded module, the layers
    pushed are, up to their order, the layers dequeued together with the
    layers still queued. *)
Theorem queue_conserves_layers (ops : list QueueOp) :
  ∃ popped s,
    run_ops ops init_state = Val popped s
    ∧ all_pushed ops ≡ₚ popped ++ queue_layers s
    ∧ length popped + length (queue_layers s) = length (all_pushed ops).
Proof.
  destruct (run_ops_total ops init_state _ queue_rep_init) as (popped & s & f' & Hrun & _).
  exists popped, s. split; [exact Hrun|].
  pose proof (run_ops_layers ops _ _ _ _ queue_rep_init Hrun) as H.
  change (queue_layers init_state) with (@nil Layer) in H. cbn [app] in H.
  split; [exact H|]. rewrite H, length_app. reflexivity.
Qed.

(** X4. In a state reached by [pushHeap] and [deleteMin] calls,
    [deleteMin] does not throw; it returns [undefined] exactly when no
    layer is queued, and then leaves the state as it is; otherwise it
    returns a queued layer, and one layer fewer is queued. *)
Theorem deleteMin_empty (pre : list QueueOp) (popped : list Layer) (s : State) :
  run_ops pre init_state = Val popped s →
  ∃ res s', deleteMin s = Val res s'
    ∧ (res = None ↔ queue_layers s = [])
    ∧ (res = None → s' = s)
    ∧ (∀ v, res = Some v → v ∈ queue_layers s
            ∧ length (queue_layers s') + 1 = length (queue_layers s)).
Proof.
  intros Hpre. destruct (reachable_rep _ _ _ Hpre) as [f Hrep].
  destruct (deleteMin_layers s f Hrep) as (res & s' & f' & Hrun & _ & _ & Hres).
  exists res, s'. split; [exact Hrun|].
  destruct res as [v|].
  - destruct Hres as [Hl _]. split; [|split].
    + split; [discriminate|]. intros E. rewrite E in Hl.
      apply Permutation_nil_l in Hl. discriminate.
    + discriminate.
    + intros v' [= <-]. split.
      * rewrite Hl. left.
      * rewrite Hl. cbn. lia.
  - destruct Hres as [-> Hl]. split; [|split].
    + split; auto.
    + reflexivity.
    + discriminate.
Qed.

(** An effect layer and a barrier layer are queued: the barrier layer
    comes out. *)
Lemma deleteMin_empty_witness :
  ∃ s res s',
    run_ops [OpPush 0 1 effect 0; OpPush 2 1 barrier 4] init_state = Val [] s
    ∧ deleteMin s = Val res s'
    ∧ res = Some {| layer_idx := 2; layer_stack := 1; layer_type := barrier; layer_id := 4 |}
    ∧ (res = None ↔ queue_layers s = [])
    ∧ length (queue_layers s') + 1 = length (queue_layers s).
Proof.
  eexists.
  match goal with |- ∃ res s', ?Q ∧ _ =>
    assert (Hq : Q) by (vm_compute; reflexivity) end.
  destruct (deleteMin_empty _ _ _ Hq) as (res & s' & Hd & Hiff & _ & Hsome).
  exists res, s'. split; [exact Hq|]. split; [exact Hd|].
  assert (Hres : res = Some {| layer_idx := 2; layer_stack := 1;
                               layer_type := barrier; layer_id := 4 |}).
  { vm_compute in Hd. injection Hd as <- _. reflexivity. }
  split; [exact Hres|]. split; [exact Hiff|].
  exact (proj2 (Hsome _ Hres)).
Defined.

(** X3. In a state reached by [pushHeap] and [deleteMin] calls in which
    no layer is queued, [pushHeap] followed by [deleteMin] returns the
    layer just pushed, whatever its class, leaves the queue empty again
    and changes nothing outside the queue. *)
Theorem push_pop_round_trip (pre : list QueueOp) (popped : list Layer) (s : State)
    (idx : nat) (stack : StackRef) (t : PriorityTag) (id : Z) :
  run_ops pre init_state = Val popped s →
  queue_layers s = [] →
  ∃ s1 s2,
    pushHeap idx stack t id s = Val tt s1
    ∧ deleteMin s1
      = Val (Some {| layer_idx := idx; layer_stack := stack;
                     layer_type := t; layer_id := id |}) s2
    ∧ queue_layers s2 = []
    ∧ same_outside_queue s s2.
Proof.
  intros Hpre Hempty. destruct (reachable_rep _ _ _ Hpre) as [f Hrep].
  destruct (pushHeap_layers s f idx stack t id Hrep) as (s1 & f1 & Hp & Hrep1 & Ho1 & Hl1).
  destruct (deleteMin_layers s1 f1 Hrep1) as (res & s2 & f2 & Hd & _ & Ho2 & Hres).
  exists s1, s2. rewrite Hempty in Hl1. cbn [app] in Hl1.
  destruct res as [v|].
  - destruct Hres as [Hl _]. rewrite Hl1 in Hl.
    assert (Hlen : length (queue_layers s2) = 0).
    { apply Permutation_length in Hl. cbn in Hl. lia. }
    apply nil_length_inv in Hlen. rewrite Hlen in Hl.
    apply Permutation_singleton_l in Hl. injection Hl as <-.
    split; [exact Hp|]. split; [exact Hd|]. split; [exact Hlen|].
    exact (same_outside_queue_trans _ _ _ Ho1 Ho2).
  - destruct Hres as [_ Hl]. rewrite Hl in Hl1. apply Permutation_nil_l in Hl1.
    discriminate.
Qed.

(** A barrier layer pushed and dequeued after the queue has been used and
    emptied. *)
Lemma push_pop_round_trip_witness :
  ∃ s s1 s2,
    run_ops [OpPush 0 1 pure 0; OpPush 2 1 sampler 9; OpPop; OpPop] init_state
    = Val [{| layer_idx := 0; layer_stack := 1; layer_type := pure; layer_id := 0 |};
           {| layer_idx := 2; layer_stack := 1; layer_type := sampler; layer_id := 9 |}] s
    ∧ pushHeap 3 4 barrier 5 s = Val tt s1
    ∧ deleteMin s1
      = Val (Some {| layer_idx := 3; layer_stack := 4;
                     layer_type := barrier; layer_id := 5 |}) s2
    ∧ queue_layers s2 = []
    ∧ same_outside_queue s s2.
Proof.
  eexists.
  match goal with |- ∃ s1 s2, ?Q ∧ _ =>
    assert (Hq : Q) by (vm_compute; reflexivity) end.
  destruct (push_pop_round_trip _ _ _ 3 4 barrier 5 Hq eq_refl) as (s1 & s2 & H1 & H2 & H3 & H4).
  exists s1, s2. repeat split; try assumption; apply H4.
Defined.

(** ** Sizes of the buckets *)

Lemma filter_type_none (t : PriorityTag) (ls : list Layer) :
  (∀ x, x ∈ ls → layer_type x ≠ t) → filter (λ l, layer_type l = t) ls = [].
Proof.
  induction ls as [|x ls IH]; intros H; [reflexivity|].
  rewrite filter_cons_False by (apply H; left).
  apply IH. intros y Hy. apply H. right. exact Hy.
Qed.

Lemma filter_type_all (t : PriorityTag) (ls : list Layer) :
  (∀ x, x ∈ ls → layer_type x = t) → filter (λ l, layer_type l = t) ls = ls.
Proof.
  induction ls as [|x ls IH]; intros H; [reflexivity|].
  rewrite filter_cons_True by (apply H; left).
  f_equal. apply IH. intros y Hy. apply H. right. exact Hy.
Qed.

Lemma rep_filter_fifo (s : State) (f : nat → list (ItemRef * Layer)) (i : nat)
    (t : PriorityTag) :
  queue_rep s f → fifo_index i →
  filter (λ l, layer_type l = t) ((f i).*2)
  = if decide (i = getPriority t) then (f i).*2 else [].
Proof.
  intros Hrep Hi. destruct (decide (i = getPriority t)) as [E | NE].
  - apply filter_type_all. intros x Hx.
    apply getPriority_inj. rewrite <- E. exact (rep_layer_priority s f i x Hrep Hi Hx).
  - apply filter_type_none. intros x Hx Ht. apply NE. rewrite <- Ht.
    symmetry. exact (rep_layer_priority s f i x Hrep Hi Hx).
Qed.

Lemma rep_bucket_size (s : State) (f : nat → list (ItemRef * Layer)) (t : PriorityTag) :
  queue_rep s f →
  ∃ b, queue s !! getPriority t = Some b
       ∧ bucket_size b = length (filter (λ l, layer_type l = t) (queue_layers s)).
Proof.
  intros Hrep. rewrite (queue_rep_layers _ _ Hrep), !filter_app, !length_app.
  rewrite !(rep_filter_fifo s f _ t Hrep) by (unfold fifo_index; lia).
  destruct (fifo_index_cases t) as [Hf | Hh].
  - destruct (rep_fifo s f Hrep _ Hf) as (b & Hb & Hsz & _).
    exists b. split; [exact Hb|]. rewrite Hsz.
    rewrite (filter_type_none t (heap_layers (heap s))).
    2:{ intros x Hx Ht. apply (fifo_index_not_heap t Hf). rewrite <- Ht.
        pose proof (rep_heap_types s f Hrep) as Hty.
        rewrite Forall_forall in Hty. exact (Hty x Hx). }
    destruct t; cbn [getPriority] in *;
      try (exfalso; unfold fifo_index in Hf; lia);
      repeat (destruct (decide _); try lia);
      rewrite ?length_fmap; cbn [length]; lia.
  - destruct Hh as [-> | ->]; cbn [getPriority];
      repeat (destruct (decide _); try lia); cbn [length].
    + destruct (rep_barriers s f Hrep) as (b & Hb & Hsz). exists b.
      split; [exact Hb|]. rewrite Hsz. lia.
    + destruct (rep_samplers s f Hrep) as (b & Hb & Hsz). exists b.
      split; [exact Hb|]. rewrite Hsz. lia.
Qed.

(** X6. After any sequence of [pushHeap] and [deleteMin] calls on the
    loaded module, the [size] of the bucket of a class is the number of
    queued layers of that class; this holds of buckets 2 and 3 too, whose
    layers are in the shared heap. *)
Theorem bucket_size_counts (ops : list QueueOp) (t : PriorityTag) :
  ∃ popped s b,
    run_ops ops init_state = Val popped s
    ∧ queue s !! getPriority t = Some b
    ∧ bucket_size b = length (filter (λ l, layer_type l = t) (queue_layers s)).
Proof.
  destruct (run_ops_total ops init_state _ queue_rep_init) as (popped & s & f' & Hrun & Hrep).
  destruct (rep_bucket_size s f' t Hrep) as (b & Hb & Hsz).
  exists popped, s, b. auto.
Qed.

(** ** Emptying the queue *)

Lemma pop_all_sorted (n : nat) :
  ∀ s f, queue_rep s f → length (queue_layers s) = n →
    ∃ popped s' f',
      run_ops (replicate n OpPop) s = Val popped s'
      ∧ queue_rep s' f'
      ∧ popped ≡ₚ queue_layers s
      ∧ queue_layers s' = []
      ∧ same_outside_queue s s'
      ∧ ∀ i j a b, i < j → popped !! i = Some a → popped !! j = Some b →
                   dequeue_le a b.
Proof.
  induction n as [|n IH]; intros s f Hrep Hlen.
  - exists [], s, f. cbn. split; [reflexivity|]. split; [exact Hrep|].
    apply nil_length_inv in Hlen. rewrite Hlen.
    split; [reflexivity|]. split; [reflexivity|].
    split; [apply same_outside_queue_refl|]. intros i j a b _ Hi. discriminate.
  - destruct (deleteMin_layers s f Hrep) as (res & s1 & f1 & Hd & Hrep1 & Ho1 & Hres).
    destruct res as [v|].
    2:{ destruct Hres as [_ E]. rewrite E in Hlen. discriminate. }
    destruct Hres as [Hl Hmin].
    assert (Hlen1 : length (queue_layers s1) = n).
    { apply Permutation_length in Hl. cbn in Hl. lia. }
    destruct (IH s1 f1 Hrep1 Hlen1) as (popped & s' & f' & Hrun & Hrep' & Hp & He & Ho & Hs).
    exists (v :: popped), s', f'.
    split. { cbn [replicate run_ops]. unfold bind. rewrite Hd, Hrun. reflexivity. }
    split; [exact Hrep'|].
    split. { rewrite Hl, Hp. reflexivity. }
    split; [exact He|].
    split; [exact (same_outside_queue_trans _ _ _ Ho1 Ho)|].
    intros i j a b Hij Hi Hj. destruct j as [|j]; [lia|].
    cbn in Hj. destruct i as [|i].
    + cbn in Hi. injection Hi as <-. apply Hmin. rewrite Hl. right.
      rewrite <- Hp. exact (list_elem_of_lookup_2 _ _ _ Hj).
    + cbn in Hi. apply (Hs i j); [lia | exact Hi | exact Hj].
Qed.

(** X7. After any sequence of [pushHeap] and [deleteMin] calls on the
    loaded module, as many [deleteMin] calls as there are queued layers
    return these layers, each once, and leave the queue empty; they
    return them class by class in the order of the priorities, and the
    layers of the [barrier] class and of the [sampler] class by
    increasing id. *)
Theorem pop_all_in_order (ops : list QueueOp) :
  ∃ popped0 s popped s',
    run_ops ops init_state = Val popped0 s
    ∧ run_ops (replicate (length (queue_layers s)) OpPop) s = Val popped s'
    ∧ popped ≡ₚ queue_layers s
    ∧ queue_layers s' = []
    ∧ ∀ i j a b, i < j → popped !! i = Some a → popped !! j = Some b →
                 dequeue_le a b.
Proof.
  destruct (run_ops_total ops init_state _ queue_rep_init) as (popped0 & s & f & Hrun & Hrep).
  destruct (pop_all_sorted _ s f Hrep eq_refl) as (popped & s' & _ & Hp & _ & H1 & H2 & _ & H3).
  exists popped0, s, popped, s'. auto.
Qed.

(** ** Branches that stop *)

Section BranchFacts.

Variable graph_at : GraphRef → Graph.
Variable launch_rec : Graphite → Value → bool → M unit.

(** X8. When the first step that a dequeued layer runs sets
    [local.skip] (a [check] on a value that is [undefined] or equal to
    the ref cell, a [filter] whose function returns a falsy value),
    the iteration of the drain loop ends there: the steps after it are
    not run, nothing is delivered to the children of the graph and the
    state is left as it is. *)
Theorem skip_ends_layer (v : Layer) (s : State) (fr : Stack) (step : Step)
    (rest : list Step) :
  stacks s !! layer_stack v = Some fr →
  drop (layer_idx v) (graph_seq (graph_at (stack_node fr))) = step :: rest →
  skips (graph_at (stack_node fr)) (graph_scope (graph_at (stack_node fr))) fr s step →
  exec_layer graph_at launch_rec v s = Val tt s.
Proof.
  intros Hfr Hdrop Hskip. unfold exec_layer, bind at 1, read_stack. rewrite Hfr.
  rewrite Hdrop. cbn [run_steps].
  destruct step as [id priority | from to | [|id] | fn | fn | fn]; try contradiction;
    cbn [skips] in Hskip; cbn [exec_step].
  - unfold bind, read_stack. rewrite Hfr. cbn. rewrite Hskip. cbn.
    destruct rest; reflexivity.
  - destruct Hskip as (c & Hc & Heq).
    unfold bind, read_stack, reg_lookup. rewrite Hfr, Hc. cbn. rewrite Heq. cbn.
    destruct rest; reflexivity.
  - destruct Hskip as (r & Hfn & Hr).
    unfold bind, tryRun, bind, read_stack, try_catch. rewrite Hfr. cbn [local_scope].
    rewrite Hfn. cbn. rewrite Hr. cbn. destruct rest; reflexivity.
Qed.

End BranchFacts.

(** An [undefined] value stops at [check defined]: the [compute] step
    after it is not run and the child gets nothing. *)
Lemma skip_ends_layer_witness :
  let s := set_stacks {[7 := first_frame 0 None VUndefined]} 8 init_state in
  let g (r : GraphRef) :=
    {| graph_seq := [step_check check_defined; step_compute Examples.fn_incr];
       graph_next := [3]; graph_reg := ∅; graph_scope := VNull |} in
  exec_layer g (λ _ _ _, ret tt) (first_layer pure 7) s = Val tt s.
Proof.
  intros s g.
  apply (skip_ends_layer g (λ _ _ _, ret tt) (first_layer pure 7) s
           (first_frame 0 None VUndefined) (step_check check_defined)
           [step_compute Examples.fn_incr]); reflexivity.
Defined.

(** ** Delivery to the children *)

Lemma fan_out_spec (children : list GraphRef) (stack : StackRef) (fr : Stack) :
  ∀ s,
    queue_ok s → stacks_ok s → stacks s !! stack = Some fr →
    ∃ s', fan_out children stack s = Val tt s'
          ∧ queue_ok s' ∧ stacks_ok s'
          ∧ next_stack s' = next_stack s + length children
          ∧ bucket_layers s' 0
            = bucket_layers s 0
              ++ imap (λ k _, first_layer child (next_stack s + k)) children
          ∧ bucket_layers s' 1 = bucket_layers s 1
          ∧ bucket_layers s' 4 = bucket_layers s 4
          ∧ heap s' = heap s
          ∧ (∀ a, a < next_stack s → stacks s' !! a = stacks s !! a)
          ∧ (∀ k node, children !! k = Some node →
                       stacks s !! (next_stack s + k) = None
                       ∧ stacks s' !! (next_stack s + k)
                         = Some (first_frame node (Some stack) (stack_value fr)))
          ∧ cells s' = cells s ∧ barriers s' = barriers s
          ∧ alreadyStarted s' = alreadyStarted s ∧ console s' = console s.
Proof.
  induction children as [|node children IH]; intros s Hq Hst Hfr.
  - exists s. cbn [fan_out]. split; [reflexivity|].
    split; [exact Hq|]. split; [exact Hst|]. split; [simpl; lia|].
    split; [simpl; symmetry; apply app_nil_r|].
    split; [reflexivity|]. split; [reflexivity|]. split; [reflexivity|].
    split; [reflexivity|].
    split; [intros k u Hk; discriminate|]. repeat split.
  - assert (Hlt : stack < next_stack s).
    { destruct (decide (stack < next_stack s)) as [? | Hge]; [assumption|].
      rewrite (Hst stack) in Hfr by lia. discriminate. }
    cbn [fan_out]. unfold bind at 1, read_stack. rewrite Hfr.
    destruct (pushFirstHeapItem_fifo s child node (Some stack) (stack_value fr) Hq Hst)
      as (s1 & Hrun & Hq1 & Hst1 & Hfresh & Hstacks & Hnext & Hheap & Hlayers
          & Hc1 & Hb1 & Hstarted & Hcon1 & _); [left; reflexivity|].
    unfold bind. rewrite Hrun.
    assert (Hfr1 : stacks s1 !! stack = Some fr).
    { rewrite Hstacks, lookup_insert_ne by lia. exact Hfr. }
    destruct (IH s1 Hq1 Hst1 Hfr1)
      as (s' & Hrun' & Hq' & Hst' & Hnext' & Hl0 & Hl1 & Hl4 & Hheap' & Hold & Hnew
          & Hc' & Hb' & Hstarted' & Hcon').
    exists s'. split; [exact Hrun'|]. split; [exact Hq'|]. split; [exact Hst'|].
    split; [rewrite Hnext', Hnext; simpl; lia|].
    split.
    { rewrite Hl0, (Hlayers 0) by (left; reflexivity).
      rewrite decide_True by reflexivity. rewrite <- app_assoc. f_equal.
      cbn [imap app]. rewrite Nat.add_0_r. f_equal.
      apply imap_ext. intros k x _. simpl. rewrite Hnext. f_equal. lia. }
    split; [rewrite Hl1, (Hlayers 1) by (right; left; reflexivity); apply app_nil_r|].
    split; [rewrite Hl4, (Hlayers 4) by (right; right; reflexivity); apply app_nil_r|].
    split; [congruence|].
    split.
    { intros a Ha. rewrite Hold by lia. rewrite Hstacks.
      apply lookup_insert_ne. lia. }
    split; [|repeat split; congruence].
    intros k u' Hk. destruct k as [|k].
    + simpl in Hk. injection Hk as <-. rewrite !Nat.add_0_r.
      split; [exact Hfresh|]. rewrite Hold by lia. rewrite Hstacks.
      apply lookup_insert_eq.
    + simpl in Hk. destruct (Hnew k u' Hk) as [Hnone Hsome].
      rewrite Hnext in Hnone, Hsome.
      replace (next_stack s + S k) with (S (next_stack s) + k) by lia.
      split; [|exact Hsome]. apply Hst. lia.
Qed.

(** X9. The loop over [graph.next] pushes one layer per child, in the
    order of [graph.next], at the end of the [child] bucket; the layer of
    a child starts at index [0] on a frame at an address not in use
    before, whose [value] is the [value] of the parent frame, whose
    [parent] is the parent frame and whose [node] is the child.  The
    frames that exist, the other buckets, the heap, the ref cells and the
    registry of barriers are left as they are. *)
Theorem fan_out_delivers (children : list GraphRef) (stack : StackRef) (fr : Stack)
    (s : State) :
  queue_ok s → stacks_ok s → stacks s !! stack = Some fr →
  ∃ s', fan_out children stack s = Val tt s'
        ∧ bucket_layers s' 0
          = bucket_layers s 0
            ++ imap (λ k _, first_layer child (next_stack s + k)) children
        ∧ (∀ k node, children !! k = Some node →
                     stacks s !! (next_stack s + k) = None
                     ∧ stacks s' !! (next_stack s + k)
                       = Some (first_frame node (Some stack) (stack_value fr)))
        ∧ (∀ a, a < next_stack s → stacks s' !! a = stacks s !! a)
        ∧ bucket_layers s' 1 = bucket_layers s 1
        ∧ bucket_layers s' 4 = bucket_layers s 4
        ∧ heap s' = heap s
        ∧ cells s' = cells s ∧ barriers s' = barriers s.
Proof.
  intros Hq Hst Hfr.
  destruct (fan_out_spec children stack fr s Hq Hst Hfr)
    as (s' & Hrun & _ & _ & _ & Hl0 & Hl1 & Hl4 & Hheap & Hold & Hnew & Hc & Hb & _).
  exists s'. repeat (split; [assumption|]). assumption.
Qed.

(** A frame with two children. *)
Lemma fan_out_delivers_witness :
  ∃ s s',
    seed Examples.getGraph (TUnit 1) (VNum 5) init_state = Val tt s
    ∧ fan_out [3; 0] 0 s = Val tt s'
    ∧ bucket_layers s' 0 = [first_layer child 1; first_layer child 2]
    ∧ stacks s' !! 2 = Some (first_frame 0 (Some 0) (VNum 5)).
Proof.
  destruct (pushFirstHeapItem_fifo init_state pure 1 None (VNum 5)
              queue_ok_init stacks_ok_init (or_intror (or_introl eq_refl)))
    as (s & Hrun & Hq & Hst & _ & Hstacks & Hnext & _ & Hlayers & _).
  assert (Hfr : stacks s !! 0 = Some (first_frame 1 None (VNum 5))).
  { rewrite Hstacks. apply lookup_insert_eq. }
  destruct (fan_out_delivers [3; 0] 0 _ s Hq Hst Hfr)
    as (s' & Hfan & Hl0 & Hnew & _).
  exists s, s'. split; [exact Hrun|]. split; [exact Hfan|]. split.
  - rewrite Hl0, (Hlayers 0) by (left; reflexivity). rewrite Hnext. reflexivity.
  - destruct (Hnew 1 0 eq_refl) as [_ H]. rewrite Hnext in H. exact H.
Defined.

(** ** What the kernel leaves alone *)

Section StableFacts.

Variable graph_at : GraphRef → Graph.
Variable getGraph : Unit → GraphRef.

(** A property of the state that the writes of the kernel keep: any
    write to the queue, the heap, the registry, the console and the
    history; the allocation of a frame; an assignment to [value], [a] or
    [b] of a frame; the writes to ref cells that the [mov] steps of the
    graphs can make; and the two assignments to [alreadyStarted]. *)
Variable Inv : State → Prop.
Hypothesis Inv_queue : ∀ s q, Inv s → Inv (set_queue q s).
Hypothesis Inv_items : ∀ s m n, Inv s → Inv (set_items m n s).
Hypothesis Inv_heap : ∀ s h, Inv s → Inv (set_heap h s).
Hypothesis Inv_trace : ∀ s t, Inv s → Inv (set_trace t s).
Hypothesis Inv_barriers : ∀ s b, Inv s → Inv (set_barriers b s).
Hypothesis Inv_console : ∀ s c, Inv s → Inv (set_console c s).
Hypothesis Inv_alloc : ∀ s fr,
  Inv s → Inv (set_stacks (<[next_stack s := fr]> (stacks s)) (S (next_stack s)) s).
Hypothesis Inv_write : ∀ s st f,
  (∀ fr, stack_node (f fr) = stack_node fr ∧ stack_parent (f fr) = stack_parent fr) →
  Inv s → Inv (set_stacks (alter f st (stacks s)) (next_stack s) s).
Hypothesis Inv_cells : ∀ s g from id c v,
  step_mov from (to_store id) ∈ graph_seq (graph_at g) →
  graph_reg (graph_at g) !! id = Some c →
  Inv s → Inv (set_cells (<[c := v]> (cells s)) s).
Hypothesis Inv_start : ∀ s, Inv s → Inv (set_alreadyStarted true s).
Hypothesis Inv_restore : ∀ s0 s, Inv s0 → Inv s → Inv (set_alreadyStarted (alreadyStarted s0) s).

Lemma get_bucket_stable (i : nat) : preserves Inv (get_bucket i).
Proof. intros s Hs. unfold get_bucket. destruct (queue s !! i); exact Hs. Qed.

Lemma set_bucket_stable (i : nat) (b : QueueBucket) : preserves Inv (set_bucket i b).
Proof. apply preserves_modify. intros s. apply Inv_queue. Qed.

Lemma get_item_stable (a : ItemRef) : preserves Inv (get_item a).
Proof. intros s Hs. unfold get_item. destruct (items s !! a); exact Hs. Qed.

Lemma log_event_stable (e : Event) : preserves Inv (log_event e).
Proof. apply preserves_modify. intros s. apply Inv_trace. Qed.

Lemma deleteMin_from_stable (n : nat) : ∀ i, preserves Inv (deleteMin_from n i).
Proof.
  induction n as [|n IH]; intros i; cbn [deleteMin_from].
  - apply preserves_ret.
  - apply preserves_bind; [apply get_bucket_stable|]. intros list.
    destruct (0 <? bucket_size list); [|apply IH].
    apply preserves_bind.
    + destruct ((i =? 2) || (i =? 3)).
      * unfold deleteMin_heap.
        apply preserves_bind; [apply set_bucket_stable|]. intros _.
        apply preserves_bind; [apply preserves_gets|]. intros h.
        destruct h as [|v l r]; [apply preserves_throw|].
        apply preserves_bind; [|intros _; apply preserves_ret].
        apply preserves_modify. intros s. apply Inv_heap.
      * unfold deleteMin_list.
        apply preserves_bind; [apply set_bucket_stable|]. intros _.
        destruct (bucket_first list) as [a|]; [|apply preserves_throw].
        apply preserves_bind; [apply get_item_stable|]. intros item.
        apply preserves_bind; [apply set_bucket_stable|]. intros _.
        apply preserves_ret.
    + intros value. apply preserves_bind; [apply log_event_stable|]. intros _.
      apply preserves_ret.
Qed.

Lemma deleteMin_stable : preserves Inv deleteMin.
Proof. apply deleteMin_from_stable. Qed.

Lemma pushHeap_stable (idx : nat) (stack : StackRef) (t : PriorityTag) (id : Z) :
  preserves Inv (pushHeap idx stack t id).
Proof.
  unfold pushHeap.
  apply preserves_bind; [apply get_bucket_stable|]. intros bucket.
  apply preserves_bind; [apply log_event_stable|]. intros _.
  apply preserves_bind; [|intros b'; apply set_bucket_stable].
  destruct ((getPriority t =? 2) || (getPriority t =? 3)).
  - apply preserves_bind; [|intros _; apply preserves_ret].
    apply preserves_modify. intros s. apply Inv_heap.
  - unfold pushHeap_list.
    apply preserves_bind; [apply preserves_gets|]. intros a.
    apply preserves_bind; [apply preserves_modify; intros s; apply Inv_items|]. intros _.
    destruct (bucket_size bucket =? 0); [apply preserves_ret|].
    destruct (bucket_last bucket) as [l|]; [|apply preserves_throw].
    apply preserves_bind; [apply get_item_stable|]. intros it.
    apply preserves_bind; [apply preserves_modify; intros s; apply Inv_items|]. intros _.
    apply preserves_ret.
Qed.

Lemma pushFirstHeapItem_stable (t : PriorityTag) (node : GraphRef)
    (parent : option StackRef) (value : Value) :
  preserves Inv (pushFirstHeapItem t node parent value).
Proof.
  intros s Hs. unfold pushFirstHeapItem, bind at 1, gets. unfold bind at 1, modify.
  apply pushHeap_stable. apply Inv_alloc. exact Hs.
Qed.

Lemma read_stack_stable (st : StackRef) : preserves Inv (read_stack st).
Proof. intros s Hs. unfold read_stack. destruct (stacks s !! st); exact Hs. Qed.

Lemma write_stack_stable (st : StackRef) (f : Stack → Stack) :
  (∀ fr, stack_node (f fr) = stack_node fr ∧ stack_parent (f fr) = stack_parent fr) →
  preserves Inv (write_stack st f).
Proof. intros Hf. apply preserves_modify. intros s. apply Inv_write. exact Hf. Qed.

Lemma reg_lookup_stable (graph : Graph) (id : string) :
  triple Inv (reg_lookup graph id) (λ c s, Inv s ∧ graph_reg graph !! id = Some c) Inv.
Proof.
  intros s Hs. unfold reg_lookup. destruct (graph_reg graph !! id); [split; auto | exact Hs].
Qed.

Lemma console_error_stable (err : Value) : preserves Inv (console_error err).
Proof. apply preserves_modify. intros s. apply Inv_console. Qed.

Section InterpreterStable.

Variable launch_rec : Graphite → Value → bool → M unit.
Hypothesis launch_rec_stable : ∀ u payload upsert, preserves Inv (launch_rec u payload upsert).

Lemma run_fn_stable (body : FnBody) : preserves Inv (run_fn launch_rec body).
Proof.
  induction body as [v | err | u payload upsert k IH]; cbn [run_fn].
  - apply preserves_ret.
  - apply preserves_throw.
  - apply preserves_bind; [apply launch_rec_stable | intros _; exact IH].
Qed.

Lemma tryRun_stable (local : Local) (fn : UserFn) (stack : StackRef) :
  preserves Inv (tryRun launch_rec local fn stack).
Proof.
  unfold tryRun. apply preserves_bind; [apply read_stack_stable|]. intros fr.
  apply preserves_try_catch.
  - apply preserves_bind; [apply run_fn_stable|]. intros v. apply preserves_ret.
  - intros err. apply preserves_bind; [apply console_error_stable|]. intros _.
    apply preserves_ret.
Qed.

Lemma exec_compute_stable (stack : StackRef) (fn : UserFn) (local : Local) :
  preserves Inv (exec_compute launch_rec stack fn local).
Proof.
  unfold exec_compute. apply preserves_bind; [apply tryRun_stable|]. intros [r local'].
  apply preserves_bind; [apply write_stack_stable; intros fr; split; reflexivity|].
  intros _. apply preserves_ret.
Qed.

Lemma exec_step_stable (idx : nat) (stack : StackRef) (type : PriorityTag)
    (g : GraphRef) (stepn : nat) (step : Step) (local : Local) :
  step ∈ graph_seq (graph_at g) →
  preserves Inv (exec_step launch_rec idx stack type (graph_at g) stepn step local).
Proof.
  intros Hstep. destruct step as [id priority | from to | ty | fn | fn | fn];
    cbn [exec_step].
  - destruct (negb (stepn =? idx) || negb (bool_decide (type = priority))).
    + apply preserves_bind; [apply preserves_gets|]. intros registered.
      apply preserves_bind; [|intros _; apply preserves_ret].
      destruct registered; [apply preserves_ret|].
      apply preserves_bind; [|intros _; apply pushHeap_stable].
      apply preserves_modify. intros s. apply Inv_barriers.
    + apply preserves_bind; [|intros _; apply preserves_ret].
      apply preserves_modify. intros s. apply Inv_barriers.
  - apply preserves_bind.
    + destruct from; cbn [mov_from];
        try (apply preserves_bind; [apply read_stack_stable|]; intros fr;
             apply preserves_ret).
      * apply preserves_ret.
      * apply (triple_bind _ _ (λ _, Inv)); [|intros c; apply preserves_gets].
        eapply triple_conseq; [apply reg_lookup_stable | auto | intros c s [? _]; auto | auto].
    + intros value. apply preserves_bind; [|intros _; apply preserves_ret].
      destruct to as [| | |id]; cbn [mov_to];
        try (apply write_stack_stable; intros fr; split; reflexivity).
      apply (triple_bind _ _ (λ c s, Inv s ∧ graph_reg (graph_at g) !! id = Some c));
        [apply reg_lookup_stable|].
      intros c. apply triple_modify. intros s [Hs Hc].
      exact (Inv_cells s g from id c value Hstep Hc Hs).
  - destruct ty as [|id].
    + apply preserves_bind; [apply read_stack_stable|]. intros fr. apply preserves_ret.
    + apply preserves_bind; [apply read_stack_stable|]. intros fr.
      apply (triple_bind _ _ (λ _, Inv)).
      * eapply triple_conseq; [apply reg_lookup_stable | auto | intros c s [? _]; auto | auto].
      * intros c. apply preserves_bind; [apply preserves_gets|]. intros v.
        apply preserves_ret.
  - apply preserves_bind; [apply tryRun_stable|]. intros [r local'].
    apply preserves_ret.
  - destruct (negb (stepn =? idx) || negb (bool_decide (type = effect))).
    + apply preserves_bind; [apply pushHeap_stable | intros _; apply preserves_ret].
    + apply exec_compute_stable.
  - apply exec_compute_stable.
Qed.

Lemma run_steps_stable (idx : nat) (stack : StackRef) (type : PriorityTag)
    (g : GraphRef) (steps : list Step) :
  ∀ stepn local stop,
    (∀ step, step ∈ steps → step ∈ graph_seq (graph_at g)) →
    preserves Inv (run_steps launch_rec idx stack type (graph_at g) steps stepn local stop).
Proof.
  induction steps as [|step rest IH]; intros stepn local stop Hsteps; cbn [run_steps].
  - apply preserves_ret.
  - destruct stop; [apply preserves_ret|].
    apply preserves_bind; [apply exec_step_stable; apply Hsteps; left|].
    intros [local'|]; [|apply preserves_ret].
    apply IH. intros step' Hin. apply Hsteps. right. exact Hin.
Qed.

Lemma fan_out_stable (children : list GraphRef) (stack : StackRef) :
  preserves Inv (fan_out children stack).
Proof.
  induction children as [|node rest IH]; cbn [fan_out].
  - apply preserves_ret.
  - apply preserves_bind; [apply read_stack_stable|]. intros fr.
    apply preserves_bind; [apply pushFirstHeapItem_stable | intros _; exact IH].
Qed.

Lemma exec_layer_stable (v : Layer) : preserves Inv (exec_layer graph_at launch_rec v).
Proof.
  unfold exec_layer. apply preserves_bind; [apply read_stack_stable|]. intros fr.
  apply preserves_bind.
  - apply run_steps_stable. intros step Hin.
    apply list_elem_of_lookup in Hin as [i Hi]. rewrite lookup_drop in Hi.
    exact (list_elem_of_lookup_2 _ _ _ Hi).
  - intros [|stop]; [apply preserves_ret|].
    destruct stop; [apply preserves_ret | apply fan_out_stable].
Qed.

Lemma drain_stable (n : nat) : preserves Inv (drain graph_at launch_rec n).
Proof.
  induction n as [|n IH]; cbn [drain].
  - intros s Hs. exact I.
  - apply preserves_bind; [apply deleteMin_stable|]. intros [v|].
    + apply preserves_bind; [apply exec_layer_stable | intros _; exact IH].
    + apply preserves_ret.
Qed.

End InterpreterStable.

Lemma seed_array_stable (units : list Unit) (payload : Value) :
  ∀ i, preserves Inv (seed_array getGraph units i payload).
Proof.
  induction units as [|u units IH]; intros i; cbn [seed_array].
  - apply preserves_ret.
  - apply preserves_bind; [intros s Hs; destruct payload; exact Hs|]. intros v.
    apply preserves_bind; [apply pushFirstHeapItem_stable | intros _; apply IH].
Qed.

Lemma seed_stable (target : Target) (payload : Value) :
  preserves Inv (seed getGraph target payload).
Proof.
  destruct target as [u|units]; cbn [seed];
    [apply pushFirstHeapItem_stable | apply seed_array_stable].
Qed.

Lemma launch_with_stable (exec : M unit) (u : Graphite) (payload : Value) (upsert : bool) :
  preserves Inv exec → preserves Inv (launch_with getGraph exec u payload upsert).
Proof.
  intros Hexec. unfold launch_with.
  destruct (unpack u payload upsert) as [[target payload'] upsert'].
  apply preserves_bind; [apply seed_stable|]. intros _.
  apply preserves_bind; [apply preserves_gets|]. intros started.
  destruct (upsert' && started); [apply preserves_ret | exact Hexec].
Qed.

Lemma exec_stable (fuel : nat) : preserves Inv (exec graph_at getGraph fuel).
Proof.
  induction fuel as [|n IH]; cbn [exec].
  - intros s Hs. exact I.
  - intros s Hs. unfold bind at 1, gets. unfold bind at 1, modify.
    pose proof (drain_stable _ (λ u p b, launch_with_stable _ u p b IH) n
                  (set_alreadyStarted true s) (Inv_start s Hs)) as Hd.
    unfold bind.
    destruct (drain graph_at (launch_with getGraph (exec graph_at getGraph n)) n
                (set_alreadyStarted true s)) as [[] s2 | e s2 |]; [| exact Hd | exact I].
    apply Inv_restore; assumption.
Qed.

Lemma launch_stable (fuel : nat) (u : Graphite) (payload : Value) (upsert : bool) :
  preserves Inv (launch graph_at getGraph fuel u payload upsert).
Proof. apply launch_with_stable, exec_stable. Qed.

End StableFacts.

Section DriverFacts.

Variable graph_at : GraphRef → Graph.
Variable getGraph : Unit → GraphRef.

(** [exec] restores [alreadyStarted] when it returns. *)
Lemma exec_restores (fuel : nat) (s s' : State) :
  exec graph_at getGraph fuel s = Val tt s' → alreadyStarted s' = alreadyStarted s.
Proof.
  destruct fuel as [|n]; [discriminate|].
  cbn [exec]. unfold bind at 1, gets. unfold bind at 1, modify. unfold bind.
  destruct (drain graph_at (launch_with getGraph (exec graph_at getGraph n)) n
              (set_alreadyStarted true s)) as [[] s2 | e s2 |]; try discriminate.
  intros [= <-]. reflexivity.
Qed.

(** X10. [exec] restores [alreadyStarted] when it returns; when an
    exception leaves the drain loop, [alreadyStarted] stays [true]: the
    assignment after the loop is not reached. *)
Theorem exec_started_flag (fuel : nat) (s : State) :
  (∀ s', exec graph_at getGraph fuel s = Val tt s' →
         alreadyStarted s' = alreadyStarted s)
  ∧ (∀ e s', exec graph_at getGraph fuel s = Exn e s' → alreadyStarted s' = true).
Proof.
  split; [intros s'; apply exec_restores|].
  destruct fuel as [|n]; [intros; discriminate|].
  cbn [exec]. unfold bind at 1, gets. unfold bind at 1, modify. unfold bind.
  pose proof (drain_stable graph_at (λ s, alreadyStarted s = true)) as Hd.
  specialize (Hd ltac:(auto) ltac:(auto) ltac:(auto) ltac:(auto) ltac:(auto)
                 ltac:(auto) ltac:(auto) ltac:(auto) ltac:(auto)).
  specialize (Hd (launch_with getGraph (exec graph_at getGraph n))).
  assert (Hl : ∀ u payload upsert,
             preserves (λ s, alreadyStarted s = true)
               (launch_with getGraph (exec graph_at getGraph n) u payload upsert)).
  { intros u payload upsert.
    apply (launch_stable graph_at getGraph (λ s, alreadyStarted s = true)); auto. }
  specialize (Hd Hl n (set_alreadyStarted true s) eq_refl).
  destruct (drain graph_at (launch_with getGraph (exec graph_at getGraph n)) n
              (set_alreadyStarted true s)) as [[] s2 | e s2 |].
  - intros; discriminate.
  - intros e' s' [= <- <-]. exact Hd.
  - intros; discriminate.
Qed.

(** X11. Ref cells are written by [mov] steps with [to: 'store'] only: a
    cell that no such step of any graph names through its register has
    the same content after a [launch], whether it returns or throws, as
    before. *)
Theorem cells_written_by_mov (fuel : nat) (u : Graphite) (payload : Value)
    (upsert : bool) (s : State) (c : CellRef) :
  (∀ g from id, step_mov from (to_store id) ∈ graph_seq (graph_at g) →
                graph_reg (graph_at g) !! id ≠ Some c) →
  match launch graph_at getGraph fuel u payload upsert s with
  | Val _ s' | Exn _ s' => cells s' !! c = cells s !! c
  | OutOfFuel => True
  end.
Proof.
  intros Hmov.
  pose proof (launch_stable graph_at getGraph (λ s', cells s' !! c = cells s !! c)) as H.
  specialize (H ltac:(auto) ltac:(auto) ltac:(auto) ltac:(auto) ltac:(auto)
                ltac:(auto) ltac:(auto) ltac:(auto)).
  assert (Hc : ∀ s0 g from id c0 v,
             step_mov from (to_store id) ∈ graph_seq (graph_at g) →
             graph_reg (graph_at g) !! id = Some c0 →
             cells s0 !! c = cells s !! c →
             cells (set_cells (<[c0 := v]> (cells s0)) s0) !! c = cells s !! c).
  { intros s0 g from id c0 v Hin Hreg Hs0. simpl.
    rewrite lookup_insert_ne; [exact Hs0|].
    intros ->. exact (Hmov g from id Hin Hreg). }
  specialize (H Hc ltac:(auto) ltac:(auto) fuel u payload upsert s eq_refl).
  destruct (launch graph_at getGraph fuel u payload upsert s); auto.
Qed.

(** X12. A stack frame stays allocated and keeps its [node] and its
    [parent] through a [launch], whether it returns or throws; only
    [value], [a] and [b] of a frame are assigned to. *)
Theorem frames_keep_links (fuel : nat) (u : Graphite) (payload : Value)
    (upsert : bool) (s : State) (st : StackRef) (fr : Stack) :
  stacks_ok s → stacks s !! st = Some fr →
  match launch graph_at getGraph fuel u payload upsert s with
  | Val _ s' | Exn _ s' =>
      ∃ fr', stacks s' !! st = Some fr'
             ∧ stack_node fr' = stack_node fr
             ∧ stack_parent fr' = stack_parent fr
  | OutOfFuel => True
  end.
Proof.
  intros Hst Hfr.
  set (Inv := λ s', stacks_ok s'
                    ∧ ∃ fr', stacks s' !! st = Some fr'
                             ∧ stack_node fr' = stack_node fr
                             ∧ stack_parent fr' = stack_parent fr).
  pose proof (launch_stable graph_at getGraph Inv) as H.
  specialize (H ltac:(auto) ltac:(auto) ltac:(auto) ltac:(auto) ltac:(auto)
                ltac:(auto)).
  assert (Halloc : ∀ s0 fr0, Inv s0 →
            Inv (set_stacks (<[next_stack s0 := fr0]> (stacks s0)) (S (next_stack s0)) s0)).
  { intros s0 fr0 [Hst0 (fr' & Hfr' & Hlinks)]. split.
    - intros a Ha. simpl in *. rewrite lookup_insert_ne by lia. apply Hst0. lia.
    - exists fr'. split; [|exact Hlinks]. simpl.
      rewrite lookup_insert_ne; [exact Hfr'|].
      intros <-. rewrite (Hst0 (next_stack s0)) in Hfr' by lia. discriminate. }
  assert (Hwrite : ∀ s0 a f,
            (∀ fr0, stack_node (f fr0) = stack_node fr0
                    ∧ stack_parent (f fr0) = stack_parent fr0) →
            Inv s0 → Inv (set_stacks (alter f a (stacks s0)) (next_stack s0) s0)).
  { intros s0 a f Hf [Hst0 (fr' & Hfr' & Hn & Hp)]. split.
    - intros b Hb. simpl in *. destruct (decide (b = a)) as [-> | Hne].
      + rewrite lookup_alter_eq, (Hst0 a Hb). reflexivity.
      + rewrite lookup_alter_ne by congruence. apply Hst0. exact Hb.
    - simpl. destruct (decide (st = a)) as [<- | Hne].
      + exists (f fr'). rewrite lookup_alter_eq, Hfr'. split; [reflexivity|].
        destruct (Hf fr') as [-> ->]. auto.
      + exists fr'. rewrite lookup_alter_ne by congruence. auto. }
  specialize (H Halloc Hwrite ltac:(auto) ltac:(auto) ltac:(auto)
                fuel u payload upsert s).
  assert (Hs : Inv s) by (split; [exact Hst | exists fr; auto]).
  specialize (H Hs).
  destruct (launch graph_at getGraph fuel u payload upsert s) as [a s' | e s' |];
    [apply H | apply H | exact I].
Qed.

End DriverFacts.

(** The layer of a graph that reads a ref cell missing from its register:
    the exception leaves [exec] with [alreadyStarted] set. *)
Lemma exec_started_flag_witness :
  ∃ s e s',
    seed Examples.getGraph (TUnit 0) (VNum 1) init_state = Val tt s
    ∧ alreadyStarted s = false
    ∧ exec Faults.graph_at Examples.getGraph 5 s = Exn e s'
    ∧ alreadyStarted s' = true
    ∧ queue_layers s' = [].
Proof.
  eexists _, _, _. split; [vm_compute; reflexivity|]. split; [reflexivity|].
  match goal with |- ?Q ∧ _ => assert (H : Q) by (vm_compute; reflexivity) end.
  split; [exact H|].
  split; [|reflexivity].
  exact (proj2 (exec_started_flag Faults.graph_at Examples.getGraph 5 _) _ _ H).
Defined.

(** Graph 1 of the faulty graphs writes cell 0; cell 1 is left alone. *)
Lemma cells_written_by_mov_witness :
  ∃ s',
    launch Faults.graph_at Examples.getGraph 9 (GTarget (TUnit 1)) (VNum 5) false
      init_state = Val tt s'
    ∧ cells s' !! 0 = Some (VNum 5)
    ∧ cells s' !! 1 = cells init_state !! 1.
Proof.
  eexists.
  match goal with |- ?Q ∧ _ => assert (H1 : Q) by (vm_compute; reflexivity) end.
  split; [exact H1|]. split; [reflexivity|].
  assert (Hmov : ∀ g from id,
             step_mov from (to_store id) ∈ graph_seq (Faults.graph_at g) →
             graph_reg (Faults.graph_at g) !! id ≠ Some 1).
  { intros g from id Hin.
    destruct g as [|[|g]]; cbn in Hin.
    - apply list_elem_of_singleton in Hin. discriminate.
    - apply list_elem_of_singleton in Hin. injection Hin as _ ->. cbn. discriminate.
    - inversion Hin. }
  pose proof (cells_written_by_mov Faults.graph_at Examples.getGraph 9
                (GTarget (TUnit 1)) (VNum 5) false init_state 1 Hmov) as H.
  rewrite H1 in H. exact H.
Defined.

(** The frame of a seeded layer: its [value] changes, its [node] and
    [parent] do not. *)
Lemma frames_keep_links_witness :
  ∃ s s' fr',
    seed Examples.getGraph (TUnit 3) (VNum 1) init_state = Val tt s
    ∧ launch Examples.graph_at Examples.getGraph 9 (GTarget (TUnit 3)) (VNum 5) false s
      = Val tt s'
    ∧ stacks s' !! 0 = Some fr'
    ∧ stack_value fr' = VNum 2
    ∧ stack_node fr' = 3 ∧ stack_parent fr' = None.
Proof.
  destruct (pushFirstHeapItem_fifo init_state pure 3 None (VNum 1)
              queue_ok_init stacks_ok_init (or_intror (or_introl eq_refl)))
    as (s & Hrun & _ & Hst & _ & Hstacks & _).
  assert (Hfr : stacks s !! 0 = Some (first_frame 3 None (VNum 1))).
  { rewrite Hstacks. apply lookup_insert_eq. }
  pose proof (frames_keep_links Examples.graph_at Examples.getGraph 9
                (GTarget (TUnit 3)) (VNum 5) false s 0 _ Hst Hfr) as H.
  assert (El : ∃ s', launch Examples.graph_at Examples.getGraph 9 (GTarget (TUnit 3))
                       (VNum 5) false s = Val tt s'
                     ∧ stack_value <$> stacks s' !! 0 = Some (VNum 2)).
  { pose proof Hrun as Hc. vm_compute in Hc. injection Hc as <-.
    eexists. split; vm_compute; reflexivity. }
  destruct El as (s' & El & Hv). rewrite El in H.
  destruct H as (fr' & Hfr' & Hn & Hp).
  exists s, s', fr'. split; [exact Hrun|]. split; [exact El|].
  split; [exact Hfr'|]. split; [|split; [exact Hn | exact Hp]].
  rewrite Hfr' in Hv. injection Hv as Hv. exact Hv.
Defined.

(** ** Well-formed states *)

Lemma sound_init : sound (λ _, False) init_state.
Proof.
  split; [apply queue_ok_init|]. split; [apply stacks_ok_init|].
  split; [intros l Hl; inversion Hl | intros st []].
Qed.

Lemma sound_weaken (F F' : StackRef → Prop) (s : State) :
  (∀ st, F st → F' st) → sound F' s → sound F s.
Proof. intros HF (Hq & Hst & Hfr & HF'). repeat split; auto. Qed.

Lemma sound_known (F : StackRef → Prop) (s : State) (st : StackRef) :
  sound F s → is_Some (stacks s !! st) → sound (λ x, F x ∨ x = st) s.
Proof.
  intros (Hq & Hst & Hfr & HF) Hsome. repeat split; auto.
  intros x [Hx | ->]; auto.
Qed.

(** Changes outside the queue that keep the frames. *)
Lemma sound_frame (F : StackRef → Prop) (s s' : State) :
  sound F s →
  queue s' = queue s → items s' = items s → next_item s' = next_item s →
  heap s' = heap s → stacks_ok s' →
  (∀ st, is_Some (stacks s !! st) → is_Some (stacks s' !! st)) →
  sound F s'.
Proof.
  intros (Hq & Hst & Hfr & HF) Eq Ei En Eh Hst' Hkeep.
  split; [eapply queue_ok_frame; eassumption|]. split; [exact Hst'|]. split.
  - intros l Hl. apply Hkeep, Hfr.
    unfold queue_layers, bucket_layers in *. rewrite Eq, Ei, Eh in Hl. exact Hl.
  - intros st Hs. apply Hkeep, HF, Hs.
Qed.

Lemma pushHeap_sound (F : StackRef → Prop) (idx : nat) (stack : StackRef)
    (t : PriorityTag) (id : Z) :
  F stack →
  triple (sound F) (pushHeap idx stack t id) (λ _, sound F) (λ _, False).
Proof.
  intros HFs s (Hq & Hst & Hfr & HF). destruct Hq as [f Hrep].
  destruct (pushHeap_layers s f idx stack t id Hrep)
    as (s' & f' & Hrun & Hrep' & (Hs1 & Hs2 & _) & Hl).
  rewrite Hrun. split; [exists f'; exact Hrep'|]. split.
  { intros a Ha. rewrite Hs1. apply Hst. rewrite <- Hs2. exact Ha. }
  split.
  - intros l Hin. rewrite Hs1. rewrite Hl in Hin.
    apply elem_of_app in Hin as [Hin | Hin]; [apply Hfr, Hin|].
    apply list_elem_of_singleton in Hin. subst l. apply HF, HFs.
  - intros st Hs. rewrite Hs1. apply HF, Hs.
Qed.

Lemma deleteMin_sound (F : StackRef → Prop) :
  triple (sound F) deleteMin
    (λ res s', match res with
               | None => sound F s' ∧ queue_layers s' = []
               | Some v => sound (λ st, F st ∨ st = layer_stack v) s'
               end)
    (λ _, False).
Proof.
  intros s (Hq & Hst & Hfr & HF). destruct Hq as [f Hrep].
  destruct (deleteMin_layers s f Hrep)
    as (res & s' & f' & Hrun & Hrep' & (Hs1 & Hs2 & _) & Hres).
  rewrite Hrun. destruct res as [v|].
  - destruct Hres as [Hl _].
    split; [exists f'; exact Hrep'|]. split.
    { intros a Ha. rewrite Hs1. apply Hst. rewrite <- Hs2. exact Ha. }
    split.
    + intros l Hin. rewrite Hs1. apply Hfr. rewrite Hl. right. exact Hin.
    + intros st [Hs | ->]; rewrite Hs1; [apply HF, Hs|].
      apply Hfr. rewrite Hl. left.
  - destruct Hres as [-> Hl]. split; [|exact Hl].
    split; [exists f; exact Hrep|]. auto.
Qed.

Lemma pushFirstHeapItem_sound (F : StackRef → Prop) (t : PriorityTag)
    (node : GraphRef) (parent : option StackRef) (value : Value) :
  triple (sound F) (pushFirstHeapItem t node parent value) (λ _, sound F) (λ _, False).
Proof.
  intros s Hs. unfold pushFirstHeapItem, bind at 1, gets. unfold bind at 1, modify.
  set (s1 := set_stacks _ _ s).
  assert (Hs1 : sound (λ st, F st ∨ st = next_stack s) s1).
  { apply sound_known.
    - eapply sound_frame; try exact Hs; try reflexivity.
      + destruct Hs as (_ & Hst & _). intros a Ha. simpl in *.
        rewrite lookup_insert_ne by lia. apply Hst. lia.
      + intros st Hsome. simpl. destruct (decide (st = next_stack s)) as [-> | Hne].
        * rewrite lookup_insert_eq. eauto.
        * rewrite lookup_insert_ne by congruence. exact Hsome.
    - simpl. rewrite lookup_insert_eq. eauto. }
  pose proof (pushHeap_sound _ 0 (next_stack s) t 0 (or_intror eq_refl) s1 Hs1) as H.
  destruct (pushHeap 0 (next_stack s) t 0 s1) as [[] s2 | e s2 |];
    [| exact H | exact I].
  eapply sound_weaken; [|exact H]. intros st HF. left. exact HF.
Qed.

Lemma write_stack_sound (F : StackRef → Prop) (st : StackRef) (f : Stack → Stack) :
  triple (sound F) (write_stack st f) (λ _, sound F) (λ _, False).
Proof.
  apply triple_modify. intros s Hs.
  eapply sound_frame; try exact Hs; try reflexivity.
  - destruct Hs as (_ & Hst & _). intros a Ha. simpl in *.
    destruct (decide (a = st)) as [-> | Hne].
    + rewrite lookup_alter_eq, (Hst st Ha). reflexivity.
    + rewrite lookup_alter_ne by congruence. apply Hst. exact Ha.
  - intros a [fr Hfr]. simpl. destruct (decide (a = st)) as [-> | Hne].
    + rewrite lookup_alter_eq, Hfr. simpl. eauto.
    + rewrite lookup_alter_ne by congruence. eauto.
Qed.

Lemma read_stack_sound (F : StackRef → Prop) (st : StackRef) :
  F st → triple (sound F) (read_stack st) (λ _, sound F) (λ _, False).
Proof.
  intros HFs s Hs. unfold read_stack.
  destruct Hs as (Hq & Hst & Hfr & HF). destruct (HF st HFs) as [fr ->].
  repeat split; auto.
Qed.

Lemma modify_sound (F : StackRef → Prop) (g : State → State) :
  (∀ s, queue (g s) = queue s ∧ items (g s) = items s ∧ next_item (g s) = next_item s
        ∧ heap (g s) = heap s ∧ stacks (g s) = stacks s
        ∧ next_stack (g s) = next_stack s) →
  triple (sound F) (modify g) (λ _, sound F) (λ _, False).
Proof.
  intros Hg. apply triple_modify. intros s Hs.
  destruct (Hg s) as (E1 & E2 & E3 & E4 & E5 & E6).
  eapply sound_frame; try exact Hs; try assumption.
  - destruct Hs as (_ & Hst & _). intros a Ha. rewrite E5. apply Hst.
    rewrite <- E6. exact Ha.
  - intros st. rewrite E5. auto.
Qed.

Lemma triple_no_throw {A} (P : State → Prop) (m : M A) (Q : A → State → Prop)
    (E : State → Prop) :
  triple P m Q (λ _, False) → triple P m Q E.
Proof. intros H. eapply triple_conseq; [exact H | auto | auto | intros s []]. Qed.

Section SoundFacts.

Variable graph_at : GraphRef → Graph.
Variable getGraph : Unit → GraphRef.

(** [T] tells whether a step may name a ref cell that is not in the
    register of its graph. *)
Variable T : Prop.
Hypothesis Hregs : T ∨ regs_ok graph_at.

Local Abbreviation safe F m := (triple (sound F) m (λ _, sound F) (λ s, sound F s ∧ T)).

Lemma reg_lookup_sound (F : StackRef → Prop) (graph : Graph) (id : string) :
  T ∨ is_Some (graph_reg graph !! id) → safe F (reg_lookup graph id).
Proof.
  intros H s Hs. unfold reg_lookup.
  destruct (graph_reg graph !! id) as [c|]; [exact Hs|].
  destruct H as [Ht | [c Hc]]; [split; assumption | discriminate].
Qed.

Section InterpreterSound.

Variable launch_rec : Graphite → Value → bool → M unit.
Hypothesis launch_rec_sound :
  ∀ F u payload upsert, preserves (sound F) (launch_rec u payload upsert).

Lemma run_fn_sound (F : StackRef → Prop) (body : FnBody) :
  preserves (sound F) (run_fn launch_rec body).
Proof.
  induction body as [v | err | u payload upsert k IH]; cbn [run_fn].
  - apply preserves_ret.
  - apply preserves_throw.
  - apply preserves_bind; [apply launch_rec_sound | intros _; exact IH].
Qed.

(** [tryRun] never throws. *)
Lemma tryRun_sound (F : StackRef → Prop) (local : Local) (fn : UserFn)
    (stack : StackRef) :
  F stack →
  triple (sound F) (tryRun launch_rec local fn stack) (λ _, sound F) (λ _, False).
Proof.
  intros HFs. unfold tryRun.
  apply (triple_bind _ _ (λ _, sound F)); [apply read_stack_sound; exact HFs|].
  intros fr. apply (triple_try_catch _ _ _ _ _ (sound F)).
  - apply preserves_bind; [apply run_fn_sound|]. intros v. apply preserves_ret.
  - intros err. apply (triple_bind _ _ (λ _, sound F)).
    + apply modify_sound. intros s. repeat split.
    + intros _. apply triple_ret. auto.
Qed.

Lemma exec_compute_sound (F : StackRef → Prop) (stack : StackRef) (fn : UserFn)
    (local : Local) :
  F stack →
  triple (sound F) (exec_compute launch_rec stack fn local) (λ _, sound F) (λ _, False).
Proof.
  intros HFs. unfold exec_compute.
  apply (triple_bind _ _ (λ _, sound F)); [apply tryRun_sound; exact HFs|].
  intros [r local']. apply (triple_bind _ _ (λ _, sound F)); [apply write_stack_sound|].
  intros _. apply triple_ret. auto.
Qed.

Lemma exec_step_sound (F : StackRef → Prop) (idx : nat) (stack : StackRef)
    (type : PriorityTag) (graph : Graph) (stepn : nat) (step : Step) (local : Local) :
  F stack → T ∨ step_regs graph step →
  safe F (exec_step launch_rec idx stack type graph stepn step local).
Proof.
  intros HFs Hreg. destruct step as [id priority | from to | ty | fn | fn | fn];
    cbn [exec_step].
  - apply triple_no_throw.
    destruct (negb (stepn =? idx) || negb (bool_decide (type = priority))).
    + apply (triple_bind _ _ (λ _, sound F)); [apply triple_gets; auto|].
      intros registered.
      apply (triple_bind _ _ (λ _, sound F)); [|intros _; apply triple_ret; auto].
      destruct registered; [apply triple_ret; auto|].
      apply (triple_bind _ _ (λ _, sound F)).
      * apply modify_sound. intros s. repeat split.
      * intros _. apply pushHeap_sound. exact HFs.
    + apply (triple_bind _ _ (λ _, sound F)); [|intros _; apply triple_ret; auto].
      apply modify_sound. intros s. repeat split.
  - apply (triple_bind _ _ (λ _, sound F)).
    + destruct from as [| | |store|id]; cbn [mov_from];
        try (apply triple_no_throw;
             apply (triple_bind _ _ (λ _, sound F)); [apply read_stack_sound; exact HFs|];
             intros fr; apply triple_ret; auto).
      * apply triple_ret. auto.
      * apply (triple_bind _ _ (λ _, sound F)).
        -- apply reg_lookup_sound. destruct Hreg as [? | [? _]]; auto.
        -- intros c. apply triple_gets. auto.
    + intros value.
      apply (triple_bind _ _ (λ _, sound F)); [|intros _; apply triple_ret; auto].
      destruct to as [| | |id]; cbn [mov_to];
        try (apply triple_no_throw; apply write_stack_sound).
      apply (triple_bind _ _ (λ _, sound F)).
      * apply reg_lookup_sound. destruct Hreg as [? | [_ ?]]; auto.
      * intros c. apply triple_no_throw. apply modify_sound. intros s. repeat split.
  - destruct ty as [|id].
    + apply triple_no_throw.
      apply (triple_bind _ _ (λ _, sound F)); [apply read_stack_sound; exact HFs|].
      intros fr. apply triple_ret. auto.
    + apply (triple_bind _ _ (λ _, sound F));
        [apply triple_no_throw, read_stack_sound; exact HFs|].
      intros fr. apply (triple_bind _ _ (λ _, sound F)).
      * apply reg_lookup_sound. destruct Hreg as [? | ?]; auto.
      * intros c. apply (triple_bind _ _ (λ _, sound F)); [apply triple_gets; auto|].
        intros v. apply triple_ret. auto.
  - apply triple_no_throw.
    apply (triple_bind _ _ (λ _, sound F)); [apply tryRun_sound; exact HFs|].
    intros [r local']. apply triple_ret. auto.
  - apply triple_no_throw.
    destruct (negb (stepn =? idx) || negb (bool_decide (type = effect))).
    + apply (triple_bind _ _ (λ _, sound F)); [apply pushHeap_sound; exact HFs|].
      intros _. apply triple_ret. auto.
    + apply exec_compute_sound. exact HFs.
  - apply triple_no_throw. apply exec_compute_sound. exact HFs.
Qed.

Lemma run_steps_sound (F : StackRef → Prop) (idx : nat) (stack : StackRef)
    (type : PriorityTag) (graph : Graph) (steps : list Step) :
  F stack →
  ∀ stepn local stop,
    T ∨ Forall (step_regs graph) steps →
    safe F (run_steps launch_rec idx stack type graph steps stepn local stop).
Proof.
  intros HFs. induction steps as [|step rest IH]; intros stepn local stop Hreg;
    cbn [run_steps].
  - apply triple_ret. auto.
  - destruct stop; [apply triple_ret; auto|].
    apply (triple_bind _ _ (λ _, sound F)).
    + apply exec_step_sound; [exact HFs|].
      destruct Hreg as [? | Hall]; [left; assumption|].
      right. apply Forall_cons in Hall as [? _]. assumption.
    + intros [local'|]; [|apply triple_ret; auto].
      apply IH. destruct Hreg as [? | Hall]; [left; assumption|].
      right. apply Forall_cons in Hall as [_ ?]. assumption.
Qed.

Lemma fan_out_sound (F : StackRef → Prop) (children : list GraphRef) (stack : StackRef) :
  F stack →
  triple (sound F) (fan_out children stack) (λ _, sound F) (λ _, False).
Proof.
  intros HFs. induction children as [|node rest IH]; cbn [fan_out].
  - apply triple_ret. auto.
  - apply (triple_bind _ _ (λ _, sound F)); [apply read_stack_sound; exact HFs|].
    intros fr. apply (triple_bind _ _ (λ _, sound F)); [|intros _; exact IH].
    apply pushFirstHeapItem_sound.
Qed.

Lemma exec_layer_sound (F : StackRef → Prop) (v : Layer) :
  triple (sound (λ st, F st ∨ st = layer_stack v)) (exec_layer graph_at launch_rec v)
         (λ _, sound F) (λ s, sound F s ∧ T).
Proof.
  set (F' := λ st, F st ∨ st = layer_stack v).
  assert (Hweak : ∀ s, sound F' s → sound F s).
  { intros s. apply sound_weaken. left. assumption. }
  apply (triple_conseq _ (sound F') _ _ (λ _, sound F') _ (λ s, sound F' s ∧ T));
    [| auto | intros _; exact Hweak | intros s [? ?]; auto].
  unfold exec_layer.
  apply (triple_bind _ _ (λ _, sound F'));
    [apply triple_no_throw, read_stack_sound; right; reflexivity|].
  intros fr. apply (triple_bind _ _ (λ _, sound F')).
  - apply run_steps_sound; [right; reflexivity|].
    destruct Hregs as [? | Hall]; [left; assumption|].
    right. apply Forall_drop. apply Hall.
  - intros [|stop]; [apply triple_ret; auto|].
    destruct stop; [apply triple_ret; auto|].
    apply triple_no_throw, fan_out_sound. right. reflexivity.
Qed.

(** The drain loop ends with an empty queue. *)
Lemma drain_sound (F : StackRef → Prop) (n : nat) :
  triple (sound F) (drain graph_at launch_rec n)
         (λ _ s, sound F s ∧ queue_layers s = []) (λ s, sound F s ∧ T).
Proof.
  induction n as [|n IH]; cbn [drain].
  - intros s Hs. exact I.
  - apply (triple_bind _ _ (λ res s', match res with
                                      | None => sound F s' ∧ queue_layers s' = []
                                      | Some v => sound (λ st, F st ∨ st = layer_stack v) s'
                                      end));
      [apply triple_no_throw, deleteMin_sound|].
    intros res. destruct res as [v|].
    + apply (triple_bind _ _ (λ _, sound F)); [apply exec_layer_sound|].
      intros _. exact IH.
    + apply triple_ret. auto.
Qed.

End InterpreterSound.

Lemma seed_array_sound (F : StackRef → Prop) (units : list Unit) (payload : Value) :
  ∀ i, preserves (sound F) (seed_array getGraph units i payload).
Proof.
  induction units as [|u units IH]; intros i; cbn [seed_array].
  - apply preserves_ret.
  - apply preserves_bind; [intros s Hs; destruct payload; exact Hs|]. intros v.
    apply preserves_bind; [|intros _; apply IH].
    apply triple_no_throw, pushFirstHeapItem_sound.
Qed.

Lemma seed_sound (F : StackRef → Prop) (target : Target) (payload : Value) :
  preserves (sound F) (seed getGraph target payload).
Proof.
  destruct target as [u|units]; cbn [seed]; [|apply seed_array_sound].
  apply triple_no_throw, pushFirstHeapItem_sound.
Qed.

Lemma launch_with_sound (F : StackRef → Prop) (exec : M unit) (u : Graphite)
    (payload : Value) (upsert : bool) :
  preserves (sound F) exec →
  preserves (sound F) (launch_with getGraph exec u payload upsert).
Proof.
  intros Hexec. unfold launch_with.
  destruct (unpack u payload upsert) as [[target payload'] upsert'].
  apply preserves_bind; [apply seed_sound|]. intros _.
  apply preserves_bind; [apply preserves_gets|]. intros started.
  destruct (upsert' && started); [apply preserves_ret | exact Hexec].
Qed.

(** [exec] returns with an empty queue. *)
Lemma exec_sound (fuel : nat) :
  ∀ F, triple (sound F) (exec graph_at getGraph fuel)
              (λ _ s, sound F s ∧ queue_layers s = []) (λ s, sound F s ∧ T).
Proof.
  induction fuel as [|n IH]; intros F; cbn [exec].
  - intros s Hs. exact I.
  - apply (triple_bind _ _ (λ _, sound F)); [apply triple_gets; auto|].
    intros lastStartedState.
    apply (triple_bind _ _ (λ _, sound F)).
    { apply triple_no_throw, modify_sound. intros s. repeat split. }
    intros _.
    apply (triple_bind _ _ (λ _ s, sound F s ∧ queue_layers s = [])).
    + apply drain_sound. intros F' u payload upsert. apply launch_with_sound.
      eapply triple_conseq; [apply (IH F') | auto | intros _ s [? _]; auto
                            | intros s [? _]; auto].
    + intros _. apply triple_modify. intros s [Hs He]. split; [|exact He].
      eapply sound_frame; try exact Hs; try reflexivity.
      * destruct Hs as (_ & Hst & _). exact Hst.
      * auto.
Qed.

Lemma exec_preserves_sound (F : StackRef → Prop) (fuel : nat) :
  preserves (sound F) (exec graph_at getGraph fuel).
Proof.
  eapply triple_conseq; [apply (exec_sound fuel F) | auto | intros _ s [? _]; auto
                        | intros s [? _]; auto].
Qed.

Lemma run_launches_sound (fuel : nat) (calls : list (Graphite * Value * bool)) :
  ∀ s s', sound (λ _, False) s →
          run_launches graph_at getGraph fuel calls s = Some s' →
          sound (λ _, False) s'.
Proof.
  induction calls as [|[[u payload] upsert] rest IH]; intros s s' Hs Hrun;
    cbn [run_launches] in Hrun.
  - injection Hrun as <-. exact Hs.
  - pose proof (launch_with_sound _ _ u payload upsert
                  (exec_preserves_sound _ fuel) s Hs) as Hl.
    fold (launch graph_at getGraph fuel) in Hl.
    destruct (launch graph_at getGraph fuel u payload upsert s) as [[] s1 | e s1 |];
      [| | discriminate]; apply (IH s1 s' Hl Hrun).
Qed.

End SoundFacts.

(** ** The kernel at rest *)

Section QuiescenceFacts.

Variable graph_at : GraphRef → Graph.
Variable getGraph : Unit → GraphRef.

Lemma seed_array_no_throw (F : StackRef → Prop) (units : list Unit) (payload : Value) :
  payload ≠ VNull → payload ≠ VUndefined →
  ∀ i, triple (sound F) (seed_array getGraph units i payload)
              (λ _, sound F) (λ _, False).
Proof.
  intros Hn Hu. induction units as [|u units IH]; intros i; cbn [seed_array].
  - apply triple_ret. auto.
  - apply (triple_bind _ _ (λ _, sound F)).
    + intros s Hs. destruct payload; try exact Hs; congruence.
    + intros v. apply (triple_bind _ _ (λ _, sound F)); [|intros _; apply IH].
      apply pushFirstHeapItem_sound.
Qed.

(** Seeding throws only when an element of [null] or [undefined] is read. *)
Lemma seed_throws (F : StackRef → Prop) (target : Target) (payload : Value)
    (s s' : State) (e : Value) :
  sound F s → seed getGraph target payload s = Exn e s' →
  e = TypeError ∧ s' = s
  ∧ (payload = VNull ∨ payload = VUndefined)
  ∧ ∃ u units, target = TArray (u :: units).
Proof.
  intros Hs Hrun. destruct target as [u|units]; cbn [seed] in Hrun.
  - pose proof (pushFirstHeapItem_sound F pure (getGraph u) None payload s Hs) as H.
    rewrite Hrun in H. contradiction.
  - assert (Hcase : payload = VNull ∨ payload = VUndefined
                    ∨ (payload ≠ VNull ∧ payload ≠ VUndefined)).
    { destruct payload; auto; right; right; split; discriminate. }
    destruct Hcase as [-> | [-> | [Hn Hu]]].
    + destruct units as [|u units]; [discriminate|].
      cbn in Hrun. injection Hrun as <- <-. eauto 10.
    + destruct units as [|u units]; [discriminate|].
      cbn in Hrun. injection Hrun as <- <-. eauto 10.
    + pose proof (seed_array_no_throw F units payload Hn Hu 0 s Hs) as H.
      rewrite Hrun in H. contradiction.
Qed.

Lemma reachable_sound (fuel : nat) (calls : list (Graphite * Value * bool)) (s : State) :
  run_launches graph_at getGraph fuel calls init_state = Some s →
  sound (λ _, False) s.
Proof.
  apply (run_launches_sound graph_at getGraph True (or_introl I)). apply sound_init.
Qed.

Lemma launch_val_drains (F : StackRef → Prop) (fuel : nat) (s s' : State)
    (u : Graphite) (payload : Value) (upsert : bool) :
  sound F s →
  (unpack u payload upsert).2 && alreadyStarted s = false →
  launch graph_at getGraph fuel u payload upsert s = Val tt s' →
  queue_layers s' = [] ∧ alreadyStarted s' = alreadyStarted s.
Proof.
  intros Hs Hguard Hrun.
  unfold launch, launch_with in Hrun.
  destruct (unpack u payload upsert) as [[target payload'] upsert']. cbn [snd] in Hguard.
  unfold bind at 1 in Hrun.
  pose proof (seed_sound getGraph _ target payload' s Hs) as Hseed.
  pose proof (seed_keeps_started getGraph (alreadyStarted s) target payload' s eq_refl)
    as Hflag.
  destruct (seed getGraph target payload' s) as [[] s1 | e s1 |]; try discriminate.
  unfold bind at 1, gets in Hrun. rewrite Hflag, Hguard in Hrun.
  pose proof (exec_sound graph_at getGraph True (or_introl I) fuel _ s1 Hseed) as Hexec.
  rewrite Hrun in Hexec. destruct Hexec as [_ Hempty]. split; [exact Hempty|].
  rewrite <- Hflag. apply (exec_restores graph_at getGraph fuel s1). exact Hrun.
Qed.

Lemma launch_exn_seeding (F : StackRef → Prop) (fuel : nat) (s s' : State)
    (u : Graphite) (payload : Value) (upsert : bool) (e : Value) :
  regs_ok graph_at → sound F s →
  launch graph_at getGraph fuel u payload upsert s = Exn e s' →
  e = TypeError ∧ s' = s
  ∧ ((unpack u payload upsert).1.2 = VNull ∨ (unpack u payload upsert).1.2 = VUndefined)
  ∧ ∃ u0 units, (unpack u payload upsert).1.1 = TArray (u0 :: units).
Proof.
  intros Hregs Hs Hrun.
  unfold launch, launch_with in Hrun.
  destruct (unpack u payload upsert) as [[target payload'] upsert']. cbn [fst snd].
  unfold bind at 1 in Hrun.
  pose proof (seed_sound getGraph _ target payload' s Hs) as Hseed.
  destruct (seed getGraph target payload' s) as [[] s1 | e1 s1 |] eqn:Eseed;
    try discriminate.
  - exfalso. unfold bind at 1, gets in Hrun.
    destruct (upsert' && alreadyStarted s1); [discriminate|].
    pose proof (exec_sound graph_at getGraph False (or_intror Hregs) fuel _ s1 Hseed)
      as Hexec.
    rewrite Hrun in Hexec. destruct Hexec as [_ []].
  - injection Hrun as <- <-. exact (seed_throws _ _ _ _ _ _ Hs Eseed).
Qed.

(** X13. In a state reached by [launch] calls on the loaded module, a
    [launch] that runs [exec] (it is not deferred by [upsert] during a
    drain) and returns leaves no layer queued, whatever the user
    functions launched in turn, and [alreadyStarted] as it was. *)
Theorem launch_drains_queue (fuel : nat) (calls : list (Graphite * Value * bool))
    (s s' : State) (u : Graphite) (payload : Value) (upsert : bool) :
  run_launches graph_at getGraph fuel calls init_state = Some s →
  (unpack u payload upsert).2 && alreadyStarted s = false →
  launch graph_at getGraph fuel u payload upsert s = Val tt s' →
  queue_layers s' = [] ∧ alreadyStarted s' = alreadyStarted s.
Proof.
  intros Hreach Hguard Hrun.
  exact (launch_val_drains _ fuel s s' u payload upsert
           (reachable_sound _ _ _ Hreach) Hguard Hrun).
Qed.

(** X14. Let every ref cell that a step names be in the register of its
    graph.  In a state reached by [launch] calls on the loaded module,
    [launch] throws in one case only: the target is a non-empty array of
    units and the payload is [null] or [undefined].  It is then a
    [TypeError] thrown before anything is queued, and the state is left
    as it is.  No exception of a user function, and no exception of a
    [launch] called by a user function, leaves [launch]. *)
Theorem launch_throws_only_seeding (fuel : nat) (calls : list (Graphite * Value * bool))
    (s s' : State) (u : Graphite) (payload : Value) (upsert : bool) (e : Value) :
  regs_ok graph_at →
  run_launches graph_at getGraph fuel calls init_state = Some s →
  launch graph_at getGraph fuel u payload upsert s = Exn e s' →
  e = TypeError ∧ s' = s
  ∧ ((unpack u payload upsert).1.2 = VNull ∨ (unpack u payload upsert).1.2 = VUndefined)
  ∧ ∃ u0 units, (unpack u payload upsert).1.1 = TArray (u0 :: units).
Proof.
  intros Hregs Hreach Hrun.
  exact (launch_exn_seeding _ fuel s s' u payload upsert e Hregs
           (reachable_sound _ _ _ Hreach) Hrun).
Qed.

Lemma heap_layers_queue (s : State) : queue_layers s = [] → heap_layers (heap s) = [].
Proof.
  unfold queue_layers. intros H.
  apply app_eq_nil in H as [_ H]. apply app_eq_nil in H as [_ H].
  apply app_eq_nil in H as [H _]. exact H.
Qed.

Lemma quiescent_launches (fuel : nat) (calls : list (Graphite * Value * bool)) :
  regs_ok graph_at →
  ∀ s s', sound (λ _, False) s → queue_layers s = [] → alreadyStarted s = false →
          run_launches graph_at getGraph fuel calls s = Some s' →
          queue_layers s' = [] ∧ alreadyStarted s' = false.
Proof.
  intros Hregs. induction calls as [|[[u payload] upsert] rest IH];
    intros s s' Hs Hempty Hflag Hrun; cbn [run_launches] in Hrun.
  - injection Hrun as <-. auto.
  - destruct (launch graph_at getGraph fuel u payload upsert s) as [[] s1 | e s1 |]
      eqn:El; [| | discriminate].
    + pose proof (launch_with_sound getGraph _ _ u payload upsert
                    (exec_preserves_sound graph_at getGraph True (or_introl I) _ fuel)
                    s Hs) as Hl.
      fold (launch graph_at getGraph fuel) in Hl. rewrite El in Hl.
      unfold launch, launch_with in El.
      destruct (unpack u payload upsert) as [[target payload'] upsert'].
      unfold bind at 1 in El.
      pose proof (seed_sound getGraph _ target payload' s Hs) as Hseed.
      pose proof (seed_keeps_started getGraph (alreadyStarted s) target payload' s eq_refl)
        as Hflag1.
      destruct (seed getGraph target payload' s) as [[] s2 | e2 s2 |]; try discriminate.
      unfold bind at 1, gets in El. rewrite Hflag1, Hflag, andb_false_r in El.
      pose proof (exec_sound graph_at getGraph True (or_introl I) fuel _ s2 Hseed) as Hexec.
      rewrite El in Hexec. destruct Hexec as [_ Hempty1].
      apply (IH s1 s' Hl Hempty1); [|exact Hrun].
      rewrite (exec_restores graph_at getGraph fuel s2 s1 El).
      congruence.
    + assert (Hsame : s1 = s).
      { unfold launch, launch_with in El.
        destruct (unpack u payload upsert) as [[target payload'] upsert'].
        unfold bind at 1 in El.
        pose proof (seed_sound getGraph _ target payload' s Hs) as Hseed.
        destruct (seed getGraph target payload' s) as [[] s2 | e2 s2 |] eqn:Eseed;
          try discriminate.
        - exfalso. unfold bind at 1, gets in El.
          destruct (upsert' && alreadyStarted s2); [discriminate|].
          pose proof (exec_sound graph_at getGraph False (or_intror Hregs) fuel _ s2 Hseed)
            as Hexec.
          rewrite El in Hexec. destruct Hexec as [_ []].
        - injection El as <- <-.
          destruct (seed_throws _ _ _ _ _ _ Hs Eseed) as (_ & -> & _). reflexivity. }
      subst s1. apply (IH s s' Hs Hempty Hflag Hrun).
Qed.

(** X15. Let every ref cell that a step names be in the register of its
    graph.  Between two [launch] calls made from outside any drain, the
    kernel is at rest: no layer is queued and [alreadyStarted] is
    [false]; if moreover every barrier step names the [barrier] or the
    [sampler] class, the registry of barriers is empty. *)
Theorem quiescent_between_launches (fuel : nat)
    (calls : list (Graphite * Value * bool)) (s : State) :
  regs_ok graph_at →
  run_launches graph_at getGraph fuel calls init_state = Some s →
  queue_layers s = [] ∧ alreadyStarted s = false
  ∧ (barriers_to_heap graph_at → barriers s = ∅).
Proof.
  intros Hregs Hrun.
  destruct (quiescent_launches fuel calls Hregs init_state s sound_init eq_refl eq_refl Hrun)
    as [Hempty Hflag].
  split; [exact Hempty|]. split; [exact Hflag|]. intros Hgraphs.
  pose proof (run_launches_ok graph_at getGraph Hgraphs fuel calls init_state s
                (kernel_inv_init graph_at) Hrun) as [_ _ _ _ Hreg _ _].
  apply set_eq. intros b. rewrite Hreg. unfold heap_ids.
  rewrite (heap_layers_queue s Hempty). cbn. split.
  - intros [Hb | Hb]; [inversion Hb | discriminate].
  - intros Hb. apply elem_of_empty in Hb. contradiction.
Qed.

End QuiescenceFacts.

Lemma examples_regs_ok : regs_ok Examples.graph_at.
Proof.
  intros g. destruct g as [|[|[|[|[|[|g]]]]]]; cbn;
    repeat (apply Forall_cons; split); try apply Forall_nil; cbn; auto.
  all: eexists; reflexivity.
Qed.

(** A [launch] with [upsert] made from outside any drain runs [exec]. *)
Lemma launch_drains_queue_witness :
  ∃ s s',
    run_launches Examples.graph_at Examples.getGraph 9
      [(GTarget (TUnit 4), VNum 1, false)] init_state = Some s
    ∧ launch Examples.graph_at Examples.getGraph 9 (GTarget (TArray [2; 3]))
        (VArr 0 [VNum 10; VNum 20]) true s = Val tt s'
    ∧ queue_layers s' = [] ∧ alreadyStarted s' = alreadyStarted s.
Proof.
  eexists _, _.
  match goal with |- ?Q ∧ _ => assert (H1 : Q) by (vm_compute; reflexivity) end.
  split; [exact H1|].
  match goal with |- ?Q ∧ _ => assert (H2 : Q) by (vm_compute; reflexivity) end.
  split; [exact H2|].
  exact (launch_drains_queue Examples.graph_at Examples.getGraph 9 _ _ _
           (GTarget (TArray [2; 3])) (VArr 0 [VNum 10; VNum 20]) true
           H1 eq_refl H2).
Defined.

(** Two units launched with [null] for the array of payloads. *)
Lemma launch_throws_only_seeding_witness :
  launch Examples.graph_at Examples.getGraph 9 (GTarget (TArray [2; 3])) VNull false
    init_state = Exn TypeError init_state
  ∧ ∃ u0 units, TArray [2; 3] = TArray (u0 :: units).
Proof.
  assert (H : launch Examples.graph_at Examples.getGraph 9 (GTarget (TArray [2; 3]))
                VNull false init_state = Exn TypeError init_state) by reflexivity.
  split; [exact H|].
  destruct (launch_throws_only_seeding Examples.graph_at Examples.getGraph 9 []
              init_state init_state (GTarget (TArray [2; 3])) VNull false TypeError
              examples_regs_ok eq_refl H) as (_ & _ & _ & Hu).
  exact Hu.
Defined.

(** Three launches of the example graphs, the second of which throws. *)
Lemma quiescent_between_launches_witness :
  ∃ s,
    run_launches Examples.graph_at Examples.getGraph 20
      [(GTarget (TArray [0; 1]), VArr 0 [VNum 7; VNum 8], false);
       (GTarget (TArray [2]), VNull, false);
       (GTarget (TUnit 5), VNum 1, true)] init_state = Some s
    ∧ queue_layers s = [] ∧ alreadyStarted s = false ∧ barriers s = ∅.
Proof.
  eexists.
  match goal with |- ?Q ∧ _ => assert (H1 : Q) by (vm_compute; reflexivity) end.
  split; [exact H1|].
  destruct (quiescent_between_launches Examples.graph_at Examples.getGraph 20 _ _
              examples_regs_ok H1) as (Hq & Hf & Hb).
  split; [exact Hq|]. split; [exact Hf|]. exact (Hb examples_barriers_to_heap).
Defined.

(** ** The bound on the iterations *)

Lemma extends_refl {A} (m : M A) : extends m m.
Proof. intros s. right. reflexivity. Qed.

Lemma extends_bind {A B} (m m' : M A) (k k' : A → M B) :
  extends m m' → (∀ a, extends (k a) (k' a)) → extends (bind m k) (bind m' k').
Proof.
  intros Hm Hk s. unfold bind. destruct (Hm s) as [E | E].
  - left. rewrite E. reflexivity.
  - rewrite E. destruct (m s) as [a s1 | e s1 |]; [apply Hk | right | left]; reflexivity.
Qed.

Lemma extends_try_catch {A} (m m' : M A) (h : Value → M A) :
  extends m m' → extends (try_catch m h) (try_catch m' h).
Proof.
  intros Hm s. unfold try_catch. destruct (Hm s) as [E | E].
  - left. rewrite E. reflexivity.
  - rewrite E. right. reflexivity.
Qed.

Section FuelFacts.

Variable graph_at : GraphRef → Graph.
Variable getGraph : Unit → GraphRef.

Section InterpreterFuel.

Variables launch_rec launch_rec' : Graphite → Value → bool → M unit.
Hypothesis launch_rec_extends :
  ∀ u payload upsert, extends (launch_rec u payload upsert) (launch_rec' u payload upsert).

Lemma run_fn_extends (body : FnBody) :
  extends (run_fn launch_rec body) (run_fn launch_rec' body).
Proof.
  induction body as [v | err | u payload upsert k IH]; cbn [run_fn].
  - apply extends_refl.
  - apply extends_refl.
  - apply extends_bind; [apply launch_rec_extends | intros _; exact IH].
Qed.

Lemma tryRun_extends (local : Local) (fn : UserFn) (stack : StackRef) :
  extends (tryRun launch_rec local fn stack) (tryRun launch_rec' local fn stack).
Proof.
  unfold tryRun. apply extends_bind; [apply extends_refl|]. intros fr.
  apply extends_try_catch. apply extends_bind; [apply run_fn_extends|].
  intros v. apply extends_refl.
Qed.

Lemma exec_compute_extends (stack : StackRef) (fn : UserFn) (local : Local) :
  extends (exec_compute launch_rec stack fn local)
          (exec_compute launch_rec' stack fn local).
Proof.
  unfold exec_compute. apply extends_bind; [apply tryRun_extends|].
  intros [r local']. apply extends_refl.
Qed.

Lemma exec_step_extends (idx : nat) (stack : StackRef) (type : PriorityTag)
    (graph : Graph) (stepn : nat) (step : Step) (local : Local) :
  extends (exec_step launch_rec idx stack type graph stepn step local)
          (exec_step launch_rec' idx stack type graph stepn step local).
Proof.
  destruct step as [id priority | from to | ty | fn | fn | fn]; cbn [exec_step];
    try apply extends_refl.
  - apply extends_bind; [apply tryRun_extends|]. intros [r local']. apply extends_refl.
  - destruct (negb (stepn =? idx) || negb (bool_decide (type = effect)));
      [apply extends_refl | apply exec_compute_extends].
  - apply exec_compute_extends.
Qed.

Lemma run_steps_extends (idx : nat) (stack : StackRef) (type : PriorityTag)
    (graph : Graph) (steps : list Step) :
  ∀ stepn local stop,
    extends (run_steps launch_rec idx stack type graph steps stepn local stop)
            (run_steps launch_rec' idx stack type graph steps stepn local stop).
Proof.
  induction steps as [|step rest IH]; intros stepn local stop; cbn [run_steps].
  - apply extends_refl.
  - destruct stop; [apply extends_refl|].
    apply extends_bind; [apply exec_step_extends|].
    intros [local'|]; [apply IH | apply extends_refl].
Qed.

Lemma exec_layer_extends (v : Layer) :
  extends (exec_layer graph_at launch_rec v) (exec_layer graph_at launch_rec' v).
Proof.
  unfold exec_layer. apply extends_bind; [apply extends_refl|]. intros fr.
  apply extends_bind; [apply run_steps_extends|]. intros o. apply extends_refl.
Qed.

Lemma drain_extends (n : nat) :
  ∀ n', n ≤ n' →
        extends (drain graph_at launch_rec n) (drain graph_at launch_rec' n').
Proof.
  induction n as [|n IH]; intros n' Hle; [intros s; left; reflexivity|].
  destruct n' as [|n']; [lia|]. cbn [drain].
  apply extends_bind; [apply extends_refl|]. intros [v|]; [|apply extends_refl].
  apply extends_bind; [apply exec_layer_extends|]. intros _. apply IH. lia.
Qed.

End InterpreterFuel.

Lemma launch_with_extends (exec exec' : M unit) (u : Graphite) (payload : Value)
    (upsert : bool) :
  extends exec exec' →
  extends (launch_with getGraph exec u payload upsert)
          (launch_with getGraph exec' u payload upsert).
Proof.
  intros He. unfold launch_with.
  destruct (unpack u payload upsert) as [[target payload'] upsert'].
  apply extends_bind; [apply extends_refl|]. intros _.
  apply extends_bind; [apply extends_refl|]. intros started.
  destruct (upsert' && started); [apply extends_refl | exact He].
Qed.

Lemma exec_extends (n : nat) :
  ∀ n', n ≤ n' → extends (exec graph_at getGraph n) (exec graph_at getGraph n').
Proof.
  induction n as [|n IH]; intros n' Hle; [intros s; left; reflexivity|].
  destruct n' as [|n']; [lia|]. cbn [exec].
  apply extends_bind; [apply extends_refl|]. intros last.
  apply extends_bind; [apply extends_refl|]. intros _.
  apply extends_bind; [|intros _; apply extends_refl].
  apply drain_extends; [|lia].
  intros u payload upsert. apply launch_with_extends. apply IH. lia.
Qed.


End FuelFacts.


(** ** Termination *)

Lemma total_ret {A} (P : State → Prop) (Q : A → State → Prop) (a : A) :
  (∀ s, P s → Q a s) → total P (ret a) Q.
Proof. intros H s Hs. apply H, Hs. Qed.

Lemma total_throw {A} (P : State → Prop) (Q : A → State → Prop) (e : Value) :
  total P (throw e) Q.
Proof. intros s Hs. exact I. Qed.

Lemma total_gets {A} (P : State → Prop) (Q : A → State → Prop) (g : State → A) :
  (∀ s, P s → Q (g s) s) → total P (gets g) Q.
Proof. intros H s Hs. apply H, Hs. Qed.

Lemma total_modify (P : State → Prop) (Q : unit → State → Prop) (g : State → State) :
  (∀ s, P s → Q tt (g s)) → total P (modify g) Q.
Proof. intros H s Hs. apply H, Hs. Qed.

Lemma total_bind {A B} (P : State → Prop) (m : M A) (R : A → State → Prop)
    (k : A → M B) (Q : B → State → Prop) :
  total P m R → (∀ a, total (R a) (k a) Q) → total P (bind m k) Q.
Proof.
  intros Hm Hk s Hs. unfold bind. specialize (Hm s Hs).
  destruct (m s) as [a s' | e s' |]; [apply Hk, Hm | exact I | exact Hm].
Qed.

Lemma total_conseq {A} (P P' : State → Prop) (m : M A) (Q Q' : A → State → Prop) :
  total P' m Q' → (∀ s, P s → P' s) → (∀ a s, Q' a s → Q a s) → total P m Q.
Proof.
  intros H HP HQ s Hs. specialize (H s (HP s Hs)).
  destruct (m s); [apply HQ, H | exact I | exact H].
Qed.

Section PotentialFacts.

Variable graph_at : GraphRef → Graph.
Variable rank : GraphRef → nat.
Hypothesis Hacyclic : acyclic graph_at rank.

Lemma sum_list_with_le {A} (f g : A → nat) (l : list A) :
  (∀ x, x ∈ l → f x ≤ g x) → sum_list_with f l ≤ sum_list_with g l.
Proof.
  induction l as [|x l IH]; intros H; cbn; [lia|].
  pose proof (H x ltac:(left)). 
  assert (sum_list_with f l ≤ sum_list_with g l) by (apply IH; intros y Hy; apply H; right; exact Hy).
  lia.
Qed.

Lemma sum_list_with_eq {A} (f g : A → nat) (l : list A) :
  (∀ x, x ∈ l → f x = g x) → sum_list_with f l = sum_list_with g l.
Proof.
  intros H. apply Nat.le_antisymm; apply sum_list_with_le; intros x Hx;
    rewrite (H x Hx); lia.
Qed.

Lemma cost_mono (k : nat) : ∀ k' g, k ≤ k' → cost graph_at k g ≤ cost graph_at k' g.
Proof.
  induction k as [|k IH]; intros k' g Hle; [cbn; lia|].
  destruct k' as [|k']; [lia|]. cbn [cost].
  assert (sum_list_with (cost graph_at k) (graph_next (graph_at g))
          ≤ sum_list_with (cost graph_at k') (graph_next (graph_at g))).
  { apply sum_list_with_le. intros c _. apply IH. lia. }
  lia.
Qed.

Lemma gate_le (graph : Graph) (idx : nat) (t : PriorityTag) : gate graph idx t ≤ 1.
Proof.
  unfold gate. destruct (graph_seq graph !! idx) as [[]|]; try lia;
    destruct (bool_decide _); lia.
Qed.

Lemma layer_weight_pos (g : GraphRef) (idx : nat) (t : PriorityTag) :
  1 ≤ layer_weight graph_at rank g idx t.
Proof. unfold layer_weight. lia. Qed.

(** A new layer of a child costs no more than what its parent has set
    aside for it. *)
Lemma child_weight (g c : GraphRef) (t : PriorityTag) :
  c ∈ graph_next (graph_at g) → layer_weight graph_at rank c 0 t ≤ cost graph_at (rank g) c.
Proof.
  intros Hc. pose proof (Hacyclic g c Hc) as Hr.
  pose proof (cost_mono (S (rank c)) (rank g) c ltac:(lia)) as Hm.
  cbn [cost] in Hm. unfold layer_weight.
  pose proof (gate_le (graph_at c) 0 t). lia.
Qed.

Lemma children_weight (g : GraphRef) (t : PriorityTag) :
  sum_list_with (λ c, layer_weight graph_at rank c 0 t) (graph_next (graph_at g))
  ≤ sum_list_with (cost graph_at (rank g)) (graph_next (graph_at g)).
Proof. apply sum_list_with_le. intros c Hc. apply child_weight, Hc. Qed.

End PotentialFacts.

Section MeasureFacts.

Variable graph_at : GraphRef → Graph.
Variable getGraph : Unit → GraphRef.
Variable rank : GraphRef → nat.
Hypothesis Hacyclic : acyclic graph_at rank.
Hypothesis Hpure : pure_fns graph_at.

Local Abbreviation lweight := (layer_weight graph_at rank).
Local Abbreviation pot := (potential graph_at rank).
Local Abbreviation meas := (measured graph_at rank).
Local Abbreviation rbound := (requeue_bound graph_at rank).

Lemma weight_same_stacks (s s' : State) (l : Layer) :
  stacks s' = stacks s → weight graph_at rank s' l = weight graph_at rank s l.
Proof. intros E. unfold weight. rewrite E. reflexivity. Qed.

(** The potential depends on the queued layers and on the graphs of
    their frames only. *)
Lemma potential_frame (s s' : State) :
  frames_ok s → queue_layers s' = queue_layers s →
  (∀ st fr, stacks s !! st = Some fr →
            ∃ fr', stacks s' !! st = Some fr' ∧ stack_node fr' = stack_node fr) →
  pot s' = pot s.
Proof.
  intros Hfr El Hkeep. unfold potential. rewrite El.
  apply sum_list_with_eq. intros l Hl. unfold weight.
  destruct (Hfr l Hl) as [fr Hf]. rewrite Hf.
  destruct (Hkeep _ _ Hf) as (fr' & -> & ->). reflexivity.
Qed.

Lemma measured_weaken (N N' : StackRef → GraphRef → Prop) (k k' : nat) (s : State) :
  (∀ st g, N st g → N' st g) → k' ≤ k → meas N' k' s → meas N k s.
Proof.
  intros HN Hk (Hs & Hn & Hp). split; [|split].
  - eapply sound_weaken; [|exact Hs]. intros st [g Hg]. exists g. auto.
  - intros st g Hg. apply Hn, HN, Hg.
  - lia.
Qed.

Lemma measured_frame (N : StackRef → GraphRef → Prop) (k : nat) (s s' : State) :
  meas N k s →
  queue s' = queue s → items s' = items s → next_item s' = next_item s →
  heap s' = heap s → stacks_ok s' →
  (∀ st fr, stacks s !! st = Some fr →
            ∃ fr', stacks s' !! st = Some fr' ∧ stack_node fr' = stack_node fr) →
  meas N k s'.
Proof.
  intros (Hs & Hn & Hp) Eq Ei En Eh Hst Hkeep. split; [|split].
  - eapply sound_frame; try eassumption.
    intros st [fr Hfr]. destruct (Hkeep _ _ Hfr) as (fr' & -> & _). eauto.
  - intros st g HN. destruct (Hn _ _ HN) as (fr & Hfr & Hg).
    destruct (Hkeep _ _ Hfr) as (fr' & Hfr' & Hg').
    exists fr'. split; [exact Hfr' | congruence].
  - rewrite (potential_frame s s'); [exact Hp | apply Hs | | exact Hkeep].
    unfold queue_layers, bucket_layers. rewrite Eq, Ei, Eh. reflexivity.
Qed.

Lemma modify_measured (N : StackRef → GraphRef → Prop) (k : nat) (g : State → State) :
  (∀ s, queue (g s) = queue s ∧ items (g s) = items s ∧ next_item (g s) = next_item s
        ∧ heap (g s) = heap s ∧ stacks (g s) = stacks s
        ∧ next_stack (g s) = next_stack s) →
  total (meas N k) (modify g) (λ _, meas N k).
Proof.
  intros Hg. apply total_modify. intros s Hs.
  destruct (Hg s) as (E1 & E2 & E3 & E4 & E5 & E6).
  eapply measured_frame; try exact Hs; try assumption.
  - destruct Hs as ((_ & Hst & _) & _). intros a Ha. rewrite E5. apply Hst.
    rewrite <- E6. exact Ha.
  - intros st fr Hfr. exists fr. rewrite E5. auto.
Qed.

Lemma pushHeap_measured (N : StackRef → GraphRef → Prop) (k : nat) (idx : nat)
    (stack : StackRef) (t : PriorityTag) (id : Z) (g : GraphRef) :
  N stack g →
  total (meas N k) (pushHeap idx stack t id) (λ _, meas N (k + lweight g idx t)).
Proof.
  intros HN s (Hs & Hn & Hp).
  pose proof (pushHeap_sound _ idx stack t id (ex_intro _ g HN) s Hs) as Hsound.
  destruct Hs as ([f Hrep] & Hst & Hfr & HF).
  destruct (pushHeap_layers s f idx stack t id Hrep)
    as (s' & f' & Hrun & Hrep' & (Hs1 & Hs2 & _) & Hl).
  rewrite Hrun in *. split; [exact Hsound|]. split.
  - intros st g' Hg'. eapply frame_node_same_stacks; [exact Hs1 | apply Hn, Hg'].
  - unfold potential. rewrite Hl, sum_list_with_app. cbn [sum_list_with].
    rewrite (sum_list_with_eq (weight graph_at rank s') (weight graph_at rank s))
      by (intros l _; apply weight_same_stacks, Hs1).
    rewrite (weight_same_stacks s s' _ Hs1). unfold weight at 2. cbn [layer_stack].
    destruct (Hn _ _ HN) as (fr & -> & ->). cbn [layer_idx layer_type].
    unfold potential in Hp. lia.
Qed.

Lemma deleteMin_measured (N : StackRef → GraphRef → Prop) (k : nat) :
  total (meas N k) deleteMin
    (λ res s', match res with
               | None => meas N k s'
               | Some v =>
                   ∃ g, lweight g (layer_idx v) (layer_type v) ≤ k
                        ∧ meas (λ st g', N st g' ∨ (st = layer_stack v ∧ g' = g))
                               (k - lweight g (layer_idx v) (layer_type v)) s'
               end).
Proof.
  intros s (Hs & Hn & Hp).
  pose proof (deleteMin_sound _ s Hs) as Hsound.
  destruct Hs as ([f Hrep] & Hst & Hfr & HF).
  destruct (deleteMin_layers s f Hrep)
    as (res & s' & f' & Hrun & Hrep' & (Hs1 & Hs2 & _) & Hres).
  rewrite Hrun in *. destruct res as [v|].
  - destruct Hres as [Hl _].
    destruct (Hfr v) as [fr Hv]; [rewrite Hl; left|].
    exists (stack_node fr).
    assert (Hpot : pot s = lweight (stack_node fr) (layer_idx v) (layer_type v) + pot s').
    { unfold potential. rewrite Hl. cbn [sum_list_with].
      rewrite (sum_list_with_eq (weight graph_at rank s') (weight graph_at rank s))
        by (intros l _; apply weight_same_stacks, Hs1).
      unfold weight at 1. rewrite Hv. reflexivity. }
    split; [lia|]. split; [|split].
    + eapply sound_weaken; [|exact Hsound].
      intros st [g' [Hg' | [-> _]]]; [left; eauto | right; reflexivity].
    + intros st g' [Hg' | [-> ->]].
      * eapply frame_node_same_stacks; [exact Hs1 | apply Hn, Hg'].
      * exists fr. rewrite Hs1. auto.
    + lia.
  - destruct Hres as [-> _]. destruct Hsound as [Hsound _].
    split; [exact Hsound|]. split; assumption.
Qed.

Lemma pushFirstHeapItem_measured (N : StackRef → GraphRef → Prop) (k : nat)
    (t : PriorityTag) (node : GraphRef) (parent : option StackRef) (value : Value) :
  total (meas N k) (pushFirstHeapItem t node parent value)
        (λ _, meas N (k + lweight node 0 t)).
Proof.
  intros s Hs. unfold pushFirstHeapItem, bind at 1, gets. unfold bind at 1, modify.
  set (s1 := set_stacks _ _ s).
  set (N' := λ st g, N st g ∨ (st = next_stack s ∧ g = node)).
  assert (Hst : stacks_ok s) by apply Hs.
  assert (Hs1 : meas N' k s1).
  { assert (H0 : meas N k s1).
    { eapply measured_frame; try exact Hs; try reflexivity.
      - intros a Ha. simpl in *. rewrite lookup_insert_ne by lia. apply Hst. lia.
      - intros st fr Hfr. exists fr. split; [|reflexivity]. simpl.
        rewrite lookup_insert_ne; [exact Hfr|].
        intros <-. rewrite (Hst (next_stack s)) in Hfr by lia. discriminate. }
    destruct H0 as (Hsound & Hn & Hp). split; [|split].
    - destruct Hsound as (Hq & Hst1 & Hfr1 & HF1). repeat split; auto.
      intros st [g [Hg | [-> _]]]; [apply HF1; eauto|].
      simpl. rewrite lookup_insert_eq. eauto.
    - intros st g [Hg | [-> ->]]; [apply Hn, Hg|].
      eexists. simpl. rewrite lookup_insert_eq. split; reflexivity.
    - exact Hp. }
  pose proof (pushHeap_measured N' k 0 (next_stack s) t 0 node
                (or_intror (conj eq_refl eq_refl)) s1 Hs1) as H.
  destruct (pushHeap 0 (next_stack s) t 0 s1) as [[] s2 | e s2 |];
    [| exact I | exact H].
  eapply measured_weaken; [| |exact H]; [intros st g Hg; left; exact Hg | lia].
Qed.

Lemma write_stack_measured (N : StackRef → GraphRef → Prop) (k : nat)
    (st : StackRef) (f : Stack → Stack) :
  (∀ fr, stack_node (f fr) = stack_node fr) →
  total (meas N k) (write_stack st f) (λ _, meas N k).
Proof.
  intros Hf. apply total_modify. intros s Hs.
  eapply measured_frame; try exact Hs; try reflexivity.
  - destruct Hs as ((_ & Hst & _) & _). intros a Ha. simpl in *.
    destruct (decide (a = st)) as [-> | Hne].
    + rewrite lookup_alter_eq, (Hst st Ha). reflexivity.
    + rewrite lookup_alter_ne by congruence. apply Hst. exact Ha.
  - intros a fr Hfr. simpl. destruct (decide (a = st)) as [-> | Hne].
    + exists (f fr). rewrite lookup_alter_eq, Hfr. split; [reflexivity | apply Hf].
    + exists fr. rewrite lookup_alter_ne by congruence. auto.
Qed.

Lemma read_stack_measured (N : StackRef → GraphRef → Prop) (k : nat)
    (st : StackRef) (g : GraphRef) :
  N st g →
  total (meas N k) (read_stack st) (λ fr s, meas N k s ∧ stack_node fr = g).
Proof.
  intros HN s Hs. unfold read_stack.
  destruct Hs as (Hsound & Hn & Hp). destruct (Hn _ _ HN) as (fr & Hfr & Hg).
  rewrite Hfr. split; [|exact Hg]. split; [exact Hsound|]. split; assumption.
Qed.

Lemma reg_lookup_total (P : State → Prop) (graph : Graph) (id : string) :
  total P (reg_lookup graph id) (λ _, P).
Proof.
  intros s Hs. unfold reg_lookup. destruct (graph_reg graph !! id); [exact Hs | exact I].
Qed.

Section InterpreterMeasure.

Variable launch_rec : Graphite → Value → bool → M unit.

(** A function that does not call [launch] leaves the state alone. *)
Lemma run_fn_pure (body : FnBody) (s : State) :
  no_launch body →
  (∃ v, run_fn launch_rec body s = Val v s) ∨ (∃ e, run_fn launch_rec body s = Exn e s).
Proof. destruct body; cbn; intros H; [left | right | contradiction]; eauto. Qed.

Lemma tryRun_measured (N : StackRef → GraphRef → Prop) (k : nat) (local : Local)
    (fn : UserFn) (stack : StackRef) (g : GraphRef) :
  N stack g → (∀ v scope fr, no_launch (fn v scope fr)) →
  total (meas N k) (tryRun launch_rec local fn stack) (λ _, meas N k).
Proof.
  intros HN Hfn s Hs. unfold tryRun, bind at 1.
  pose proof (read_stack_measured N k stack g HN s Hs) as Hr.
  destruct (read_stack stack s) as [fr s1 | e s1 |]; [| exact I | exact Hr].
  destruct Hr as [Hs1 _]. unfold try_catch, bind.
  destruct (run_fn_pure (fn (stack_value fr) (local_scope local) fr) s1 (Hfn _ _ _))
    as [[v ->] | [e ->]].
  - exact Hs1.
  - apply (modify_measured N k (λ s, set_console (e :: console s) s)); [|exact Hs1].
    intros s0. repeat split.
Qed.

Lemma exec_compute_measured (N : StackRef → GraphRef → Prop) (k : nat)
    (stack : StackRef) (fn : UserFn) (local : Local) (g : GraphRef) :
  N stack g → (∀ v scope fr, no_launch (fn v scope fr)) →
  total (meas N k) (exec_compute launch_rec stack fn local)
        (λ o s, meas N k s ∧ o ≠ ContinueMem).
Proof.
  intros HN Hfn. unfold exec_compute.
  apply (total_bind _ _ (λ _, meas N k)); [eapply tryRun_measured; eassumption|].
  intros [r local']. apply (total_bind _ _ (λ _, meas N k)).
  - apply write_stack_measured. reflexivity.
  - intros _. apply total_ret. intros s Hs. split; [exact Hs | discriminate].
Qed.

Lemma exec_step_measured (N : StackRef → GraphRef → Prop) (k : nat) (idx : nat)
    (stack : StackRef) (type : PriorityTag) (g : GraphRef) (stepn : nat) (step : Step)
    (local : Local) :
  N stack g → graph_seq (graph_at g) !! stepn = Some step →
  total (meas N k)
    (exec_step launch_rec idx stack type (graph_at g) stepn step local)
    (λ o s, match o with
            | ContinueMem => meas N (k + rbound g idx type stepn) s
            | Break _ => meas N k s
            end).
Proof.
  intros HN Hstep.
  assert (Hin : step ∈ graph_seq (graph_at g)) by (eapply list_elem_of_lookup_2; eauto).
  assert (Hup : ∀ s, meas N k s → meas N (k + rbound g idx type stepn) s).
  { intros s. apply measured_weaken; [auto | lia]. }
  destruct step as [id priority | from to | ty | fn | fn | fn]; cbn [exec_step].
  - destruct (negb (stepn =? idx) || negb (bool_decide (type = priority))) eqn:Hcond.
    + apply (total_bind _ _ (λ _, meas N k)); [apply total_gets; auto|].
      intros registered.
      apply (total_bind _ _ (λ _, meas N (k + rbound g idx type stepn)));
        [|intros _; apply total_ret; auto].
      destruct registered; [apply total_ret; intros s; apply Hup|].
      apply (total_bind _ _ (λ _, meas N k)).
      * apply modify_measured. intros s. repeat split.
      * intros _. eapply total_conseq;
          [apply (pushHeap_measured N k stepn stack priority id g HN) | auto |].
        intros [] s. apply measured_weaken; [auto|].
        unfold layer_weight, requeue_bound, gate. rewrite Hstep.
        rewrite bool_decide_eq_true_2 by reflexivity.
        destruct (decide (stepn = idx)) as [-> | Hne]; [rewrite Hstep | lia].
        rewrite Nat.eqb_refl in Hcond. cbn in Hcond.
        apply negb_true_iff in Hcond. rewrite Hcond. lia.
    + apply (total_bind _ _ (λ _, meas N k)); [|intros _; apply total_ret; auto].
      apply modify_measured. intros s. repeat split.
  - apply (total_bind _ _ (λ _, meas N k)).
    + destruct from as [| | |store|id]; cbn [mov_from];
        try (apply (total_bind _ _ (λ _, meas N k));
             [eapply total_conseq;
                [apply (read_stack_measured N k stack g HN) | auto
                | intros fr s [? _]; assumption]
             |intros fr; apply total_ret; auto]).
      * apply total_ret. auto.
      * apply (total_bind _ _ (λ _, meas N k)); [apply reg_lookup_total|].
        intros c. apply total_gets. auto.
    + intros value.
      apply (total_bind _ _ (λ _, meas N k)); [|intros _; apply total_ret; auto].
      destruct to as [| | |id]; cbn [mov_to];
        try (apply write_stack_measured; reflexivity).
      apply (total_bind _ _ (λ _, meas N k)); [apply reg_lookup_total|].
      intros c. apply modify_measured. intros s. repeat split.
  - destruct ty as [|id].
    + apply (total_bind _ _ (λ _, meas N k)).
      * eapply total_conseq;
          [apply (read_stack_measured N k stack g HN) | auto
          | intros fr s [? _]; assumption].
      * intros fr. apply total_ret. auto.
    + apply (total_bind _ _ (λ _, meas N k)).
      * eapply total_conseq;
          [apply (read_stack_measured N k stack g HN) | auto
          | intros fr s [? _]; assumption].
      * intros fr. apply (total_bind _ _ (λ _, meas N k)); [apply reg_lookup_total|].
        intros c. apply (total_bind _ _ (λ _, meas N k)); [apply total_gets; auto|].
        intros v. apply total_ret. auto.
  - apply (total_bind _ _ (λ _, meas N k)).
    + eapply tryRun_measured; [exact HN|]. intros v scope fr.
      apply (Hpure g _ fn v scope fr Hin). reflexivity.
    + intros [r local']. apply total_ret. auto.
  - destruct (negb (stepn =? idx) || negb (bool_decide (type = effect))) eqn:Hcond.
    + apply (total_bind _ _ (λ _, meas N (k + rbound g idx type stepn)));
        [|intros _; apply total_ret; auto].
      eapply total_conseq;
        [apply (pushHeap_measured N k stepn stack effect 0 g HN) | auto |].
      intros [] s. apply measured_weaken; [auto|].
      unfold layer_weight, requeue_bound, gate. rewrite Hstep.
      rewrite bool_decide_eq_true_2 by reflexivity.
      destruct (decide (stepn = idx)) as [-> | Hne]; [rewrite Hstep | lia].
      rewrite Nat.eqb_refl in Hcond. cbn in Hcond.
      apply negb_true_iff in Hcond. rewrite Hcond. lia.
    + eapply total_conseq;
        [apply (exec_compute_measured N k stack fn local g HN) | auto |].
      * intros v scope fr. apply (Hpure g _ fn v scope fr Hin). reflexivity.
      * intros [local'|] s [Hs Ho]; [exact Hs | contradiction].
  - eapply total_conseq;
      [apply (exec_compute_measured N k stack fn local g HN) | auto |].
    + intros v scope fr. apply (Hpure g _ fn v scope fr Hin). reflexivity.
    + intros [local'|] s [Hs Ho]; [exact Hs | contradiction].
Qed.

Lemma requeue_bound_step (g : GraphRef) (idx : nat) (type : PriorityTag) (stepn : nat) :
  idx ≤ stepn → stepn < length (graph_seq (graph_at g)) →
  rbound g idx type (S stepn) ≤ rbound g idx type stepn.
Proof.
  intros Hle Hlt. unfold requeue_bound.
  destruct (decide (S stepn = idx)) as [? | _]; [lia|].
  destruct (decide (stepn = idx)); lia.
Qed.

Lemma run_steps_measured (N : StackRef → GraphRef → Prop) (k : nat) (idx : nat)
    (stack : StackRef) (type : PriorityTag) (g : GraphRef) (steps : list Step) :
  N stack g →
  ∀ stepn local stop,
    idx ≤ stepn → steps = drop stepn (graph_seq (graph_at g)) →
    total (meas N k)
      (run_steps launch_rec idx stack type (graph_at g) steps stepn local stop)
      (λ o s, match o with
              | Requeued => meas N (k + rbound g idx type stepn) s
              | Finished _ => meas N k s
              end).
Proof.
  intros HN. induction steps as [|step rest IH]; intros stepn local stop Hle Hsteps;
    cbn [run_steps].
  - apply total_ret. auto.
  - destruct stop; [apply total_ret; auto|].
    assert (Hstep : graph_seq (graph_at g) !! stepn = Some step).
    { rewrite <- (Nat.add_0_r stepn), <- lookup_drop, <- Hsteps. reflexivity. }
    assert (Hlt : stepn < length (graph_seq (graph_at g))).
    { apply lookup_lt_Some in Hstep. exact Hstep. }
    apply (total_bind _ _ (λ o s, match o with
                                  | ContinueMem =>
                                      meas N (k + rbound g idx type stepn) s
                                  | Break _ => meas N k s
                                  end));
      [apply exec_step_measured; assumption|].
    intros [local'|]; [|apply total_ret; auto].
    eapply total_conseq; [apply (IH (S stepn)) | auto |].
    + lia.
    + rewrite (drop_S _ _ _ Hstep) in Hsteps. congruence.
    + intros [|stop] s Hs; [|exact Hs].
      eapply measured_weaken; [| |exact Hs]; [auto|].
      pose proof (requeue_bound_step g idx type stepn Hle Hlt). lia.
Qed.

Lemma fan_out_measured (N : StackRef → GraphRef → Prop) (stack : StackRef)
    (g : GraphRef) (children : list GraphRef) :
  N stack g →
  ∀ k, total (meas N k) (fan_out children stack)
             (λ _, meas N (k + sum_list_with (λ c, lweight c 0 child) children)).
Proof.
  intros HN. induction children as [|node rest IH]; intros k; cbn [fan_out].
  - apply total_ret. intros s Hs.
    eapply measured_weaken; [| |exact Hs]; [auto | cbn; lia].
  - apply (total_bind _ _ (λ _, meas N k)).
    { eapply total_conseq;
        [apply (read_stack_measured N k stack g HN) | auto
        | intros fr s [? _]; assumption]. }
    intros fr. apply (total_bind _ _ (λ _, meas N (k + lweight node 0 child)));
      [apply pushFirstHeapItem_measured|].
    intros _.
    eapply total_conseq;
      [apply (IH (k + lweight node 0 child)) | intros s Hs; exact Hs |].
    intros [] s Hs. eapply measured_weaken; [| |exact Hs]; [auto | cbn; lia].
Qed.

(** One iteration of the drain loop: the layer that is run weighs more
    than what it leaves in the queue. *)
Lemma exec_layer_measured (N : StackRef → GraphRef → Prop) (k : nat) (v : Layer)
    (g : GraphRef) :
  total (meas (λ st g', N st g' ∨ (st = layer_stack v ∧ g' = g)) k)
        (exec_layer graph_at launch_rec v)
        (λ _ s, meas N (k + lweight g (layer_idx v) (layer_type v) - 1) s).
Proof.
  set (N' := λ st g', N st g' ∨ (st = layer_stack v ∧ g' = g)).
  assert (HN : N' (layer_stack v) g) by (right; auto).
  assert (Hweak : ∀ k' s, k' ≤ k + lweight g (layer_idx v) (layer_type v) - 1 →
                          meas N' k' s →
                          meas N (k + lweight g (layer_idx v) (layer_type v) - 1) s).
  { intros k' s Hk. apply measured_weaken; [|exact Hk]. intros st g' Hg'. left. exact Hg'. }
  unfold exec_layer.
  apply (total_bind _ _ (λ fr s, meas N' k s ∧ stack_node fr = g));
    [apply read_stack_measured; exact HN|].
  intros fr s [Hs Hg]. revert s Hs. rewrite Hg.
  change (total (meas N' k)
            (bind (run_steps launch_rec (layer_idx v) (layer_stack v) (layer_type v)
                     (graph_at g) (drop (layer_idx v) (graph_seq (graph_at g)))
                     (layer_idx v)
                     {| local_skip := false; local_fail := false; local_ref := "";
                        local_scope := graph_scope (graph_at g) |} false)
                  (λ o, match o with
                        | Requeued => ret tt
                        | Finished stop =>
                            if stop then ret tt
                            else fan_out (graph_next (graph_at g)) (layer_stack v)
                        end))
            (λ _ s, meas N (k + lweight g (layer_idx v) (layer_type v) - 1) s)).
  assert (Hchildren :
            sum_list_with (λ c, lweight c 0 child) (graph_next (graph_at g)) + 1
            ≤ lweight g (layer_idx v) (layer_type v)).
  { pose proof (children_weight graph_at rank Hacyclic g child).
    unfold layer_weight at 2. lia. }
  apply (total_bind _ _
           (λ o s, match o with
                   | Requeued =>
                       meas N' (k + rbound g (layer_idx v) (layer_type v)
                                      (layer_idx v)) s
                   | Finished _ => meas N' k s
                   end)).
  - apply run_steps_measured; [exact HN | lia | reflexivity].
  - intros [|stop].
    + apply total_ret. intros s. apply Hweak.
      unfold requeue_bound, layer_weight. rewrite decide_True by reflexivity. lia.
    + destruct stop.
      * apply total_ret. intros s. apply Hweak. lia.
      * eapply total_conseq; [apply (fan_out_measured N' _ g _ HN k) | auto |].
        intros [] s. apply Hweak. lia.
Qed.

(** With the functions and the graphs as assumed, the drain loop ends
    within as many iterations as the potential of the state, and one
    more. *)
Lemma drain_terminates (n : nat) :
  ∀ N k, k < n → total (meas N k) (drain graph_at launch_rec n) (λ _ _, True).
Proof.
  induction n as [|n IH]; intros N k Hk; [lia|]. cbn [drain].
  apply (total_bind _ _
           (λ res s', match res with
                      | None => meas N k s'
                      | Some v =>
                          ∃ g, lweight g (layer_idx v) (layer_type v) ≤ k
                               ∧ meas (λ st g', N st g' ∨ (st = layer_stack v ∧ g' = g))
                                      (k - lweight g (layer_idx v) (layer_type v)) s'
                      end));
    [apply deleteMin_measured|].
  intros [v|]; [|apply total_ret; auto].
  intros s (g & Hw & Hs).
  pose proof (layer_weight_pos graph_at rank g (layer_idx v) (layer_type v)) as Hpos.
  assert (H1 : total (meas (λ st g', N st g' ∨ (st = layer_stack v ∧ g' = g))
                          (k - lweight g (layer_idx v) (layer_type v)))
                 (exec_layer graph_at launch_rec v) (λ _, meas N (k - 1))).
  { eapply total_conseq;
      [apply (exec_layer_measured N (k - lweight g (layer_idx v) (layer_type v)) v g)
      | intros s0 Hs0; exact Hs0 |].
    intros [] s' Hs'. eapply measured_weaken; [| |exact Hs']; [auto | lia]. }
  apply (total_bind _ _ (λ _, meas N (k - 1)) _ _ H1); [|exact Hs].
  intros _. apply IH. lia.
Qed.

End InterpreterMeasure.

Lemma seed_array_measured (N : StackRef → GraphRef → Prop) (units : list Unit)
    (payload : Value) :
  ∀ i k, total (meas N k) (seed_array getGraph units i payload)
               (λ _ s, ∃ k', meas N k' s).
Proof.
  induction units as [|u units IH]; intros i k; cbn [seed_array].
  - apply total_ret. eauto.
  - apply (total_bind _ _ (λ _, meas N k)).
    { intros s Hs. destruct payload; cbn; auto. }
    intros v. apply (total_bind _ _ (λ _, meas N (k + lweight (getGraph u) 0 pure)));
      [apply pushFirstHeapItem_measured | intros _; apply IH].
Qed.

Lemma seed_measured (N : StackRef → GraphRef → Prop) (k : nat) (target : Target)
    (payload : Value) :
  total (meas N k) (seed getGraph target payload) (λ _ s, ∃ k', meas N k' s).
Proof.
  destruct target as [u|units]; cbn [seed]; [|apply seed_array_measured].
  eapply total_conseq;
    [apply (pushFirstHeapItem_measured N k) | intros s Hs; exact Hs |].
  intros [] s Hs. eauto.
Qed.

Lemma exec_terminates (fuel : nat) (N : StackRef → GraphRef → Prop) (k : nat) :
  k + 1 < fuel →
  total (meas N k) (exec graph_at getGraph fuel) (λ _ _, True).
Proof.
  intros Hk. destruct fuel as [|n]; [lia|]. cbn [exec].
  apply (total_bind _ _ (λ _, meas N k)); [apply total_gets; auto|].
  intros lastStartedState.
  apply (total_bind _ _ (λ _, meas N k)).
  { apply modify_measured. intros s. repeat split. }
  intros _. apply (total_bind _ _ (λ _ _, True)).
  - apply drain_terminates. lia.
  - intros _. apply total_modify. auto.
Qed.

(** [launch] ends within a bound that depends on the state it is called
    in and on what it seeds. *)
Lemma launch_terminates_measured (N : StackRef → GraphRef → Prop) (k : nat)
    (u : Graphite) (payload : Value) (upsert : bool) (s : State) :
  meas N k s →
  ∃ fuel, ∀ fuel', fuel ≤ fuel' →
    launch graph_at getGraph fuel' u payload upsert s ≠ OutOfFuel.
Proof.
  intros Hs. unfold launch, launch_with.
  destruct (unpack u payload upsert) as [[target payload'] upsert'].
  pose proof (seed_measured N k target payload' s Hs) as Hseed.
  unfold bind at 1.
  destruct (seed getGraph target payload' s) as [[] s1 | e s1 |];
    [| exists 0; intros; discriminate | contradiction].
  destruct Hseed as [k1 Hs1]. exists (k1 + 2). intros fuel' Hle.
  unfold bind, gets. destruct (upsert' && alreadyStarted s1); [discriminate|].
  pose proof (exec_terminates fuel' N k1 ltac:(lia) s1 Hs1) as Hexec.
  intros E. rewrite E in Hexec. exact Hexec.
Qed.

Lemma measured_sound (s : State) :
  sound (λ _, False) s → meas (λ _ _, False) (pot s) s.
Proof.
  intros Hs. split; [|split].
  - eapply sound_weaken; [|exact Hs]. intros st [g []].
  - intros st g [].
  - lia.
Qed.

End MeasureFacts.

Section CompletionFacts.

Variable graph_at : GraphRef → Graph.
Variable getGraph : Unit → GraphRef.

(** X18. Let no function of the graphs call [launch], and let the graphs
    form no cycle through [next].  In a state reached by [launch] calls
    on the loaded module, [launch] ends, whatever the functions return
    or throw: there is a bound within which it returns or throws, and it
    gives the same result and state within every greater bound. *)
Theorem launch_terminates (rank : GraphRef → nat) (fuel0 : nat)
    (calls : list (Graphite * Value * bool)) (s : State)
    (u : Graphite) (payload : Value) (upsert : bool) :
  acyclic graph_at rank → pure_fns graph_at →
  run_launches graph_at getGraph fuel0 calls init_state = Some s →
  ∃ fuel, ∀ fuel', fuel ≤ fuel' →
    launch graph_at getGraph fuel' u payload upsert s ≠ OutOfFuel
    ∧ launch graph_at getGraph fuel' u payload upsert s
      = launch graph_at getGraph fuel u payload upsert s.
Proof.
  intros Hacyclic Hpure Hreach.
  pose proof (reachable_sound graph_at getGraph _ _ _ Hreach) as Hs.
  destruct (launch_terminates_measured graph_at getGraph rank Hacyclic Hpure _ _
              u payload upsert s (measured_sound graph_at rank s Hs)) as [fuel Hfuel].
  exists fuel. intros fuel' Hle. split; [apply Hfuel, Hle|].
  destruct (launch_with_extends getGraph _ _ u payload upsert
              (exec_extends graph_at getGraph fuel fuel' Hle) s) as [E | E]; [|exact E].
  exfalso. exact (Hfuel fuel (Nat.le_refl _) E).
Qed.

(** X19. Let moreover every ref cell that a step names be in the
    register of its graph.  Then [launch], called from outside any drain
    with a payload that can be indexed when the target is a non-empty
    array of units, returns: no exception leaves it, no layer is left
    queued and [alreadyStarted] is [false] again. *)
Theorem launch_completes (rank : GraphRef → nat) (fuel0 : nat)
    (calls : list (Graphite * Value * bool)) (s : State)
    (u : Graphite) (payload : Value) (upsert : bool) :
  acyclic graph_at rank → pure_fns graph_at → regs_ok graph_at →
  run_launches graph_at getGraph fuel0 calls init_state = Some s →
  (∀ u0 units, (unpack u payload upsert).1.1 = TArray (u0 :: units) →
               (unpack u payload upsert).1.2 ≠ VNull
               ∧ (unpack u payload upsert).1.2 ≠ VUndefined) →
  ∃ fuel s',
    (∀ fuel', fuel ≤ fuel' →
              launch graph_at getGraph fuel' u payload upsert s = Val tt s')
    ∧ queue_layers s' = [] ∧ alreadyStarted s' = false.
Proof.
  intros Hacyclic Hpure Hregs Hreach Hpayload.
  pose proof (reachable_sound graph_at getGraph _ _ _ Hreach) as Hs.
  destruct (quiescent_launches graph_at getGraph fuel0 calls Hregs init_state s
              sound_init eq_refl eq_refl Hreach) as [_ Hflag].
  destruct (launch_terminates_measured graph_at getGraph rank Hacyclic Hpure _ _
              u payload upsert s (measured_sound graph_at rank s Hs)) as [fuel Hfuel].
  destruct (launch graph_at getGraph fuel u payload upsert s) as [[] s' | e s' |] eqn:El.
  - exists fuel, s'.
    destruct (launch_val_drains graph_at getGraph _ fuel s s' u payload upsert Hs
                ltac:(rewrite Hflag; apply andb_false_r) El) as [Hempty Hstarted].
    split; [|split; [exact Hempty | congruence]].
    intros fuel' Hle.
    destruct (launch_with_extends getGraph _ _ u payload upsert
                (exec_extends graph_at getGraph fuel fuel' Hle) s) as [E | E].
    + fold (launch graph_at getGraph fuel) in E. congruence.
    + fold (launch graph_at getGraph fuel) (launch graph_at getGraph fuel') in E.
      congruence.
  - exfalso.
    destruct (launch_exn_seeding graph_at getGraph _ fuel s s' u payload upsert e Hregs Hs El)
      as (_ & _ & Hnull & u0 & units & Ht).
    destruct (Hpayload u0 units Ht) as [Hn Hu]. destruct Hnull; contradiction.
  - exfalso. exact (Hfuel fuel (Nat.le_refl _) El).
Qed.

End CompletionFacts.

(** The tree of graphs is as assumed. *)

Lemma tree_acyclic : acyclic Tree.graph_at Tree.rank.
Proof.
  intros g c Hc. destruct g as [|[|[|[|g]]]]; cbn in Hc;
    repeat (apply elem_of_cons in Hc as [-> | Hc]; [cbn; lia|]); inversion Hc.
Qed.

Lemma tree_pure_fns : pure_fns Tree.graph_at.
Proof.
  intros g step fn v scope fr Hin Hfn.
  destruct g as [|[|[|[|g]]]]; cbn in Hin;
    repeat (apply elem_of_cons in Hin as [-> | Hin];
            [cbn in Hfn; try discriminate; injection Hfn as <-; exact I|]);
    inversion Hin.
Qed.

Lemma tree_regs_ok : regs_ok Tree.graph_at.
Proof.
  intros g. destruct g as [|[|[|[|g]]]]; cbn;
    repeat (apply Forall_cons; split); try apply Forall_nil; cbn; auto.
Qed.

(** A launch of the root of the tree. *)
Lemma launch_terminates_witness :
  ∃ fuel, ∀ fuel', fuel ≤ fuel' →
    launch Tree.graph_at Examples.getGraph fuel' (GTarget (TUnit 0)) (VNum 1) false
      init_state ≠ OutOfFuel.
Proof.
  destruct (launch_terminates Tree.graph_at Examples.getGraph Tree.rank 0 [] init_state
              (GTarget (TUnit 0)) (VNum 1) false tree_acyclic tree_pure_fns eq_refl)
    as [fuel H].
  exists fuel. intros fuel' Hle. apply H, Hle.
Defined.

(** The same launch returns. *)
Lemma launch_completes_witness :
  ∃ fuel s',
    (∀ fuel', fuel ≤ fuel' →
              launch Tree.graph_at Examples.getGraph fuel' (GTarget (TUnit 0)) (VNum 1)
                false init_state = Val tt s')
    ∧ queue_layers s' = [] ∧ alreadyStarted s' = false.
Proof.
  apply (launch_completes Tree.graph_at Examples.getGraph Tree.rank 0 [] init_state
           (GTarget (TUnit 0)) (VNum 1) false
           tree_acyclic tree_pure_fns tree_regs_ok eq_refl).
  intros u0 units H. discriminate.
Defined.
